(** * The script compiler of caffe2/contrib/script/compiler.cc

    A shallow embedding of [DefCompiler] and [CompilationUnitImpl]: the
    lowering of a parsed function definition into a [NetDef] whose control
    flow is held in nested nets.  The C++ code mutates protobuf messages in
    place through pointers and signals errors with exceptions; here the
    compiler object is threaded explicitly and an exception is a [Throw]
    result that still carries the compiler object as the exception left it. *)

From Stdlib Require Import ZArith String Ascii List Lia.
From Stdlib Require Import PrimFloat SpecFloat FloatOps.
From Stdlib Require Import DecimalString DecimalNat.
From stdpp Require Import base option list strings gmap fin_maps.

Local Open Scope string_scope.
Local Open Scope list_scope.
Set Warnings "-register-all".

(** ** Numbers

    The number of a literal is a C++ double, here a binary64 float of the
    kernel.  The compiler stores it in a protobuf field that is a 32-bit
    float ([set_f], [add_floats]) or a 64-bit integer ([set_i], [add_ints]);
    the two implicit conversions of the source are written out. *)

(** A 32-bit float, kept as the double that has its value. *)
Definition float32 : Set := float.

(** Conversion of a double to float: rounding to the nearest binary32
    value, ties to even; beyond the range of binary32 the result is an
    infinity.  Zeros, infinities and NaN are unchanged. *)
Definition double_to_float (v : float) : float32 :=
  match Prim2SF v with
  | S754_finite s m e => SF2Prim (binary_round 24 128 s m e)
  | _ => v
  end.

Definition INT64_MIN : Z := (- 2 ^ 63)%Z.

(** Conversion of a double to int64: truncation towards zero.  For a double
    outside the range of int64, an infinity or a NaN, C++ leaves the result
    undefined; the value given here is the one the conversion instruction of
    x86-64 produces, the least int64. *)
Definition double_to_int64 (v : float) : Z :=
  match Prim2SF v with
  | S754_zero _ => 0%Z
  | S754_finite s m e =>
      let a := Z.shiftl (Z.pos m) e in
      let z := if s then (- a)%Z else a in
      if decide (INT64_MIN <= z < 2 ^ 63)%Z then z else INT64_MIN
  | _ => INT64_MIN
  end.

(** [v != 0] on a double: false for the two zeros only. *)
Definition double_nonzero (v : float) : bool :=
  match Prim2SF v with
  | S754_zero _ => false
  | _ => true
  end.

(** ** Syntax trees (the parser's trees, seen through their views) *)

(** Token kinds that compiler.cc names.  Single-character tokens are their
    own kind in the lexer ('+', '-', ...); [TK_OTHER] stands for every kind
    the compiler does not mention. *)
Inductive Kind : Set :=
| K_plus      (* '+' *)
| K_minus     (* '-' *)
| K_star      (* '*' *)
| K_slash     (* '/' *)
| K_lt        (* '<' *)
| K_gt        (* '>' *)
| K_assign    (* '=' *)
| TK_NE | TK_EQ | TK_LE | TK_GE
| TK_IF_EXPR | TK_AND | TK_OR | TK_NOT
| TK_LIST
| TK_INT | TK_FLOAT | TK_LONG | TK_BOOL
| TK_OTHER (code : Z).

#[global] Instance Kind_eq_dec : EqDecision Kind.
Proof. intros x y. unfold Decision. decide equality. apply Z.eq_dec. Defined.

#[local] Unset Elimination Schemes.

(** Expression trees.  [Ident], [Const], [Apply] and [Cast] are the trees of
    kind TK_IDENT, TK_CONST, TK_APPLY and TK_CAST seen through their views;
    [Compound] is any other tree: a kind and its children.  A literal carries
    its number ([tree(0)->doubleValue()]) and its type suffix
    ([tree(1)->stringValue()]). *)
Inductive Tree : Type :=
| Ident (name : string)
| Const (v : float) (type_ident : string)
| Apply (name : string) (inputs : list Tree) (attributes : list (string * Tree))
| Cast (type : Kind) (input : Tree)
| Compound (kind : Kind) (trees : list Tree).

(** [Attribute]: the name and the value of a keyword argument. *)
Definition Attribute : Type := string * Tree.

(** Statements: TK_IF, TK_WHILE, TK_ASSIGN, and any other tree, which
    [emitStatements] lowers as an expression statement. *)
Inductive Stmt : Type :=
| If (cond : Tree) (trueBranch falseBranch : list Stmt)
| While (cond : Tree) (body : list Stmt)
| Assign (idents : list string) (reduction : Kind) (rhs : Tree)
| ExprStmt (e : Tree).

Record Def : Type := Build_Def {
  def_name : string;
  params : list string;
  returns : list string;
  statements : list Stmt
}.

(** ** The target messages (caffe2.proto: NetDef, OperatorDef, Argument) *)

Inductive NetDef : Type :=
  Build_NetDef (name : string) (op : list OperatorDef)
with OperatorDef : Type :=
  Build_OperatorDef (type : string) (input output : list string)
                    (arg : list Argument)
with Argument : Type :=
  Build_Argument (name : string) (f : option float32) (i : option Z)
                 (floats : list float32) (ints : list Z) (n : option NetDef).

Definition net_name (nd : NetDef) : string :=
  match nd with Build_NetDef name _ => name end.
Definition net_op (nd : NetDef) : list OperatorDef :=
  match nd with Build_NetDef _ op => op end.

Definition op_type (o : OperatorDef) : string :=
  match o with Build_OperatorDef type _ _ _ => type end.
Definition op_input (o : OperatorDef) : list string :=
  match o with Build_OperatorDef _ input _ _ => input end.
Definition op_output (o : OperatorDef) : list string :=
  match o with Build_OperatorDef _ _ output _ => output end.
Definition op_arg (o : OperatorDef) : list Argument :=
  match o with Build_OperatorDef _ _ _ arg => arg end.

Definition arg_name (a : Argument) : string :=
  match a with Build_Argument name _ _ _ _ _ => name end.
Definition arg_f (a : Argument) : option float32 :=
  match a with Build_Argument _ f _ _ _ _ => f end.
Definition arg_i (a : Argument) : option Z :=
  match a with Build_Argument _ _ i _ _ _ => i end.
Definition arg_floats (a : Argument) : list float32 :=
  match a with Build_Argument _ _ _ floats _ _ => floats end.
Definition arg_ints (a : Argument) : list Z :=
  match a with Build_Argument _ _ _ _ ints _ => ints end.
Definition arg_n (a : Argument) : option NetDef :=
  match a with Build_Argument _ _ _ _ _ n => n end.

#[local] Set Elimination Schemes.

(** Freshly constructed (default) messages. *)
Definition NetDef_new : NetDef := Build_NetDef "" [].
Definition OperatorDef_new : OperatorDef := Build_OperatorDef "" [] [] [].
Definition Argument_new : Argument := Build_Argument "" None None [] [] None.

(** The generated setters, as functions on the message. *)
Definition net_set_name (s : string) (nd : NetDef) : NetDef :=
  Build_NetDef s (net_op nd).
Definition net_set_op (ops : list OperatorDef) (nd : NetDef) : NetDef :=
  Build_NetDef (net_name nd) ops.

Definition op_set_type (s : string) (o : OperatorDef) : OperatorDef :=
  Build_OperatorDef s (op_input o) (op_output o) (op_arg o).
Definition op_add_input (v : string) (o : OperatorDef) : OperatorDef :=
  Build_OperatorDef (op_type o) (op_input o ++ [v]) (op_output o) (op_arg o).
Definition op_add_output (v : string) (o : OperatorDef) : OperatorDef :=
  Build_OperatorDef (op_type o) (op_input o) (op_output o ++ [v]) (op_arg o).
Definition op_set_output (k : nat) (v : string) (o : OperatorDef) : OperatorDef :=
  Build_OperatorDef (op_type o) (op_input o) (<[k:=v]> (op_output o)) (op_arg o).
Definition op_clear_output (o : OperatorDef) : OperatorDef :=
  Build_OperatorDef (op_type o) (op_input o) [] (op_arg o).
Definition op_set_arg (args : list Argument) (o : OperatorDef) : OperatorDef :=
  Build_OperatorDef (op_type o) (op_input o) (op_output o) args.

Definition arg_set_name (s : string) (a : Argument) : Argument :=
  Build_Argument s (arg_f a) (arg_i a) (arg_floats a) (arg_ints a) (arg_n a).
Definition arg_set_f (v : float32) (a : Argument) : Argument :=
  Build_Argument (arg_name a) (Some v) (arg_i a) (arg_floats a) (arg_ints a) (arg_n a).
Definition arg_set_i (v : Z) (a : Argument) : Argument :=
  Build_Argument (arg_name a) (arg_f a) (Some v) (arg_floats a) (arg_ints a) (arg_n a).
Definition arg_add_floats (v : float32) (a : Argument) : Argument :=
  Build_Argument (arg_name a) (arg_f a) (arg_i a) (arg_floats a ++ [v]) (arg_ints a) (arg_n a).
Definition arg_add_ints (v : Z) (a : Argument) : Argument :=
  Build_Argument (arg_name a) (arg_f a) (arg_i a) (arg_floats a) (arg_ints a ++ [v]) (arg_n a).
Definition arg_set_n (nd : NetDef) (a : Argument) : Argument :=
  Build_Argument (arg_name a) (arg_f a) (arg_i a) (arg_floats a) (arg_ints a) (Some nd).

(** The values of TensorProto_DataType that the compiler stores through
    [set_i] (numbers as in caffe2.proto). *)
Definition TensorProto_DataType_FLOAT : Z := 1.
Definition TensorProto_DataType_INT32 : Z := 2.
Definition TensorProto_DataType_BOOL : Z := 5.
Definition TensorProto_DataType_INT64 : Z := 10.

(** ** Errors *)

(** One constructor per [throw] of the file, named as in the design's error
    taxonomy; the comment gives the message of the source. *)
Inductive Error : Type :=
| UnboundIdentifier (name : string)       (* "undefined value " name *)
| MultiTargetReductionError               (* "reductions are only allow when ..." *)
| IntrinsicArityError (builtin : string)  (* "accepts 0 or 1 inputs", "requires ..." *)
| UnrecognizedAttribute (name : string)   (* "Unrecognized attribute " name *)
| UnsupportedAttribute                    (* a literal accessor on another tree *)
| MalformedLiteral (type_ident : string)  (* "unknown type_ident " type_ident *)
| UnknownType (type : Kind)               (* "expected type token: " type *)
| UnknownKind (kind : Kind)               (* "unknown kind " kind *)
| UnsupportedConstruct                    (* "NYI: " tree *)
| IndexOutOfRange                         (* a list view indexed past its end *)
| DuplicateDefinition (name : string)     (* name " already defined." *)
| UndefinedFunction (name : string).      (* "undefined function: " name *)

(** ** The compiler object *)

(** [net_def_stack] holds pointers into one tree of messages: its first
    element is the function's net and each further element is the net of an
    argument of an operator of the element before it.  The stack is kept as a
    zipper: [cur] is [*net_def_stack.back()], and [enclosing] lists the nets
    below it, innermost first, each with the place (operator index, argument
    index) where the net above it lives.  A net under construction is written
    back to that place when it is popped; [top_net] below gives the whole
    message at any moment. *)
Record Frame : Type := Build_Frame {
  frame_net : NetDef;
  frame_op : nat;
  frame_arg : nat
}.

Record DefCompiler : Type := Build_DefCompiler {
  env : gmap string string;   (* map from name in Def to name in NetDef *)
  cur : NetDef;
  enclosing : list Frame;
  next_fresh : nat            (* int in the source, counting up from 0;
                                 its overflow is not modelled *)
}.

Definition set_env (e : gmap string string) (c : DefCompiler) : DefCompiler :=
  Build_DefCompiler e (cur c) (enclosing c) (next_fresh c).
Definition set_cur (nd : NetDef) (c : DefCompiler) : DefCompiler :=
  Build_DefCompiler (env c) nd (enclosing c) (next_fresh c).

(** Writing a finished sub-net to its place in the enclosing net. *)
Definition store_net (fr : Frame) (nd : NetDef) : NetDef :=
  net_set_op
    (alter (fun o => op_set_arg (alter (arg_set_n nd) (frame_arg fr) (op_arg o)) o)
           (frame_op fr) (net_op (frame_net fr)))
    (frame_net fr).

(** The function's net as it stands: every net of the stack written to its
    place. *)
Fixpoint close_stack (nd : NetDef) (frames : list Frame) : NetDef :=
  match frames with
  | [] => nd
  | fr :: frames' => close_stack (store_net fr nd) frames'
  end.

Definition top_net (c : DefCompiler) : NetDef := close_stack (cur c) (enclosing c).

(** ** The monad of compiler methods *)

Inductive result (A : Type) : Type :=
| Ok (a : A) (c : DefCompiler)
| Throw (e : Error) (c : DefCompiler).
Arguments Ok {A} a c.
Arguments Throw {A} e c.

Definition M (A : Type) : Type := DefCompiler -> result A.

#[global] Instance M_ret : MRet M := fun A a c => Ok a c.
#[global] Instance M_bind : MBind M := fun A B k m c =>
  match m c with
  | Ok a c' => k a c'
  | Throw e c' => Throw e c'
  end.

Definition throw {A : Type} (e : Error) : M A := fun c => Throw e c.
Definition get : M DefCompiler := fun c => Ok c c.
Definition modify (g : DefCompiler -> DefCompiler) : M unit := fun c => Ok tt (g c).

Definition state_of {A : Type} (r : result A) : DefCompiler :=
  match r with Ok _ c => c | Throw _ c => c end.

Definition returned {A : Type} (r : result A) : bool :=
  match r with Ok _ _ => true | Throw _ _ => false end.

(** ** Pointers into the current net

    An [OperatorDef*] obtained from [cur().add_op()] is the index of the
    operator in [cur()]; an [Argument*] obtained from [op->add_arg()] is the
    operator's index with the argument's index.  Every use of such a pointer
    in the source happens while the net it points into is [cur()]. *)
Definition OpPtr : Type := nat.
Definition ArgPtr : Type := (nat * nat)%type.

Definition add_op : M OpPtr := fun c =>
  Ok (length (net_op (cur c)))
     (set_cur (net_set_op (net_op (cur c) ++ [OperatorDef_new]) (cur c)) c).

Definition op_update (op : OpPtr) (g : OperatorDef -> OperatorDef) : M unit :=
  modify (fun c => set_cur (net_set_op (alter g op (net_op (cur c))) (cur c)) c).

Definition arg_update (a : ArgPtr) (g : Argument -> Argument) : M unit :=
  op_update (fst a) (fun o => op_set_arg (alter g (snd a) (op_arg o)) o).

Definition set_type (op : OpPtr) (s : string) : M unit := op_update op (op_set_type s).
Definition add_input (op : OpPtr) (v : string) : M unit := op_update op (op_add_input v).
Definition add_output (op : OpPtr) (v : string) : M unit := op_update op (op_add_output v).
Definition set_output (op : OpPtr) (k : nat) (v : string) : M unit :=
  op_update op (op_set_output k v).
Definition clear_output (op : OpPtr) : M unit := op_update op op_clear_output.

(** The source dereferences a pointer only while the operator it points to
    exists, and calls [set_output(i, ...)] and [output(i)] only with [i]
    below [output_size()].  Outside of that, where protobuf leaves the
    behaviour undefined, the list updates do nothing and the reads give the
    default message or the empty string. *)
Definition the_op (op : OpPtr) (c : DefCompiler) : OperatorDef :=
  default OperatorDef_new (net_op (cur c) !! op).

Definition output_size (op : OpPtr) : M nat :=
  c ← get; mret (length (op_output (the_op op c))).
Definition output (op : OpPtr) (k : nat) : M string :=
  c ← get; mret (default "" (op_output (the_op op c) !! k)).

Definition add_arg (op : OpPtr) : M ArgPtr :=
  c ← get;
  op_update op (fun o => op_set_arg (op_arg o ++ [Argument_new]) o);;
  mret (op, length (op_arg (the_op op c))).

Definition set_name (a : ArgPtr) (s : string) : M unit := arg_update a (arg_set_name s).
Definition set_f (a : ArgPtr) (v : float32) : M unit := arg_update a (arg_set_f v).
Definition set_i (a : ArgPtr) (v : Z) : M unit := arg_update a (arg_set_i v).
Definition add_floats (a : ArgPtr) (v : float32) : M unit :=
  arg_update a (arg_add_floats v).
Definition add_ints (a : ArgPtr) (v : Z) : M unit := arg_update a (arg_add_ints v).

(** [arg->mutable_n()]: the argument's net, created empty when absent. *)
Definition mutable_n (a : ArgPtr) : M ArgPtr :=
  arg_update a (fun x => match arg_n x with
                         | Some _ => x
                         | None => arg_set_n NetDef_new x
                         end);;
  mret a.

Definition the_net (nd : ArgPtr) (c : DefCompiler) : NetDef :=
  default NetDef_new
    (arg_n (default Argument_new (op_arg (the_op (fst nd) c) !! snd nd))).

(** [net_def_stack.push_back(nd)] and [net_def_stack.pop_back()].  The
    source pops only what it has pushed; popping the function's own net,
    which would leave the stack empty, is left without effect. *)
Definition push_back (nd : ArgPtr) : M unit :=
  modify (fun c =>
    Build_DefCompiler (env c) (the_net nd c)
      (Build_Frame (cur c) (fst nd) (snd nd) :: enclosing c) (next_fresh c)).

Definition pop_back : M unit :=
  modify (fun c =>
    match enclosing c with
    | fr :: frames => Build_DefCompiler (env c) (store_net fr (cur c)) frames (next_fresh c)
    | [] => c
    end).

(** ** DefCompiler *)

Definition to_string (k : nat) : string := NilEmpty.string_of_uint (Nat.to_uint k).

Definition fresh_name (k : nat) : string := "$t" +:+ to_string k.

(** [fresh()]: "$t" followed by the counter, which is then incremented. *)
Definition fresh : M string := fun c =>
  Ok (fresh_name (next_fresh c))
     (Build_DefCompiler (env c) (cur c) (enclosing c) (S (next_fresh c))).

(** [map(name, value)]: [env[name] = value]. *)
Definition map (name value : string) : M unit :=
  modify (fun c => set_env (<[name:=value]> (env c)) c).

Definition lookup (ident : string) : M string :=
  c ← get;
  match env c !! ident with
  | None => throw (UnboundIdentifier ident)
  | Some value => mret value
  end.

Definition operatorName (kind : Kind) (ninputs : nat) : M string :=
  match kind with
  | K_plus => mret "Add"
  | K_minus => if decide (ninputs = 1) then mret "Negative" else mret "Sub"
  | K_star => mret "Mul"
  | K_slash => mret "Div"
  | TK_NE => mret "NE"
  | TK_EQ => mret "EQ"
  | K_lt => mret "LT"
  | K_gt => mret "GT"
  | TK_LE => mret "LE"
  | TK_GE => mret "GE"
  | TK_IF_EXPR => mret "Conditional"
  | TK_AND => mret "And"
  | TK_OR => mret "Or"
  | TK_NOT => mret "Not"
  | _ => throw (UnknownKind kind)
  end.

Definition getType (type : Kind) : M Z :=
  match type with
  | TK_INT => mret TensorProto_DataType_INT32
  | TK_FLOAT => mret TensorProto_DataType_FLOAT
  | TK_LONG => mret TensorProto_DataType_INT64
  | TK_BOOL => mret TensorProto_DataType_BOOL
  | _ => throw (UnknownType type)
  end.

(** Modelled from the spec: the accessors [tree(0)->doubleValue()] and
    [tree(1)->stringValue()] of the parser's trees are not part of this file;
    on a tree that is not a numeric literal they raise, and the design names
    the rejection of such an attribute value UnsupportedAttribute. *)
Definition constValue (t : Tree) : M (float * string) :=
  match t with
  | Const v type_ident => mret (v, type_ident)
  | _ => throw UnsupportedAttribute
  end.

Fixpoint fillArg_list (arg : ArgPtr) (trees : list Tree) : M unit :=
  match trees with
  | [] => mret tt
  | t :: trees' =>
      '(v, f) ← constValue t;
      (if decide (f = "f") then add_floats arg (double_to_float v)
       else add_ints arg (double_to_int64 v));;
      fillArg_list arg trees'
  end.

Definition fillArg (arg : ArgPtr) (attr : Attribute) : M unit :=
  let name := fst attr in
  set_name arg name;;
  let value := snd attr in
  match value with
  | Const v f =>
      if decide (f = "f") then set_f arg (double_to_float v)
      else set_i arg (double_to_int64 v)
  | Compound TK_LIST trees => fillArg_list arg trees
  | _ => mret tt
  end.

Definition emitConst (v : float) (output : string) (type_ident : string)
    : M OpPtr :=
  op ← add_op;
  set_type op "ConstantFill";;
  dtype ← add_arg op;
  set_name dtype "dtype";;
  value ← add_arg op;
  set_name value "value";;
  (if decide (type_ident = "f") then
     set_i dtype TensorProto_DataType_FLOAT;;
     set_f value (double_to_float v)
   else if decide (type_ident = "LL") then
     set_i dtype TensorProto_DataType_INT64;;
     set_i value (double_to_int64 v)
   else if decide (type_ident = "b") then
     set_i dtype TensorProto_DataType_BOOL;;
     set_i value (if double_nonzero v then 1%Z else 0%Z)
   else if decide (type_ident = "i") then
     set_i dtype TensorProto_DataType_INT32;;
     set_i value (double_to_int64 v)
   else
     throw (MalformedLiteral type_ident));;
  shape ← add_arg op;
  set_name shape "shape";;
  add_ints shape 1%Z;;
  add_output op output;;
  mret op.

(** [for (auto& v : values) op->add_input(v);] *)
Definition add_inputs (op : OpPtr) (values : list string) : M unit :=
  foldr (fun v k => add_input op v;; k) (mret tt) values.

(** [for (auto attribute : attributes) fillArg(op->add_arg(), attribute);] *)
Definition fill_args (op : OpPtr) (attributes : list Attribute) : M unit :=
  foldr (fun attribute k => a ← add_arg op; fillArg a attribute;; k)
        (mret tt) attributes.

(** [getValue] and [getValues] call [emit], and [emit] calls them on the
    children of its tree: they take [emit] as a parameter until it is
    defined. *)
Definition getValue_ (emit : Tree -> M OpPtr) (tree : Tree) : M string :=
  match tree with
  | Ident name => lookup name
  | _ => op ← emit tree; output op 0
  end.

Definition getValues_ (emit : Tree -> M OpPtr) : list Tree -> M (list string) :=
  fix go (trees : list Tree) : M (list string) :=
    match trees with
    | [] => mret []
    | tree :: trees' =>
        v ← getValue_ emit tree;
        result ← go trees';
        mret (v :: result)
    end.

(** [builtins.count(name) > 0]: the four names all map to [emitFillOp]. *)
Definition builtins : list string := ["zeros"; "zeros_like"; "ones"; "ones_like"].

Definition is_builtin (name : string) : bool := bool_decide (name ∈ builtins).

(** [s.find(sub) != std::string::npos] *)
Fixpoint contains (s sub : string) : bool :=
  String.prefix sub s ||
  match s with
  | EmptyString => false
  | String _ s' => contains s' sub
  end.

(** The loop of [emitFillOp] over the attributes. *)
Fixpoint check_shape_only (builtin_type : string) (attributes : list Attribute)
    (has_shape : bool) : M bool :=
  match attributes with
  | [] => mret has_shape
  | attribute :: attributes' =>
      if decide (fst attribute = "shape") then
        check_shape_only builtin_type attributes' true
      else throw (UnrecognizedAttribute (fst attribute))
  end.

Definition emitFillOp_ (emit : Tree -> M OpPtr) (name : string)
    (inputs : list Tree) (attributes : list Attribute) : M OpPtr :=
  let builtin_type := name in
  values ← getValues_ emit inputs;
  (if decide (1 < length values)
   then throw (IntrinsicArityError builtin_type)
   else mret tt : M unit);;
  has_shape ← check_shape_only builtin_type attributes false;
  (if decide (builtin_type = "zeros" ∨ builtin_type = "ones") then
     if decide (length values ≠ 1 ∧ has_shape = false)
     then throw (IntrinsicArityError builtin_type)
     else mret tt
   else
     (* zeros_like or ones_like *)
     if decide (length values ≠ 1)
     then throw (IntrinsicArityError builtin_type)
     else mret tt : M unit);;
  op ← add_op;
  set_type op "ConstantFill";;
  (match values with
   | value0 :: _ =>
       add_input op value0;;
       input_as_shape ← add_arg op;
       set_name input_as_shape "input_as_shape";;
       if contains builtin_type "_like" then
         (* zeros_like, ones_like take the shape of the input as constant
            tensor shape *)
         set_i input_as_shape 0%Z
       else
         (* zeros, ones take the values in the tensor as constant tensor
            shape *)
         set_i input_as_shape 1%Z
   | [] =>
       a ← add_arg op;
       match attributes with
       | attribute0 :: _ => fillArg a attribute0
       | [] => throw IndexOutOfRange
       end
   end : M unit);;
  value ← add_arg op;
  set_name value "value";;
  (if contains builtin_type "ones" then set_f value 1%float
   else set_f value 0%float);;
  t ← fresh;
  add_output op t;;
  mret op.

Fixpoint emit (tree : Tree) : M OpPtr :=
  match tree with
  | Ident name =>
      op ← add_op;
      set_type op "Copy";;
      v ← lookup name;
      add_input op v;;
      t ← fresh;
      add_output op t;;
      mret op
  | Compound kind trees =>
      match kind with
      | TK_NE | TK_EQ | K_lt | K_gt | TK_LE | TK_GE
      | K_minus | K_star | K_slash | K_plus
      | TK_AND | TK_OR | TK_NOT | TK_IF_EXPR =>
          (* must be before add_op *)
          values ← getValues_ emit trees;
          op ← add_op;
          type ← operatorName kind (length trees);
          set_type op type;;
          add_inputs op values;;
          t ← fresh;
          add_output op t;;
          broadcast ← add_arg op;
          set_name broadcast "broadcast";;
          set_i broadcast 1%Z;;
          mret op
      | _ => throw UnsupportedConstruct
      end
  | Apply name inputs attributes =>
      (* Handle built-ins like zeros, ones, etc *)
      if is_builtin name then emitFillOp_ emit name inputs attributes
      else
        (* must be before add_op *)
        values ← getValues_ emit inputs;
        op ← add_op;
        set_type op name;;
        add_inputs op values;;
        (* assume 1 output unless matched to more *)
        t ← fresh;
        add_output op t;;
        fill_args op attributes;;
        mret op
  | Cast type input =>
      c2type ← getType type;
      input ← getValue_ emit input;
      op ← add_op;
      set_type op "Cast";;
      add_input op input;;
      t ← fresh;
      add_output op t;;
      arg ← add_arg op;
      set_name arg "to";;
      set_i arg c2type;;
      mret op
  | Const v type_ident =>
      t ← fresh;
      emitConst v t type_ident
  end.

Definition getValue : Tree -> M string := getValue_ emit.
Definition getValues : list Tree -> M (list string) := getValues_ emit.
Definition emitFillOp : string -> list Tree -> list Attribute -> M OpPtr :=
  emitFillOp_ emit.

Definition emitExpressionStatement (stmt : Tree) : M unit :=
  (* expression with no used outputs *)
  r ← emit stmt;
  (* remove the implicit single output *)
  clear_output r.

(** [while (op->output_size() < n) op->add_output();] adds exactly the
    missing number of empty outputs. *)
Definition widen_outputs (op : OpPtr) (n : nat) : M unit :=
  size ← output_size op;
  foldr (fun _ k => add_output op "";; k) (mret tt) (replicate (n - size) tt).

(** The loop of [emitAssignment] over the targets, [i] counting them. *)
Fixpoint bind_targets (op : OpPtr) (idents : list string) (i : nat) : M unit :=
  match idents with
  | [] => mret tt
  | ident :: idents' =>
      (* use of "_" gets renamed in Caffe2 graphs so that two uses
         don't unintentionally interfere with each other *)
      name ← (if decide (ident = "_") then fresh else mret ident);
      set_output op i name;;
      map ident name;;
      bind_targets op idents' (S i)
  end.

Definition emitAssignment (idents : list string) (reduction : Kind) (rhs : Tree)
    : M unit :=
  op ← (if decide (reduction ≠ K_assign) then
          (if decide (length idents ≠ 1) then throw MultiTargetReductionError
           else mret tt : M unit);;
          match idents with
          | lhs :: _ =>
              let expr := Compound reduction [Ident lhs; rhs] in
              emit expr
          | [] => throw IndexOutOfRange
          end
        else emit rhs);
  widen_outputs op (length idents);;
  bind_targets op idents 0.

Definition emitIf_ (emitStatements : list Stmt -> M unit)
    (cond : Tree) (trueBranch falseBranch : list Stmt) : M unit :=
  cond ← getValue cond;
  op ← add_op;
  set_type op "If";;
  add_input op cond;;
  true_branch ← add_arg op;
  set_name true_branch "then_net";;
  nd ← mutable_n true_branch;
  push_back nd;;
  emitStatements trueBranch;;
  pop_back;;
  if decide (0 < length falseBranch) then
    false_branch ← add_arg op;
    set_name false_branch "else_net";;
    nd ← mutable_n false_branch;
    push_back nd;;
    emitStatements falseBranch;;
    pop_back
  else mret tt.

Definition emitWhile_ (emitStatements : list Stmt -> M unit)
    (cond : Tree) (body : list Stmt) : M unit :=
  loop_var ← fresh;
  emitConst 0 loop_var "i";; (* it needs a definition before loop *)
  op ← add_op;
  set_type op "While";;
  cond_arg ← add_arg op;
  set_name cond_arg "cond_net";;
  cond_net ← mutable_n cond_arg;

  push_back cond_net;;
  cond_op ← emit cond;
  set_output cond_op 0 loop_var;;
  pop_back;;

  add_input op loop_var;;
  body_arg ← add_arg op;
  set_name body_arg "loop_net";;
  body_net ← mutable_n body_arg;

  push_back body_net;;
  emitStatements body;;
  pop_back.

Definition emitStatements_ (emitStatement : Stmt -> M unit)
    : list Stmt -> M unit :=
  fix go (statements : list Stmt) : M unit :=
    match statements with
    | [] => mret tt
    | stmt :: statements' => emitStatement stmt;; go statements'
    end.

(** The body of the loop of [emitStatements]: the switch on the kind. *)
Fixpoint emitStatement (stmt : Stmt) : M unit :=
  match stmt with
  | If cond trueBranch falseBranch =>
      emitIf_ (emitStatements_ emitStatement) cond trueBranch falseBranch
  | While cond body =>
      emitWhile_ (emitStatements_ emitStatement) cond body
  | Assign idents reduction rhs => emitAssignment idents reduction rhs
  | ExprStmt e => emitExpressionStatement e
  end.

Definition emitStatements : list Stmt -> M unit := emitStatements_ emitStatement.
Definition emitIf : Tree -> list Stmt -> list Stmt -> M unit := emitIf_ emitStatements.
Definition emitWhile : Tree -> list Stmt -> M unit := emitWhile_ emitStatements.

Definition set_net_name (s : string) : M unit :=
  modify (fun c => set_cur (net_set_name s (cur c)) c).

(** [for (auto x : names) map(x, x);] *)
Definition map_names (names : list string) : M unit :=
  foldr (fun name k => map name name;; k) (mret tt) names.

Definition run (def : Def) : M unit :=
  set_net_name (def_name def);;
  map_names (params def);;
  map_names (returns def);;
  emitStatements (statements def).

(** [DefCompiler(def, net_def)]: an empty environment, the stack holding
    the one net, the counter at 0. *)
Definition DefCompiler_new (net_def : NetDef) : DefCompiler :=
  Build_DefCompiler ∅ net_def [] 0.

(** ** CompilationUnitImpl *)

Record CompilationUnitImpl : Type := Build_CompilationUnitImpl {
  functions : gmap string NetDef
}.

Inductive outcome : Type :=
| Returned (u : CompilationUnitImpl)
| Raised (e : Error) (u : CompilationUnitImpl).

Definition unit_of (r : outcome) : CompilationUnitImpl :=
  match r with Returned u => u | Raised _ u => u end.

(** [defineFunction]: the entry is emplaced first and the compiler works on
    the emplaced net through a reference, so whatever the compiler has
    written is in the registry, also when [run] raises. *)
Definition defineFunction (def : Def) (u : CompilationUnitImpl) : outcome :=
  if decide (is_Some (functions u !! def_name def)) then
    Raised (DuplicateDefinition (def_name def)) u
  else
    match run def (DefCompiler_new NetDef_new) with
    | Ok _ c =>
        Returned (Build_CompilationUnitImpl
                    (<[def_name def := top_net c]> (functions u)))
    | Throw e c =>
        Raised e (Build_CompilationUnitImpl
                    (<[def_name def := top_net c]> (functions u)))
    end.

(** [define], over the definitions the parser yields in turn. *)
Fixpoint define (defs : list Def) (u : CompilationUnitImpl) : outcome :=
  match defs with
  | [] => Returned u
  | def :: defs' =>
      match defineFunction def u with
      | Returned u' => define defs' u'
      | Raised e u' => Raised e u'
      end
  end.

(** [define] with its parser.  Modelled from the spec: the lexer and the
    parser are external collaborators and not part of this file.  At each
    turn of the loop of [define], while the text is not at its end,
    [p.parseFunction()] hands over a function definition or raises an
    exception of the parser's own; what it does depends on the text alone, so
    the text is given here as the outcomes of these calls in order.  An
    exception of the constructor [Parser p(str)] is a first outcome that
    raises.  [define] above is the case where every call hands over a
    function. *)
Inductive Parsed : Type :=
| Parsed_function (def : Def)
| Parser_raises.

Inductive define_outcome : Type :=
| Define_returned (u : CompilationUnitImpl)
| Define_raised (e : Error) (u : CompilationUnitImpl)
| Define_parser_raised (u : CompilationUnitImpl).

Fixpoint define_str (str : list Parsed) (u : CompilationUnitImpl)
    : define_outcome :=
  match str with
  | [] => Define_returned u
  | Parser_raises :: _ => Define_parser_raised u
  | Parsed_function def :: str' =>
      match defineFunction def u with
      | Returned u' => define_str str' u'
      | Raised e u' => Define_raised e u'
      end
  end.

(** [createNet], up to the call of the engine's [CreateNet]. *)
Definition createNet (str : string) (u : CompilationUnitImpl) : Error + NetDef :=
  match functions u !! str with
  | None => inl (UndefinedFunction str)
  | Some net_def => inr net_def
  end.

(** * Vocabulary of the statements

    The definitions the lemmas and theorems below are stated with: the
    induction schemes of the two tree types, the tails of [emit] and
    [emitFillOp] after the operands are lowered, and the shapes of what
    lowering appends. *)

(** ** Induction over trees and statements *)

Section Tree_induction.
Variable P : Tree -> Prop.
Hypothesis HIdent : forall name, P (Ident name).
Hypothesis HConst : forall v type_ident, P (Const v type_ident).
Hypothesis HApply : forall name inputs attributes,
    Forall P inputs -> P (Apply name inputs attributes).
Hypothesis HCast : forall type input, P input -> P (Cast type input).
Hypothesis HCompound : forall kind trees, Forall P trees -> P (Compound kind trees).

Fixpoint Tree_ind' (t : Tree) : P t :=
  match t with
  | Ident name => HIdent name
  | Const v type_ident => HConst v type_ident
  | Apply name inputs attributes =>
      HApply name inputs attributes
        ((fix go (l : list Tree) : Forall P l :=
            match l with
            | [] => @List.Forall_nil _ P
            | t' :: l' => @List.Forall_cons _ P t' l' (Tree_ind' t') (go l')
            end) inputs)
  | Cast type input => HCast type input (Tree_ind' input)
  | Compound kind trees =>
      HCompound kind trees
        ((fix go (l : list Tree) : Forall P l :=
            match l with
            | [] => @List.Forall_nil _ P
            | t' :: l' => @List.Forall_cons _ P t' l' (Tree_ind' t') (go l')
            end) trees)
  end.
End Tree_induction.

Section Stmt_induction.
Variable P : Stmt -> Prop.
Hypothesis HIf : forall cond trueBranch falseBranch,
    Forall P trueBranch -> Forall P falseBranch ->
    P (If cond trueBranch falseBranch).
Hypothesis HWhile : forall cond body, Forall P body -> P (While cond body).
Hypothesis HAssign : forall idents reduction rhs, P (Assign idents reduction rhs).
Hypothesis HExprStmt : forall e, P (ExprStmt e).

Fixpoint Stmt_ind' (s : Stmt) : P s :=
  let all := fix go (l : list Stmt) : Forall P l :=
               match l with
               | [] => @List.Forall_nil _ P
               | s' :: l' => @List.Forall_cons _ P s' l' (Stmt_ind' s') (go l')
               end in
  match s with
  | If cond trueBranch falseBranch =>
      HIf cond trueBranch falseBranch (all trueBranch) (all falseBranch)
  | While cond body => HWhile cond body (all body)
  | Assign idents reduction rhs => HAssign idents reduction rhs
  | ExprStmt e => HExprStmt e
  end.
End Stmt_induction.

(** ** Expressions *)

(** An argument that holds no net, and an operator none of whose
    arguments does. *)
Definition no_net (a : Argument) : Prop := arg_n a = None.
Definition no_nets (o : OperatorDef) : Prop := Forall no_net (op_arg o).

(** The operation [emitConst] appends for a literal of one of the types it
    knows: the dtype argument, the value argument and the shape [1]. *)
Definition const_op (v : float) (output type_ident : string) : OperatorDef :=
  Build_OperatorDef "ConstantFill" [] [output]
    [ Build_Argument "dtype" None
        (Some (if decide (type_ident = "f") then TensorProto_DataType_FLOAT
               else if decide (type_ident = "LL") then TensorProto_DataType_INT64
               else if decide (type_ident = "b") then TensorProto_DataType_BOOL
               else TensorProto_DataType_INT32)) [] [] None;
      Build_Argument "value"
        (if decide (type_ident = "f") then Some (double_to_float v) else None)
        (if decide (type_ident = "f") then None
         else if decide (type_ident = "b")
              then Some (if double_nonzero v then 1%Z else 0%Z)
              else Some (double_to_int64 v)) [] [] None;
      Build_Argument "shape" None None [] [1%Z] None ].

Definition known_type_ident (type_ident : string) : Prop :=
  type_ident = "f" \/ type_ident = "LL" \/ type_ident = "b" \/ type_ident = "i".

#[global] Instance known_type_ident_dec type_ident :
  Decision (known_type_ident type_ident).
Proof. unfold known_type_ident. apply _. Defined.

(** The kinds of the operator case of [emit]. *)
Definition is_operator (kind : Kind) : bool :=
  match kind with
  | TK_NE | TK_EQ | K_lt | K_gt | TK_LE | TK_GE
  | K_minus | K_star | K_slash | K_plus
  | TK_AND | TK_OR | TK_NOT | TK_IF_EXPR => true
  | _ => false
  end.

(** The operator case of [emit] once the values of the operands are known. *)
Definition emitOperator (kind : Kind) (ninputs : nat) (values : list string)
    : M OpPtr :=
  op ← add_op;
  type ← operatorName kind ninputs;
  set_type op type;;
  add_inputs op values;;
  t ← fresh;
  add_output op t;;
  broadcast ← add_arg op;
  set_name broadcast "broadcast";;
  set_i broadcast 1%Z;;
  mret op.

(** The name [operatorName] returns where it returns one. *)
Definition operator_type (kind : Kind) (ninputs : nat) : string :=
  match operatorName kind ninputs (DefCompiler_new NetDef_new) with
  | Ok s _ => s
  | Throw _ _ => ""
  end.

Definition broadcast_arg : Argument :=
  Build_Argument "broadcast" None (Some 1%Z) [] [] None.

(** The generic call once the values of the operands are known. *)
Definition emitCall (name : string) (values : list string)
    (attributes : list Attribute) : M OpPtr :=
  op ← add_op;
  set_type op name;;
  add_inputs op values;;
  t ← fresh;
  add_output op t;;
  fill_args op attributes;;
  mret op.

(** [emitFillOp] once the values of the operands are known. *)
Definition emitFill (builtin_type : string) (values : list string)
    (attributes : list Attribute) : M OpPtr :=
  (if decide (1 < length values)
   then throw (IntrinsicArityError builtin_type)
   else mret tt : M unit);;
  has_shape ← check_shape_only builtin_type attributes false;
  (if decide (builtin_type = "zeros" ∨ builtin_type = "ones") then
     if decide (length values ≠ 1 ∧ has_shape = false)
     then throw (IntrinsicArityError builtin_type)
     else mret tt
   else
     if decide (length values ≠ 1)
     then throw (IntrinsicArityError builtin_type)
     else mret tt : M unit);;
  op ← add_op;
  set_type op "ConstantFill";;
  (match values with
   | value0 :: _ =>
       add_input op value0;;
       input_as_shape ← add_arg op;
       set_name input_as_shape "input_as_shape";;
       if contains builtin_type "_like" then set_i input_as_shape 0%Z
       else set_i input_as_shape 1%Z
   | [] =>
       a ← add_arg op;
       match attributes with
       | attribute0 :: _ => fillArg a attribute0
       | [] => throw IndexOutOfRange
       end
   end : M unit);;
  value ← add_arg op;
  set_name value "value";;
  (if contains builtin_type "ones" then set_f value 1%float
   else set_f value 0%float);;
  t ← fresh;
  add_output op t;;
  mret op.

Definition nonempty {A : Type} (l : list A) : bool :=
  match l with [] => false | _ => true end.

(** Operators as the lowering of an expression appends them: each has one
    output, the next fresh name from [n] on, and no argument holding a
    net. *)
Fixpoint flat_fresh (n : nat) (ops : list OperatorDef) : Prop :=
  match ops with
  | [] => True
  | o :: ops' => op_output o = [fresh_name n] /\ no_nets o /\ flat_fresh (S n) ops'
  end.

(** [c'] is the compiler object with environment [e], current net [nm]
    with operators [ops] and counter [n], after [new] was appended. *)
Definition appended (e : gmap string string) (nm : string)
    (ops : list OperatorDef) (fr : list Frame) (n : nat)
    (c' : DefCompiler) (new : list OperatorDef) : Prop :=
  c' = Build_DefCompiler e (Build_NetDef nm (ops ++ new)) fr (n + length new) /\
  flat_fresh n new.

Definition emit_spec (t : Tree) : Prop :=
  forall e nm ops fr n op c',
    emit t (Build_DefCompiler e (Build_NetDef nm ops) fr n) = Ok op c' ->
    exists new o,
      appended e nm ops fr n c' (new ++ [o]) /\ op = length ops + length new.

(** The compiler object once one more operator is in the current net and
    one fresh name is used up. *)
Definition emitted (c : DefCompiler) (o : OperatorDef) : DefCompiler :=
  Build_DefCompiler (env c)
    (Build_NetDef (net_name (cur c)) (net_op (cur c) ++ [o]))
    (enclosing c) (S (next_fresh c)).

(** A compiler object for the examples: [a] and [c] are parameters. *)
Definition c0 : DefCompiler :=
  Build_DefCompiler {["a" := "a"; "c" := "c"]} NetDef_new [] 0.

(** *** Keyword arguments *)

(** What [fillArg] writes into a new argument, where it returns. *)
Fixpoint encode_list (trees : list Tree) (a : Argument) : Argument :=
  match trees with
  | [] => a
  | Const v f :: trees' =>
      encode_list trees'
        (if decide (f = "f") then arg_add_floats (double_to_float v) a
         else arg_add_ints (double_to_int64 v) a)
  | _ :: trees' => encode_list trees' a
  end.

Definition encode (attr : Attribute) (a : Argument) : Argument :=
  match snd attr with
  | Const v f =>
      if decide (f = "f")
      then arg_set_f (double_to_float v) (arg_set_name (fst attr) a)
      else arg_set_i (double_to_int64 v) (arg_set_name (fst attr) a)
  | Compound TK_LIST trees => encode_list trees (arg_set_name (fst attr) a)
  | _ => arg_set_name (fst attr) a
  end.

Definition is_Const (t : Tree) : Prop :=
  match t with Const _ _ => True | _ => False end.

(** Every attribute value but a list with an element that is not a
    literal. *)
Definition literals_if_list (attr : Attribute) : Prop :=
  match snd attr with
  | Compound TK_LIST trees => Forall is_Const trees
  | _ => True
  end.

#[global] Instance is_Const_dec t : Decision (is_Const t).
Proof. destruct t; simpl; apply _. Defined.

#[global] Instance literals_if_list_dec attr : Decision (literals_if_list attr).
Proof.
  unfold literals_if_list.
  destruct (snd attr) as [x|v f|x ins ats|type input|kind trees]; try apply _.
  destruct kind; apply _.
Defined.

Definition named_shape (attr : Attribute) : Prop := fst attr = "shape".

(** ** Assignment *)

(** The output names [emitAssignment] gives to the targets, the fresh
    counter standing at [n] when the loop starts: the discard identifier gets
    the next fresh name, any other target its own name. *)
Fixpoint target_names (idents : list string) (n : nat) : list string :=
  match idents with
  | [] => []
  | ident :: idents' =>
      if decide (ident = "_") then fresh_name n :: target_names idents' (S n)
      else ident :: target_names idents' n
  end.

(** The environment after the loop. *)
Fixpoint bind_env (idents : list string) (n : nat) (e : gmap string string)
    : gmap string string :=
  match idents with
  | [] => e
  | ident :: idents' =>
      if decide (ident = "_") then bind_env idents' (S n) (<[ident:=fresh_name n]> e)
      else bind_env idents' n (<[ident:=ident]> e)
  end.

(** The number of fresh names the loop uses. *)
Fixpoint discards (idents : list string) : nat :=
  match idents with
  | [] => 0
  | ident :: idents' =>
      if decide (ident = "_") then S (discards idents') else discards idents'
  end.

(** The outputs of the operation of an assignment: one name per target, or
    the single output of the expression when there is no target. *)
Definition assigned_outputs (idents : list string) (t : string) (n : nat)
    : list string :=
  match idents with
  | [] => [t]
  | _ => target_names idents n
  end.

(** ** Control statements *)

(** An argument holding a net, as the control statements build it. *)
Definition net_arg (name : string) (ops : list OperatorDef) : Argument :=
  Build_Argument name None None [] [] (Some (Build_NetDef "" ops)).

(** The compiler object at the moment a nested net has been pushed: the
    current net is the new, empty net of argument [arg] of operator [op] of
    [parent]. *)
Definition pushed (e : gmap string string) (parent : NetDef) (op arg : nat)
    (fr : list Frame) (n : nat) : DefCompiler :=
  Build_DefCompiler e (Build_NetDef "" []) (Build_Frame parent op arg :: fr) n.

(** A lowering of statements that, where it returns, has appended to the
    current net and left the enclosing nets alone. *)
Definition runs_in_frame (es : list Stmt -> M unit) (stmts : list Stmt) : Prop :=
  forall e nm ops fr n c',
    es stmts (Build_DefCompiler e (Build_NetDef nm ops) fr n) = Ok tt c' ->
    exists e' new n',
      c' = Build_DefCompiler e' (Build_NetDef nm (ops ++ new)) fr n'.

(** Where the lowering of one statement returns, it has appended to the
    current net and left the enclosing nets alone. *)
Definition stmt_in_frame (s : Stmt) : Prop :=
  forall e nm ops fr n c',
    emitStatement s (Build_DefCompiler e (Build_NetDef nm ops) fr n) = Ok tt c' ->
    exists e' new n',
      c' = Build_DefCompiler e' (Build_NetDef nm (ops ++ new)) fr n'.

(** ** Programs of the examples *)

(** A function whose second statement refers to the unbound [x]. *)
Definition def_failing : Def :=
  Build_Def "f" ["a"] ["b"]
    [ Assign ["b"] K_assign (Const 1 "i");
      Assign ["b"] K_assign (Compound K_plus [Ident "a"; Ident "x"]) ].

Definition unit_empty : CompilationUnitImpl := Build_CompilationUnitImpl ∅.

(** ** The environment *)

(** Every identifier bound in [c] is bound in [c']. *)
Definition env_grows (c c' : DefCompiler) : Prop :=
  forall x, is_Some (env c !! x) -> is_Some (env c' !! x).

Definition stmt_env_grows (s : Stmt) : Prop :=
  forall c c', emitStatement s c = Ok tt c' -> env_grows c c'.

(** The discard identifier is bound before the [if] and rebound in the
    true branch, and [b] is bound in the true branch only; the false branch
    reads both, and the statement after the [if] reads the discard
    identifier. *)
Definition if_program : list Stmt :=
  [ Assign ["_"] K_assign (Const 1 "i");
    If (Ident "c")
       [ Assign ["_"] K_assign (Const 2 "i");
         Assign ["b"] K_assign (Const 3 "i") ]
       [ Assign ["d"] K_assign (Compound K_plus [Ident "_"; Ident "b"]) ];
    Assign ["r"] K_assign (Ident "_") ].

(** ** Output names across a function

    [emitWhile] makes two operations declare the loop-control name: the
    initializing constant and the last operation of the condition net.  The
    names declared in a net are collected here with the outputs of the last
    operation of every cond_net left out. *)

Definition declared_ops_ (declared_op : bool -> OperatorDef -> list string)
    (final : bool) : list OperatorDef -> list string :=
  fix over_ops (ops : list OperatorDef) : list string :=
    match ops with
    | [] => []
    | o :: ops' =>
        declared_op (match ops' with [] => final | _ :: _ => true end) o
        ++ over_ops ops'
    end.

(** The names an operator declares: its own outputs when [own] is set, and
    the names declared in the nets of its arguments. *)
Fixpoint declared_op (own : bool) (o : OperatorDef) {struct o} : list string :=
  match o with
  | Build_OperatorDef _ _ output args =>
      (if own then output else []) ++
      (fix over_args (args : list Argument) : list string :=
         match args with
         | [] => []
         | a :: args' =>
             match a with
             | Build_Argument name _ _ _ _ (Some (Build_NetDef _ ops)) =>
                 declared_ops_ declared_op (negb (String.eqb name "cond_net")) ops
             | _ => []
             end ++ over_args args'
         end) args
  end.

(** The names declared in a list of operators; [final] tells whether the
    outputs of the last one count. *)
Definition declared_ops : bool -> list OperatorDef -> list string :=
  declared_ops_ declared_op.

Definition declared_arg (a : Argument) : list string :=
  match arg_n a with
  | Some nd => declared_ops (negb (String.eqb (arg_name a) "cond_net")) (net_op nd)
  | None => []
  end.

(** A name of the shape of the generated ones. *)
Definition generated (x : string) : Prop := String.prefix "$t" x = true.

#[global] Instance generated_dec x : Decision (generated x).
Proof. unfold generated. apply _. Defined.

(** The generated names among [l] are pairwise distinct and were issued
    while the counter went from [n] to [n']. *)
Definition issued (n n' : nat) (l : list string) : Prop :=
  NoDup (filter generated l) /\
  forall x, x ∈ l -> generated x -> exists k, n <= k < n' /\ x = fresh_name k.

(** The targets of the assignments of a statement, at any depth. *)
Fixpoint targets (s : Stmt) : list string :=
  match s with
  | If _ trueBranch falseBranch =>
      flat_map targets trueBranch ++ flat_map targets falseBranch
  | While _ body => flat_map targets body
  | Assign idents _ _ => idents
  | ExprStmt _ => []
  end.

(** A name that cannot be taken for a generated one; identifiers of the
    language are such names, the discard identifier too. *)
Definition user_name (x : string) : Prop := ~ generated x.

(** Where the lowering of a statement returns, the generated names declared
    by the operations it appended are pairwise distinct and were issued
    during that lowering. *)
Definition issues (es : M unit) : Prop :=
  forall e nm ops fr n c',
    es (Build_DefCompiler e (Build_NetDef nm ops) fr n) = Ok tt c' ->
    exists e' new n',
      c' = Build_DefCompiler e' (Build_NetDef nm (ops ++ new)) fr n' /\
      n <= n' /\ issued n n' (declared_ops true new).

Definition stmt_issues (s : Stmt) : Prop :=
  Forall user_name (targets s) -> issues (emitStatement s).

(** All the operators of a list, those of the nets held by their
    arguments included. *)
Fixpoint all_ops_op (o : OperatorDef) {struct o} : list OperatorDef :=
  match o with
  | Build_OperatorDef _ _ _ args =>
      o :: flat_map
             (fun a =>
                match a with
                | Build_Argument _ _ _ _ _ (Some (Build_NetDef _ ops)) =>
                    flat_map all_ops_op ops
                | _ => []
                end) args
  end.

Definition all_ops (ops : list OperatorDef) : list OperatorDef :=
  flat_map all_ops_op ops.

Definition nested_ops (a : Argument) : list OperatorDef :=
  match arg_n a with
  | Some nd => all_ops (net_op nd)
  | None => []
  end.

(** The operators of the net an argument holds; none when it holds no
    net. *)
Definition arg_ops (a : Argument) : list OperatorDef :=
  match arg_n a with Some nd => net_op nd | None => [] end.

Section OperatorDef_induction.
Variable P : OperatorDef -> Prop.
Hypothesis HOp : forall type input output arg,
    Forall (fun a => Forall P (arg_ops a)) arg ->
    P (Build_OperatorDef type input output arg).

Fixpoint OperatorDef_ind' (o : OperatorDef) : P o :=
  match o with
  | Build_OperatorDef type input output arg =>
      HOp type input output arg
        ((fix over_args (l : list Argument)
            : Forall (fun a => Forall P (arg_ops a)) l :=
            match l with
            | [] => @List.Forall_nil _ _
            | a :: l' =>
                @List.Forall_cons _ (fun a => Forall P (arg_ops a)) a l'
                  (match a return Forall P (arg_ops a) with
                   | Build_Argument _ _ _ _ _ (Some (Build_NetDef _ ops)) =>
                       (fix over_ops (l : list OperatorDef) : Forall P l :=
                          match l with
                          | [] => @List.Forall_nil _ P
                          | o' :: l'' =>
                              @List.Forall_cons _ P o' l''
                                (OperatorDef_ind' o') (over_ops l'')
                          end) ops
                   | Build_Argument _ _ _ _ _ None => @List.Forall_nil _ P
                   end)
                  (over_args l')
            end) arg)
  end.
End OperatorDef_induction.

(** All the output names of a list of operators, those of the nets held by
    their arguments included, each as often as it is declared. *)
Definition all_outputs (ops : list OperatorDef) : list string :=
  flat_map op_output (all_ops ops).

(** The outputs of the last operator of a list. *)
Definition last_outputs (ops : list OperatorDef) : list string :=
  match last ops with Some o => op_output o | None => [] end.

(** The names [declared_op] leaves out: the outputs of the last operation
    of every cond_net, at any depth. *)
Fixpoint final_outputs_op (o : OperatorDef) {struct o} : list string :=
  match o with
  | Build_OperatorDef _ _ _ args =>
      flat_map
        (fun a =>
           match a with
           | Build_Argument name _ _ _ _ (Some (Build_NetDef _ ops)) =>
               (if String.eqb name "cond_net" then last_outputs ops else [])
               ++ flat_map final_outputs_op ops
           | _ => []
           end) args
  end.

Definition final_outputs (ops : list OperatorDef) : list string :=
  flat_map final_outputs_op ops.

Definition final_outputs_arg (a : Argument) : list string :=
  (if String.eqb (arg_name a) "cond_net" then last_outputs (arg_ops a) else [])
  ++ final_outputs (arg_ops a).

(** The names of [l] are pairwise distinct and were issued while the
    counter went from [n] to [n']. *)
Definition issued_all (n n' : nat) (l : list string) : Prop :=
  NoDup l /\ forall x, x ∈ l -> exists k, n <= k < n' /\ x = fresh_name k.

(** Every operator of the net [ops] that holds a cond_net is the While
    operation of a loop: its one input is a generated name, the operator
    just before it in [ops] is the constant that initializes that name, and
    the last operation of its cond_net declares that name as its one
    output. *)
Definition loop_tied (ops : list OperatorDef) : Prop :=
  forall i w a nd,
    ops !! i = Some w ->
    a ∈ op_arg w -> arg_name a = "cond_net" -> arg_n a = Some nd ->
    exists k cond_ops final body_ops,
      w = Build_OperatorDef "While" [fresh_name k] []
            [net_arg "cond_net" (cond_ops ++ [final]);
             net_arg "loop_net" body_ops] /\
      op_output final = [fresh_name k] /\
      exists j, i = S j /\ ops !! j = Some (const_op 0 (fresh_name k) "i").

(** Every net held by an argument of the operator is [loop_tied]. *)
Definition nets_tied (o : OperatorDef) : Prop :=
  forall a nd, a ∈ op_arg o -> arg_n a = Some nd -> loop_tied (net_op nd).

(** An operator that holds no cond_net. *)
Definition no_cond_net (o : OperatorDef) : Prop :=
  forall a nd, a ∈ op_arg o -> arg_name a = "cond_net" -> arg_n a <> Some nd.

(** Where the lowering returns, the outputs of the last operations of the
    cond_nets it built are pairwise distinct names issued during that
    lowering, and the operations it appended and every net below them are
    [loop_tied]. *)
Definition loops (es : M unit) : Prop :=
  forall e nm ops fr n c',
    es (Build_DefCompiler e (Build_NetDef nm ops) fr n) = Ok tt c' ->
    exists e' new n',
      c' = Build_DefCompiler e' (Build_NetDef nm (ops ++ new)) fr n' /\
      n <= n' /\ issued_all n n' (final_outputs new) /\
      loop_tied new /\ Forall nets_tied (all_ops new).

(** The outputs of an operator and of the nets below it are the names
    [declared_op] counts, its own outputs when those are left out, and the
    outputs of the last operations of the cond_nets below it. *)
Definition outputs_split (o : OperatorDef) : Prop :=
  forall own,
    flat_map op_output (all_ops_op o) ≡ₚ
    declared_op own o ++ (if own then [] else op_output o) ++ final_outputs_op o.

(** [def f(a, c) -> (a): while a < c: a = a + 1] *)
Definition def_while : Def :=
  Build_Def "f" ["a"; "c"] ["a"]
    [ While (Compound K_lt [Ident "a"; Ident "c"])
        [Assign ["a"] K_assign (Compound K_plus [Ident "a"; Const 1 "i"])] ].

Definition net_while : NetDef :=
  Build_NetDef "f"
    [ const_op 0 "$t0" "i";
      Build_OperatorDef "While" ["$t0"] []
        [ net_arg "cond_net"
            [Build_OperatorDef "LT" ["a"; "c"] ["$t0"]
               [Build_Argument "broadcast" None (Some 1%Z) [] [] None]];
          net_arg "loop_net"
            [ const_op 1 "$t2" "i";
              Build_OperatorDef "Add" ["a"; "$t2"] ["a"]
                [Build_Argument "broadcast" None (Some 1%Z) [] [] None] ] ] ].

(** ** Further vocabulary *)

(** The operation [emitConst] leaves in the net when it raises on a type
    suffix it does not know: the two arguments are named, nothing is stored
    in them, and the operation has no output yet. *)
Definition const_op_unfinished : OperatorDef :=
  Build_OperatorDef "ConstantFill" [] []
    [ Build_Argument "dtype" None None [] [] None;
      Build_Argument "value" None None [] [] None ].

(** The environment renames nothing but the discard identifier: every
    other name it binds is bound to itself. *)
Definition env_identity (e : gmap string string) : Prop :=
  forall x v, e !! x = Some v -> x <> "_" -> v = x.

(** A relation between the environment and the counter before and after a
    lowering that contains the elementary steps of the statements: issuing
    fresh names, and binding the targets of an assignment. *)
Record steps_closed
    (R : gmap string string -> nat -> gmap string string -> nat -> Prop) : Prop :=
  Build_steps_closed {
    steps_refl : forall e n, R e n e n;
    steps_trans : forall e1 n1 e2 n2 e3 n3,
      R e1 n1 e2 n2 -> R e2 n2 e3 n3 -> R e1 n1 e3 n3;
    steps_fresh : forall e n k, R e n e (n + k);
    steps_bind : forall idents e n,
      R e n (bind_env idents n e) (n + discards idents)
  }.

(** [R] relates the compiler objects before and after every returning run
    of the statement. *)
Definition stmt_steps
    (R : gmap string string -> nat -> gmap string string -> nat -> Prop)
    (s : Stmt) : Prop :=
  forall c c', emitStatement s c = Ok tt c' ->
               R (env c) (next_fresh c) (env c') (next_fresh c').

(** The environment after [for (auto x : names) map(x, x);]. *)
Definition map_names_env (names : list string) (e : gmap string string)
    : gmap string string :=
  foldl (fun e x => <[x:=x]> e) e names.

(** Every exception the method raises, from whatever compiler object it
    starts, satisfies [P]. *)
Definition throws_only {A : Type} (P : Error -> Prop) (m : M A) : Prop :=
  forall c e c', m c = Throw e c' -> P e.

(** The errors that reject the function being lowered.  The others are an
    index past the end of a list view, a kind [operatorName] has no name for,
    and the two errors of the compilation unit. *)
Definition rejects_program (e : Error) : Prop :=
  match e with
  | UnboundIdentifier _ | MultiTargetReductionError | IntrinsicArityError _
  | UnrecognizedAttribute _ | UnsupportedAttribute | MalformedLiteral _
  | UnknownType _ | UnsupportedConstruct => True
  | UnknownKind _ | IndexOutOfRange
  | DuplicateDefinition _ | UndefinedFunction _ => False
  end.

(** The number of operations the lowering of an expression appends: one for
    the tree itself and those of its operands, where an operand that is an
    identifier counts for none.  The keyword arguments of a call are not
    lowered and count for none. *)
Fixpoint emit_count (t : Tree) : nat :=
  let operands :=
    foldr (fun t n => match t with Ident _ => 0 | _ => emit_count t end + n) 0 in
  match t with
  | Ident _ => 1
  | Const _ _ => 1
  | Apply _ inputs _ => S (operands inputs)
  | Cast _ input => S (match input with Ident _ => 0 | _ => emit_count input end)
  | Compound _ trees => S (operands trees)
  end.

Definition operand_count (t : Tree) : nat :=
  match t with Ident _ => 0 | _ => emit_count t end.

Definition operands_count (trees : list Tree) : nat :=
  foldr (fun t n => operand_count t + n) 0 trees.

(** The numbers of the literals of a list that carry the suffix f, and the
    numbers of the others converted to integers, each in the order of the
    list. *)
Definition floats_of (trees : list Tree) : list float32 :=
  omap (fun t => match t with
                 | Const v f =>
                     if decide (f = "f") then Some (double_to_float v) else None
                 | _ => None
                 end) trees.

Definition ints_of (trees : list Tree) : list Z :=
  omap (fun t => match t with
                 | Const v f =>
                     if decide (f = "f") then None else Some (double_to_int64 v)
                 | _ => None
                 end) trees.

(** A value an operand can have while an expression is lowered, the
    lowering having started in environment [e] with the counter at [n0]: a
    name bound in [e], or a fresh name issued since then and below [n]. *)
Definition operand_value (e : gmap string string) (n0 n : nat) (x : string)
    : Prop :=
  (exists y, e !! y = Some x) \/ (exists k, n0 <= k < n /\ x = fresh_name k).

(** The inputs of operators appended one after the other while the counter
    goes up from [n], one fresh name per operator: every input of an operator
    is a name bound in [e] or a fresh name issued, from [n0] on, before the
    operator's own. *)
Fixpoint inputs_defined (e : gmap string string) (n0 n : nat)
    (ops : list OperatorDef) : Prop :=
  match ops with
  | [] => True
  | o :: ops' =>
      Forall (operand_value e n0 n) (op_input o) /\ inputs_defined e n0 (S n) ops'
  end.

Definition emit_inputs_spec (t : Tree) : Prop :=
  forall e nm ops fr n op c',
    emit t (Build_DefCompiler e (Build_NetDef nm ops) fr n) = Ok op c' ->
    exists new, appended e nm ops fr n c' new /\ inputs_defined e n n new.

(** * Properties *)

(** ** Running the methods on a compiler object *)

Lemma alter_snoc {A : Type} (g : A -> A) (l : list A) (x : A) :
  alter g (length l) (l ++ [x]) = l ++ [g x].
Proof.
  replace (length l) with (length l + 0) by lia.
  by rewrite alter_app_r.
Qed.

Lemma lookup_snoc {A : Type} (l : list A) (x : A) :
  (l ++ [x]) !! length l = Some x.
Proof. by apply list_lookup_middle. Qed.

(** Unfolding of the monad and of the message accessors, leaving list
    operations at symbolic positions to [alter_snoc] and [lookup_snoc]. *)
Ltac mred :=
  cbv [mbind M_bind mret M_ret throw get modify
       add_op op_update arg_update set_type add_input add_output set_output
       clear_output the_op output_size output add_arg set_name set_f set_i
       add_floats add_ints mutable_n the_net push_back pop_back fresh map
       set_net_name store_net frame_net frame_op frame_arg
       set_env set_cur net_set_op net_set_name net_name net_op
       env cur enclosing next_fresh fst snd
       op_set_type op_add_input op_add_output op_set_output op_clear_output
       op_set_arg op_type op_input op_output op_arg
       arg_set_name arg_set_f arg_set_i arg_add_floats arg_add_ints arg_set_n
       arg_name arg_f arg_i arg_floats arg_ints arg_n
       NetDef_new OperatorDef_new Argument_new default from_option].

Ltac mnorm :=
  repeat (progress (mred; rewrite ?alter_snoc, ?lookup_snoc; simpl)).

Lemma bind_Ok {A B : Type} (m : M A) (k : A -> M B) c a c' :
  m c = Ok a c' -> (m ≫= k) c = k a c'.
Proof. intros H. unfold mbind, M_bind. by rewrite H. Qed.

Lemma bind_Ok_inv {A B : Type} (m : M A) (k : A -> M B) c b c' :
  (m ≫= k) c = Ok b c' -> exists a c1, m c = Ok a c1 /\ k a c1 = Ok b c'.
Proof.
  unfold mbind, M_bind. destruct (m c) as [a c1|e c1]; [|done].
  intros H. by exists a, c1.
Qed.

Lemma emitConst_known v output type_ident e nm ops fr n :
  known_type_ident type_ident ->
  emitConst v output type_ident (Build_DefCompiler e (Build_NetDef nm ops) fr n) =
  Ok (length ops)
     (Build_DefCompiler e (Build_NetDef nm (ops ++ [const_op v output type_ident])) fr n).
Proof.
  intros [-> | [-> | [-> | ->]]]; unfold emitConst, const_op; simpl; by mnorm.
Qed.

Lemma emitConst_unknown v output type_ident c :
  ~ known_type_ident type_ident ->
  exists c', emitConst v output type_ident c = Throw (MalformedLiteral type_ident) c'.
Proof.
  intros Hk. unfold known_type_ident in Hk.
  destruct c as [e [nm ops] fr n]. unfold emitConst.
  mnorm.
  repeat (case_decide; [tauto|]).
  mnorm. eauto.
Qed.

Lemma emitConst_Ok_inv v output type_ident e nm ops fr n op c' :
  emitConst v output type_ident (Build_DefCompiler e (Build_NetDef nm ops) fr n)
    = Ok op c' ->
  known_type_ident type_ident /\ op = length ops /\
  c' = Build_DefCompiler e (Build_NetDef nm (ops ++ [const_op v output type_ident])) fr n.
Proof.
  destruct (known_type_ident_dec type_ident) as [Hk|Hk].
  - rewrite emitConst_known by done. intros H. by simplify_eq.
  - destruct (emitConst_unknown v output type_ident
                (Build_DefCompiler e (Build_NetDef nm ops) fr n) Hk) as [c1 ->].
    done.
Qed.

Lemma op_update_last g e nm ops o fr n :
  op_update (length ops) g (Build_DefCompiler e (Build_NetDef nm (ops ++ [o])) fr n) =
  Ok tt (Build_DefCompiler e (Build_NetDef nm (ops ++ [g o])) fr n).
Proof. by mnorm. Qed.

Lemma arg_update_last k g e nm ops ty ins outs args fr n :
  arg_update (length ops, k) g
    (Build_DefCompiler e (Build_NetDef nm (ops ++ [Build_OperatorDef ty ins outs args])) fr n) =
  Ok tt (Build_DefCompiler e
           (Build_NetDef nm (ops ++ [Build_OperatorDef ty ins outs (alter g k args)])) fr n).
Proof. by mnorm. Qed.

Lemma add_inputs_last values e nm ops ty ins outs args fr n :
  add_inputs (length ops) values
    (Build_DefCompiler e (Build_NetDef nm (ops ++ [Build_OperatorDef ty ins outs args])) fr n) =
  Ok tt (Build_DefCompiler e
           (Build_NetDef nm (ops ++ [Build_OperatorDef ty (ins ++ values) outs args])) fr n).
Proof.
  unfold add_inputs.
  revert ins. induction values as [|v values IH]; intros ins; simpl.
  - by rewrite app_nil_r.
  - mnorm. rewrite IH. by rewrite <- app_assoc.
Qed.

(** *** Attributes: [fillArg] writes only into the argument it is given *)

Lemma no_net_alter g k args :
  (forall a, no_net a -> no_net (g a)) ->
  Forall no_net args -> Forall no_net (alter g k args).
Proof. intros Hg Hargs. apply Forall_alter; auto. Qed.

Ltac mbeta := cbv [mbind M_bind mret M_ret throw get modify].

(** A run that raised did not return. *)
Ltac raised := let H := fresh in intros H; discriminate H.

Lemma fillArg_list_args k trees e nm ops ty ins outs args fr n :
  exists args',
    state_of (fillArg_list (length ops, k) trees
      (Build_DefCompiler e (Build_NetDef nm (ops ++ [Build_OperatorDef ty ins outs args])) fr n))
    = Build_DefCompiler e (Build_NetDef nm (ops ++ [Build_OperatorDef ty ins outs args'])) fr n /\
    (Forall no_net args -> Forall no_net args').
Proof.
  revert args. induction trees as [|t trees IH]; intros args; simpl.
  - by exists args.
  - destruct t as [name|v f|name inputs attributes|type input|kind ts];
      try (exists args; by mnorm).
    unfold constValue.
    destruct (decide (f = "f")) as [Hf|Hf].
    + destruct (IH (alter (arg_add_floats (double_to_float v)) k args))
        as (args' & Hst & Hnn).
      exists args'. split.
      * mbeta. rewrite decide_True by done.
        unfold add_floats. by rewrite arg_update_last.
      * intros Ha. apply Hnn. by apply no_net_alter.
    + destruct (IH (alter (arg_add_ints (double_to_int64 v)) k args))
        as (args' & Hst & Hnn).
      exists args'. split.
      * mbeta. rewrite decide_False by done.
        unfold add_ints. by rewrite arg_update_last.
      * intros Ha. apply Hnn. by apply no_net_alter.
Qed.

Lemma fillArg_args k attr e nm ops ty ins outs args fr n :
  exists args',
    state_of (fillArg (length ops, k) attr
      (Build_DefCompiler e (Build_NetDef nm (ops ++ [Build_OperatorDef ty ins outs args])) fr n))
    = Build_DefCompiler e (Build_NetDef nm (ops ++ [Build_OperatorDef ty ins outs args'])) fr n /\
    (Forall no_net args -> Forall no_net args').
Proof.
  destruct attr as [name value]. unfold fillArg, set_name. simpl.
  mbeta. rewrite arg_update_last.
  assert (Hn : Forall no_net args -> Forall no_net (alter (arg_set_name name) k args))
    by (intros Ha; by apply no_net_alter).
  destruct value as [x|v f|x inputs attributes|type input|kind ts];
    try (by eexists).
  - destruct (decide (f = "f")) as [Hf|Hf].
    + unfold set_f. rewrite arg_update_last. eexists. split; [done|].
      intros Ha. by apply no_net_alter, Hn.
    + unfold set_i. rewrite arg_update_last. eexists. split; [done|].
      intros Ha. by apply no_net_alter, Hn.
  - destruct (decide (kind = TK_LIST)) as [->|Hk].
    + destruct (fillArg_list_args k ts e nm ops ty ins outs
                  (alter (arg_set_name name) k args) fr n) as (args' & Hst & Hnn).
      exists args'. split; [done|]. intros Ha. by apply Hnn, Hn.
    + exists (alter (arg_set_name name) k args). split; [|done].
      by destruct kind.
Qed.

Lemma fill_args_args attributes e nm ops ty ins outs args fr n :
  exists args',
    state_of (fill_args (length ops) attributes
      (Build_DefCompiler e (Build_NetDef nm (ops ++ [Build_OperatorDef ty ins outs args])) fr n))
    = Build_DefCompiler e (Build_NetDef nm (ops ++ [Build_OperatorDef ty ins outs args'])) fr n /\
    (Forall no_net args -> Forall no_net args').
Proof.
  unfold fill_args.
  revert args. induction attributes as [|attr attributes IH]; intros args; simpl.
  - by exists args.
  - mnorm.
    destruct (fillArg_args (length args) attr e nm ops ty ins outs
                (args ++ [Build_Argument "" None None [] [] None]) fr n)
      as (args1 & Hst1 & Hnn1).
    destruct (fillArg _ attr _) as [[] c1|err c1]; simpl in Hst1; subst c1.
    + destruct (IH args1) as (args' & Hst & Hnn).
      exists args'. split; [done|]. intros Ha. apply Hnn, Hnn1.
      apply Forall_app. split; [done|]. by repeat constructor.
    + exists args1. split; [done|]. intros Ha. apply Hnn1.
      apply Forall_app. split; [done|]. by repeat constructor.
Qed.

(** *** Operators *)

Lemma emit_Compound kind trees :
  emit (Compound kind trees) =
  if is_operator kind
  then values ← getValues trees; emitOperator kind (length trees) values
  else throw UnsupportedConstruct.
Proof. by destruct kind. Qed.

Lemma operatorName_operator kind ninputs c :
  is_operator kind = true ->
  operatorName kind ninputs c = Ok (operator_type kind ninputs) c.
Proof.
  unfold operator_type. destruct kind; try done.
  simpl. by case_decide.
Qed.

Lemma emitOperator_run kind ninputs values e nm ops fr n :
  is_operator kind = true ->
  emitOperator kind ninputs values (Build_DefCompiler e (Build_NetDef nm ops) fr n) =
  Ok (length ops)
     (Build_DefCompiler e
        (Build_NetDef nm
           (ops ++ [Build_OperatorDef (operator_type kind ninputs) values
                      [fresh_name n] [broadcast_arg]]))
        fr (S n)).
Proof.
  intros Hk. unfold emitOperator. mnorm.
  rewrite operatorName_operator by done. mnorm.
  rewrite add_inputs_last. by mnorm.
Qed.

Lemma emit_Apply name inputs attributes :
  emit (Apply name inputs attributes) =
  if is_builtin name then emitFillOp name inputs attributes
  else values ← getValues inputs; emitCall name values attributes.
Proof. done. Qed.

Lemma emitCall_state name values attributes e nm ops fr n :
  exists args,
    state_of (emitCall name values attributes
                (Build_DefCompiler e (Build_NetDef nm ops) fr n)) =
    Build_DefCompiler e
      (Build_NetDef nm (ops ++ [Build_OperatorDef name values [fresh_name n] args]))
      fr (S n) /\
    Forall no_net args.
Proof.
  unfold emitCall. mnorm. rewrite add_inputs_last. mnorm.
  destruct (fill_args_args attributes e nm ops name values [fresh_name n] [] fr (S n))
    as (args & Hst & Hnn).
  exists args. split; [|by apply Hnn].
  by destruct (fill_args _ _ _).
Qed.

Lemma emitCall_Ok_inv name values attributes e nm ops fr n op c' :
  emitCall name values attributes (Build_DefCompiler e (Build_NetDef nm ops) fr n)
    = Ok op c' ->
  op = length ops /\
  exists args,
    c' = Build_DefCompiler e
           (Build_NetDef nm (ops ++ [Build_OperatorDef name values [fresh_name n] args]))
           fr (S n) /\
    Forall no_net args.
Proof.
  intros H.
  destruct (emitCall_state name values attributes e nm ops fr n) as (args & Hst & Hnn).
  rewrite H in Hst. simpl in Hst. split; [|by exists args].
  revert H. unfold emitCall. mnorm. rewrite add_inputs_last. mnorm.
  destruct (fill_args _ _ _); [|done]. mnorm. intros H. by simplify_eq.
Qed.

(** *** The built-ins *)

Lemma emitFillOp_eq name inputs attributes :
  emitFillOp name inputs attributes =
  (values ← getValues inputs; emitFill name values attributes).
Proof. done. Qed.

Lemma check_shape_only_run builtin_type attributes has_shape c :
  check_shape_only builtin_type attributes has_shape c =
  match find (fun a => negb (String.eqb (fst a) "shape")) attributes with
  | Some a => Throw (UnrecognizedAttribute (fst a)) c
  | None => Ok (has_shape || nonempty attributes) c
  end.
Proof.
  revert has_shape.
  induction attributes as [|a attributes IH]; intros has_shape; simpl.
  - by rewrite orb_false_r.
  - destruct (String.eqb_spec (fst a) "shape") as [Ha|Ha]; simpl.
    + rewrite decide_True by done. rewrite IH.
      case_match; [done|]. by rewrite orb_true_r.
    + by rewrite decide_False by done.
Qed.

Lemma emitFill_Ok_inv builtin_type values attributes e nm ops fr n op c' :
  emitFill builtin_type values attributes
    (Build_DefCompiler e (Build_NetDef nm ops) fr n) = Ok op c' ->
  op = length ops /\
  exists args,
    c' = Build_DefCompiler e
           (Build_NetDef nm
              (ops ++ [Build_OperatorDef "ConstantFill" (take 1 values)
                         [fresh_name n] args]))
           fr (S n) /\
    Forall no_net args.
Proof.
  unfold emitFill. mbeta.
  case_decide; [raised|].
  rewrite check_shape_only_run.
  destruct (find (fun a => negb (String.eqb (fst a) "shape")) attributes);
    [raised|].
  assert (forall (k : M OpPtr),
    match
      (if decide (builtin_type = "zeros" ∨ builtin_type = "ones") then
         if decide (length values ≠ 1 ∧ false || nonempty attributes = false)
         then fun c => Throw (IntrinsicArityError builtin_type) c
         else fun c => Ok tt c
       else
         if decide (length values ≠ 1)
         then fun c => Throw (IntrinsicArityError builtin_type) c
         else fun c => Ok tt c) (Build_DefCompiler e (Build_NetDef nm ops) fr n)
    with
    | Ok _ c1 => k c1
    | Throw err c1 => Throw err c1
    end = Ok op c' ->
    k (Build_DefCompiler e (Build_NetDef nm ops) fr n) = Ok op c') as Hguard.
  { intros k. repeat case_decide; done || raised. }
  intros Hrun. apply Hguard in Hrun. clear Hguard. revert Hrun.
  destruct values as [|value0 values].
  - mnorm. destruct attributes as [|attribute0 attributes]; [done|].
    destruct (fillArg_args 0 attribute0 e nm ops "ConstantFill" [] []
                [Build_Argument "" None None [] [] None] fr n)
      as (args1 & Hst1 & Hnn1).
    destruct (fillArg _ attribute0 _) as [[] c1|err c1]; [|done].
    simpl in Hst1. subst c1. mnorm.
    assert (Hargs1 : Forall no_net args1) by (apply Hnn1; by repeat constructor).
    destruct (contains builtin_type "ones"); mnorm; intros Hrun; simplify_eq;
      (split; [done|]); eexists; (split; [done|]);
      apply Forall_app; (split; [done|by repeat constructor]).
  - mnorm.
    destruct (contains builtin_type "_like"), (contains builtin_type "ones");
      mnorm; intros Hrun; simplify_eq; (split; [done|]); eexists;
      (split; [done|]); by repeat constructor.
Qed.

(** ** What lowering an expression appends

    Lowering an expression appends operators to the current net and touches
    nothing else; each appended operator has one output, the next fresh
    name, and no argument holding a net. *)

Lemma flat_fresh_app n l1 l2 :
  flat_fresh n (l1 ++ l2) <-> flat_fresh n l1 /\ flat_fresh (n + length l1) l2.
Proof.
  revert n. induction l1 as [|o l1 IH]; intros n; simpl.
  - rewrite Nat.add_0_r. tauto.
  - rewrite IH. replace (S n + length l1) with (n + S (length l1)) by lia. tauto.
Qed.

Lemma appended_snoc e nm ops fr n new o :
  flat_fresh n new ->
  op_output o = [fresh_name (n + length new)] ->
  no_nets o ->
  appended e nm ops fr n
    (Build_DefCompiler e (Build_NetDef nm ((ops ++ new) ++ [o])) fr
       (S (n + length new)))
    (new ++ [o]).
Proof.
  intros Hnew Ho Hn. split.
  - rewrite length_app, app_assoc. simpl. do 2 f_equal. lia.
  - apply flat_fresh_app. simpl. done.
Qed.

Lemma getValue_appended t e nm ops fr n v c' :
  emit_spec t ->
  getValue t (Build_DefCompiler e (Build_NetDef nm ops) fr n) = Ok v c' ->
  exists new, appended e nm ops fr n c' new.
Proof.
  intros Ht Hrun.
  assert (Hemit : forall (k : OpPtr -> M string),
             (forall op c1, exists v1, k op c1 = Ok v1 c1) ->
             (op ← emit t; k op) (Build_DefCompiler e (Build_NetDef nm ops) fr n)
               = Ok v c' ->
             exists new, appended e nm ops fr n c' new).
  { intros k Hk Hbind. apply bind_Ok_inv in Hbind as (op & c1 & Hop & Hout).
    apply Ht in Hop as (new & o & Happ & _).
    destruct (Hk op c1) as [v1 Hv1]. rewrite Hv1 in Hout. simplify_eq.
    by exists (new ++ [o]). }
  assert (Hout : forall op c1, exists v1, output op 0 c1 = Ok v1 c1)
    by (intros; eexists; reflexivity).
  destruct t; try (by apply (Hemit _ Hout)).
  revert Hrun. unfold getValue, getValue_, lookup. mnorm.
  destruct (e !! name); [|raised]. intros Hrun. simplify_eq.
  exists []. split; [|done]. simpl. by rewrite app_nil_r, Nat.add_0_r.
Qed.

Lemma getValues_appended trees e nm ops fr n values c' :
  Forall emit_spec trees ->
  getValues trees (Build_DefCompiler e (Build_NetDef nm ops) fr n) = Ok values c' ->
  exists new, appended e nm ops fr n c' new.
Proof.
  intros Htrees. revert ops n values c'.
  induction Htrees as [|t trees Ht _ IH]; intros ops n values c' Hrun.
  - revert Hrun. unfold getValues. simpl. mnorm. intros Hrun. simplify_eq.
    exists []. split; [|done]. simpl. by rewrite app_nil_r, Nat.add_0_r.
  - change (getValues (t :: trees))
      with (v ← getValue t; result ← getValues trees; mret (v :: result)) in Hrun.
    apply bind_Ok_inv in Hrun as (v & c1 & Hv & Hrun).
    apply bind_Ok_inv in Hrun as (vs & c2 & Hvs & Hrun).
    apply getValue_appended in Hv as (new1 & -> & Hnew1); [|done].
    apply IH in Hvs as (new2 & -> & Hnew2).
    revert Hrun. mnorm. intros Hrun. simplify_eq.
    exists (new1 ++ new2). split.
    + rewrite length_app, <- app_assoc. f_equal. lia.
    + by apply flat_fresh_app.
Qed.

Lemma emit_appends t : emit_spec t.
Proof.
  induction t as [name|v type_ident|name inputs attributes IH|type input IH|kind trees IH]
    using Tree_ind'; intros e nm ops fr n op c' Hrun.
  - (* an identifier: Copy *)
    revert Hrun. simpl. unfold lookup. mnorm.
    destruct (e !! name) as [value|]; [|raised]. mnorm.
    intros Hrun. simplify_eq. eexists [], _. split; [|simpl; lia].
    split; [by rewrite Nat.add_1_r|]. simpl.
    repeat split. by constructor.
  - (* a literal *)
    simpl in Hrun. apply bind_Ok_inv in Hrun as (t & c1 & Ht & Hrun).
    revert Ht. mnorm. intros Ht. simplify_eq.
    apply emitConst_Ok_inv in Hrun as (_ & -> & ->).
    eexists [], _. split; [|simpl; lia].
    split; [by rewrite Nat.add_1_r|]. simpl.
    repeat split. unfold no_nets. simpl. by repeat constructor.
  - (* a call *)
    rewrite emit_Apply in Hrun. destruct (is_builtin name).
    + rewrite emitFillOp_eq in Hrun.
      apply bind_Ok_inv in Hrun as (values & c1 & Hvalues & Hrun).
      apply getValues_appended in Hvalues as (new & -> & Hnew); [|done].
      apply emitFill_Ok_inv in Hrun as (-> & args & -> & Hargs).
      eexists new, _. split; [by apply appended_snoc|]. by rewrite length_app.
    + apply bind_Ok_inv in Hrun as (values & c1 & Hvalues & Hrun).
      apply getValues_appended in Hvalues as (new & -> & Hnew); [|done].
      apply emitCall_Ok_inv in Hrun as (-> & args & -> & Hargs).
      eexists new, _. split; [by apply appended_snoc|]. by rewrite length_app.
  - (* a cast *)
    simpl in Hrun. apply bind_Ok_inv in Hrun as (c2type & c1 & Htype & Hrun).
    assert (c1 = Build_DefCompiler e (Build_NetDef nm ops) fr n) as ->.
    { revert Htype. destruct type; simpl; mbeta; intros Htype; by simplify_eq. }
    apply bind_Ok_inv in Hrun as (v & c1 & Hv & Hrun).
    apply (getValue_appended input) in Hv as (new & -> & Hnew); [|done].
    revert Hrun. mnorm. intros Hrun. simplify_eq.
    eexists new, _. split; [|by rewrite length_app].
    apply appended_snoc; [done..|]. unfold no_nets. simpl. by repeat constructor.
  - (* an operator, or a tree with no lowering *)
    rewrite emit_Compound in Hrun.
    destruct (is_operator kind) eqn:Hkind; [|done].
    apply bind_Ok_inv in Hrun as (values & c1 & Hvalues & Hrun).
    apply getValues_appended in Hvalues as (new & -> & Hnew); [|done].
    rewrite emitOperator_run in Hrun by done. simplify_eq.
    eexists new, _. split; [|by rewrite length_app].
    apply appended_snoc; [done..|]. unfold no_nets. simpl. by repeat constructor.
Qed.

(** ** Expressions *)

Lemma getValues_nil c : getValues [] c = Ok [] c.
Proof. done. Qed.

Lemma getValues_cons t trees :
  getValues (t :: trees) =
  (v ← getValue t; result ← getValues trees; mret (v :: result)).
Proof. done. Qed.

Lemma getValue_Ident name c v :
  env c !! name = Some v -> getValue (Ident name) c = Ok v c.
Proof. intros H. unfold getValue, getValue_, lookup. mbeta. by rewrite H. Qed.

Lemma getValue_env t c v c' : getValue t c = Ok v c' -> env c' = env c.
Proof.
  destruct c as [e [nm ops] fr n]. intros H.
  by apply getValue_appended in H as (new & -> & _); [|apply emit_appends].
Qed.

(** C10 (implicit in [emit]): every operator expression, the logical
    operators and the conditional expression included, is lowered to the
    operations of its operands followed by exactly one operation, and that
    operation carries the integer attribute broadcast = 1. *)
Theorem C10_operator_carries_broadcast kind trees values c c1 :
  is_operator kind = true ->
  getValues trees c = Ok values c1 ->
  emit (Compound kind trees) c =
  Ok (length (net_op (cur c1)))
     (emitted c1 (Build_OperatorDef (operator_type kind (length trees)) values
                    [fresh_name (next_fresh c1)]
                    [Build_Argument "broadcast" None (Some 1%Z) [] [] None])).
Proof.
  intros Hkind Hvalues. rewrite emit_Compound, Hkind.
  rewrite (bind_Ok _ _ _ _ _ Hvalues).
  destruct c1 as [e [nm ops] fr n]. by rewrite emitOperator_run.
Qed.

Lemma C10_witness :
  emit (Compound TK_AND [Ident "a"; Compound TK_NOT [Ident "c"]]) c0 =
  Ok 1
     (Build_DefCompiler (env c0)
        (Build_NetDef ""
           [Build_OperatorDef "Not" ["c"] ["$t0"]
              [Build_Argument "broadcast" None (Some 1%Z) [] [] None];
            Build_OperatorDef "And" ["a"; "$t0"] ["$t1"]
              [Build_Argument "broadcast" None (Some 1%Z) [] [] None]])
        [] 2).
Proof.
  apply (C10_operator_carries_broadcast TK_AND
           [Ident "a"; Compound TK_NOT [Ident "c"]] ["a"; "$t0"] c0
           (Build_DefCompiler (env c0)
              (Build_NetDef ""
                 [Build_OperatorDef "Not" ["c"] ["$t0"]
                    [Build_Argument "broadcast" None (Some 1%Z) [] [] None]])
              [] 1)).
  - reflexivity.
  - vm_compute. reflexivity.
Defined.

Lemma getValues_Ident_value trees : forall c values c' i x,
  getValues trees c = Ok values c' ->
  trees !! i = Some (Ident x) ->
  values !! i = env c !! x.
Proof.
  induction trees as [|t trees IH]; intros c values c' i x Hrun Hi; [done|].
  rewrite getValues_cons in Hrun.
  apply bind_Ok_inv in Hrun as (v1 & c1 & Hv1 & Hrun).
  apply bind_Ok_inv in Hrun as (vs & c2 & Hvs & Hrun).
  revert Hrun. mbeta. intros Hrun. simplify_eq.
  destruct i as [|i]; simpl in *.
  - simplify_eq. revert Hv1. unfold getValue, getValue_, lookup. mbeta.
    destruct (env c !! x); [|raised]. intros Hv1. by simplify_eq.
  - rewrite (IH _ _ _ _ _ Hvs Hi). f_equal. by eapply getValue_env.
Qed.

(** *** Keyword arguments of a generic call *)

Lemma alter_alter {A : Type} (g1 g2 : A -> A) k (l : list A) :
  alter g2 k (alter g1 k l) = alter (fun x => g2 (g1 x)) k l.
Proof. apply list_alter_alter_eq. Qed.

Lemma fillArg_list_run k trees e nm ops ty ins outs fr n : forall args,
  Forall is_Const trees ->
  fillArg_list (length ops, k) trees
    (Build_DefCompiler e (Build_NetDef nm (ops ++ [Build_OperatorDef ty ins outs args])) fr n) =
  Ok tt (Build_DefCompiler e
           (Build_NetDef nm
              (ops ++ [Build_OperatorDef ty ins outs (alter (encode_list trees) k args)]))
           fr n).
Proof.
  induction trees as [|t trees IH]; intros args Htrees; simpl.
  - mbeta. by rewrite list_alter_id.
  - apply Forall_cons in Htrees as [Ht Htrees]. destruct t; try done.
    simpl. mbeta. case_decide.
    + unfold add_floats. rewrite arg_update_last, IH by done. by rewrite alter_alter.
    + unfold add_ints. rewrite arg_update_last, IH by done. by rewrite alter_alter.
Qed.

Lemma fillArg_run k attr e nm ops ty ins outs args fr n :
  literals_if_list attr ->
  fillArg (length ops, k) attr
    (Build_DefCompiler e (Build_NetDef nm (ops ++ [Build_OperatorDef ty ins outs args])) fr n) =
  Ok tt (Build_DefCompiler e
           (Build_NetDef nm
              (ops ++ [Build_OperatorDef ty ins outs (alter (encode attr) k args)]))
           fr n).
Proof.
  destruct attr as [name value]. unfold literals_if_list, fillArg, encode, set_name.
  simpl. intros Hok. mbeta. rewrite arg_update_last.
  destruct value as [x|v f|x inputs attributes|type input|kind ts]; try done.
  - case_decide.
    + unfold set_f. by rewrite arg_update_last, alter_alter.
    + unfold set_i. by rewrite arg_update_last, alter_alter.
  - destruct kind; try done.
    by rewrite fillArg_list_run, alter_alter.
Qed.

Lemma fill_args_run attributes e nm ops ty ins outs fr n : forall args,
  Forall literals_if_list attributes ->
  fill_args (length ops) attributes
    (Build_DefCompiler e (Build_NetDef nm (ops ++ [Build_OperatorDef ty ins outs args])) fr n) =
  Ok tt (Build_DefCompiler e
           (Build_NetDef nm
              (ops ++ [Build_OperatorDef ty ins outs
                         (args ++ List.map (fun attr => encode attr Argument_new) attributes)]))
           fr n).
Proof.
  unfold fill_args.
  induction attributes as [|attr attributes IH]; intros args Hattrs; simpl.
  - mbeta. by rewrite app_nil_r.
  - apply Forall_cons in Hattrs as [Hattr Hattrs].
    mnorm. rewrite fillArg_run by done. rewrite alter_snoc.
    rewrite IH by done. by rewrite <- app_assoc.
Qed.

Lemma encode_list_split trees : forall a,
  encode_list trees a =
  Build_Argument (arg_name a) (arg_f a) (arg_i a)
    (arg_floats a ++ floats_of trees) (arg_ints a ++ ints_of trees) (arg_n a).
Proof.
  induction trees as [|t trees IH]; intros [name f i floats ints n].
  - simpl. by rewrite !app_nil_r.
  - destruct t as [x|v s|x ins ats|type input|kind ts]; simpl;
      try (rewrite IH; reflexivity).
    unfold floats_of, ints_of. simpl. case_decide; rewrite IH; simpl.
    + by rewrite <- app_assoc.
    + by rewrite <- app_assoc.
Qed.

Lemma fillArg_list_throw k trees e nm ops ty ins outs fr n : forall args,
  ~ Forall is_Const trees ->
  exists c',
    fillArg_list (length ops, k) trees
      (Build_DefCompiler e
         (Build_NetDef nm (ops ++ [Build_OperatorDef ty ins outs args])) fr n) =
    Throw UnsupportedAttribute c'.
Proof.
  induction trees as [|t trees IH]; intros args Hnot.
  - destruct Hnot. constructor.
  - destruct t as [x|v f|x ins0 ats|type input|kind ts];
      try (simpl; mbeta; eexists; reflexivity).
    assert (Hrest : ~ Forall is_Const trees)
      by (intros H; apply Hnot; by constructor).
    simpl. mbeta. case_decide.
    + unfold add_floats. rewrite arg_update_last. by apply IH.
    + unfold add_ints. rewrite arg_update_last. by apply IH.
Qed.

Lemma fillArg_throw k attr e nm ops ty ins outs args fr n :
  ~ literals_if_list attr ->
  exists c',
    fillArg (length ops, k) attr
      (Build_DefCompiler e
         (Build_NetDef nm (ops ++ [Build_OperatorDef ty ins outs args])) fr n) =
    Throw UnsupportedAttribute c'.
Proof.
  destruct attr as [name value]. unfold literals_if_list, fillArg, set_name.
  simpl. intros Hnot. mbeta. rewrite arg_update_last.
  destruct value as [x|v f|x inputs attributes|type input|kind ts];
    try (by destruct Hnot).
  destruct kind; try (by destruct Hnot).
  by apply fillArg_list_throw.
Qed.

Lemma fill_args_throw attributes e nm ops ty ins outs fr n : forall args,
  ~ Forall literals_if_list attributes ->
  exists c',
    fill_args (length ops) attributes
      (Build_DefCompiler e
         (Build_NetDef nm (ops ++ [Build_OperatorDef ty ins outs args])) fr n) =
    Throw UnsupportedAttribute c'.
Proof.
  unfold fill_args.
  induction attributes as [|attr attributes IH]; intros args Hnot; simpl.
  - destruct Hnot. constructor.
  - mnorm. destruct (decide (literals_if_list attr)) as [Hattr|Hattr].
    + rewrite fillArg_run by done. rewrite alter_snoc.
      apply IH. intros H. apply Hnot. by constructor.
    + destruct (fillArg_throw (length args) attr e nm ops ty ins outs
                  (args ++ [Build_Argument "" None None [] [] None]) fr n Hattr)
        as [c' Hc'].
      match goal with
      | |- context [fillArg ?a attr ?st] =>
          destruct (fillArg a attr st) as [[] c1|e1 c1] eqn:Hf;
            pose proof (eq_trans (eq_sym Hf) Hc') as Heq
      end.
      * discriminate Heq.
      * injection Heq as -> ->. by eexists.
Qed.

(** C4, as the code has it.  In a generic call a keyword argument whose
    value is a numeric literal becomes a scalar attribute: a float for the
    suffix f, the double narrowed to float; an integer otherwise, the double
    converted to int64.  One whose value is a list of numeric literals becomes
    a list attribute, its literals of suffix f among the floats and the
    others among the ints.  A value that is neither a literal nor a list is
    not rejected: the call is lowered all the same and the attribute carries
    its name and nothing else.  The only keyword argument that makes the call
    raise is a list holding an element that is not a numeric literal. *)
Theorem C4_keyword_arguments_encoded_not_rejected name inputs attributes values c c1 :
  is_builtin name = false ->
  getValues inputs c = Ok values c1 ->
  (Forall literals_if_list attributes ->
   emit (Apply name inputs attributes) c =
   Ok (length (net_op (cur c1)))
      (emitted c1 (Build_OperatorDef name values [fresh_name (next_fresh c1)]
                     (List.map (fun attr => encode attr Argument_new) attributes)))) /\
  (forall aname v f,
     encode (aname, Const v f) Argument_new =
     if decide (f = "f")
     then Build_Argument aname (Some (double_to_float v)) None [] [] None
     else Build_Argument aname None (Some (double_to_int64 v)) [] [] None) /\
  (forall aname trees,
     encode (aname, Compound TK_LIST trees) Argument_new =
     Build_Argument aname None None (floats_of trees) (ints_of trees) None) /\
  (forall attr,
     (forall v f, snd attr <> Const v f) ->
     (forall trees, snd attr <> Compound TK_LIST trees) ->
     literals_if_list attr /\
     encode attr Argument_new = Build_Argument (fst attr) None None [] [] None) /\
  (~ Forall literals_if_list attributes ->
   exists c',
     emit (Apply name inputs attributes) c = Throw UnsupportedAttribute c').
Proof.
  intros Hname Hvalues. split; [|split; [|split; [|split]]].
  - intros Hattrs. rewrite emit_Apply, Hname. rewrite (bind_Ok _ _ _ _ _ Hvalues).
    destruct c1 as [e [nm ops] fr n]. unfold emitCall, emitted. mnorm.
    rewrite add_inputs_last. mnorm.
    rewrite fill_args_run by done. by mnorm.
  - intros aname v f. unfold encode. simpl. by case_decide.
  - intros aname trees. unfold encode. simpl. by rewrite encode_list_split.
  - intros [aname value] Hc Hl. unfold literals_if_list, encode. simpl in *.
    destruct value as [x|v f|x ins ats|type input|kind ts]; try done.
    + by destruct (Hc v f).
    + destruct kind; try done. by destruct (Hl ts).
  - intros Hnot. rewrite emit_Apply, Hname. rewrite (bind_Ok _ _ _ _ _ Hvalues).
    destruct c1 as [e [nm ops] fr n]. unfold emitCall. mnorm.
    rewrite add_inputs_last. mnorm.
    destruct (fill_args_throw attributes e nm ops name values [fresh_name n] fr (S n)
                [] Hnot) as [c' Hc'].
    rewrite Hc'. by eexists.
Qed.

Lemma C4_witness :
  emit (Apply "Softmax" [Ident "a"] [("axis", Const 1 "i"); ("mode", Ident "c")]) c0 =
  Ok 0
     (emitted c0
        (Build_OperatorDef "Softmax" ["a"] ["$t0"]
           [Build_Argument "axis" None (Some 1%Z) [] [] None;
            Build_Argument "mode" None None [] [] None])).
Proof.
  apply (C4_keyword_arguments_encoded_not_rejected "Softmax" [Ident "a"]
           [("axis", Const 1 "i"); ("mode", Ident "c")] ["a"] c0 c0).
  - reflexivity.
  - reflexivity.
  - repeat constructor.
Defined.

(** C4 as stated fails: a keyword argument whose value is an identifier,
    neither a numeric scalar nor a numeric list, raises nothing. *)
Lemma C4_counterexample :
  emit (Apply "Softmax" [Ident "a"] [("mode", Ident "c")]) c0 =
  Ok 0
     (emitted c0
        (Build_OperatorDef "Softmax" ["a"] ["$t0"]
           [Build_Argument "mode" None None [] [] None])).
Proof. reflexivity. Qed.

(** *** Arity of the built-ins *)

Lemma getValues_length trees : forall c values c',
  getValues trees c = Ok values c' -> length values = length trees.
Proof.
  induction trees as [|t trees IH]; intros c values c' Hrun.
  - rewrite getValues_nil in Hrun. by simplify_eq.
  - rewrite getValues_cons in Hrun.
    apply bind_Ok_inv in Hrun as (v1 & c1 & Hv1 & Hrun).
    apply bind_Ok_inv in Hrun as (vs & c2 & Hvs & Hrun).
    revert Hrun. mbeta. intros Hrun. simplify_eq. simpl. f_equal. by eapply IH.
Qed.

Lemma find_not_shape attributes :
  Forall named_shape attributes ->
  find (fun a => negb (String.eqb (fst a) "shape")) attributes = None.
Proof.
  induction 1 as [|a attributes Ha _ IH]; [done|].
  simpl. unfold named_shape in Ha. rewrite Ha. by simpl.
Qed.

Lemma emitFill_arity builtin_type values attributes c :
  Forall named_shape attributes ->
  1 < length values \/
  ((builtin_type = "zeros" \/ builtin_type = "ones") /\
     length values <> 1 /\ attributes = []) \/
  (~ (builtin_type = "zeros" \/ builtin_type = "ones") /\ length values <> 1) ->
  emitFill builtin_type values attributes c =
  Throw (IntrinsicArityError builtin_type) c.
Proof.
  intros Hattrs Hcase. unfold emitFill. mbeta.
  case_decide; [done|].
  rewrite check_shape_only_run, find_not_shape by done.
  destruct Hcase as [?|[(Hb & Hv & ->)|(Hb & Hv)]]; [lia|..].
  - rewrite decide_True by done. by rewrite decide_True by done.
  - rewrite decide_False by done. by rewrite decide_True by done.
Qed.

Lemma emitFill_too_many builtin_type values attributes c :
  1 < length values ->
  emitFill builtin_type values attributes c =
  Throw (IntrinsicArityError builtin_type) c.
Proof. intros Hlen. unfold emitFill. mbeta. by rewrite decide_True by done. Qed.


Lemma emitFill_operand_run builtin_type value0 attributes e nm ops fr n :
  Forall named_shape attributes ->
  emitFill builtin_type [value0] attributes
    (Build_DefCompiler e (Build_NetDef nm ops) fr n) =
  Ok (length ops)
     (Build_DefCompiler e
        (Build_NetDef nm
           (ops ++
            [Build_OperatorDef "ConstantFill" [value0] [fresh_name n]
               [Build_Argument "input_as_shape" None
                  (Some (if contains builtin_type "_like" then 0%Z else 1%Z))
                  [] [] None;
                Build_Argument "value"
                  (Some (if contains builtin_type "ones" then 1%float else 0%float))
                  None [] [] None]]))
        fr (S n)).
Proof.
  intros Hattrs. unfold emitFill. mbeta.
  rewrite decide_False by (simpl; lia).
  rewrite check_shape_only_run, find_not_shape by done.
  assert (forall (k : M OpPtr) c,
    match
      (if decide (builtin_type = "zeros" ∨ builtin_type = "ones") then
         if decide (length [value0] ≠ 1 ∧ false || nonempty attributes = false)
         then fun c => Throw (IntrinsicArityError builtin_type) c
         else fun c => Ok tt c
       else
         if decide (length [value0] ≠ 1)
         then fun c => Throw (IntrinsicArityError builtin_type) c
         else fun c => Ok tt c) c
    with
    | Ok _ c1 => k c1
    | Throw err c1 => Throw err c1
    end = k c) as ->.
  { intros k c. simpl. repeat case_decide; tauto. }
  mnorm.
  by destruct (contains builtin_type "_like"), (contains builtin_type "ones"); mnorm.
Qed.



Lemma emitFill_shape_run builtin_type shape more e nm ops fr n :
  builtin_type = "zeros" \/ builtin_type = "ones" ->
  literals_if_list ("shape", shape) ->
  Forall named_shape more ->
  emitFill builtin_type [] (("shape", shape) :: more)
    (Build_DefCompiler e (Build_NetDef nm ops) fr n) =
  Ok (length ops)
     (Build_DefCompiler e
        (Build_NetDef nm
           (ops ++
            [Build_OperatorDef "ConstantFill" [] [fresh_name n]
               [ encode ("shape", shape) Argument_new;
                 Build_Argument "value"
                   (Some (if decide (builtin_type = "ones") then 1%float else 0%float))
                   None [] [] None ]]))
        fr (S n)).
Proof.
  intros Hb Hshape Hmore.
  unfold emitFill. mbeta. rewrite decide_False by (simpl; lia).
  rewrite check_shape_only_run. simpl find. rewrite find_not_shape by done.
  rewrite decide_True by done.
  rewrite decide_False by (simpl; intros [_ H]; discriminate H).
  mnorm. rewrite fillArg_run by done.
  destruct Hb as [-> | ->]; by mnorm.
Qed.

Lemma emitFill_shape_throw builtin_type shape more e nm ops fr n :
  builtin_type = "zeros" \/ builtin_type = "ones" ->
  ~ literals_if_list ("shape", shape) ->
  Forall named_shape more ->
  exists c',
    emitFill builtin_type [] (("shape", shape) :: more)
      (Build_DefCompiler e (Build_NetDef nm ops) fr n) =
    Throw UnsupportedAttribute c'.
Proof.
  intros Hb Hshape Hmore.
  unfold emitFill. mbeta. rewrite decide_False by (simpl; lia).
  rewrite check_shape_only_run. simpl find. rewrite find_not_shape by done.
  rewrite decide_True by done.
  rewrite decide_False by (simpl; intros [_ H]; discriminate H).
  mnorm.
  destruct (fillArg_throw 0 ("shape", shape) e nm ops "ConstantFill" [] []
              [Build_Argument "" None None [] [] None] fr n Hshape)
    as [c' Hc'].
  match goal with
  | |- context [fillArg ?a ?attr ?st] =>
      destruct (fillArg a attr st) as [[] c1|e1 c1] eqn:Hf;
        pose proof (eq_trans (eq_sym Hf) Hc') as Heq
  end.
  - discriminate Heq.
  - injection Heq as -> ->. by eexists.
Qed.




(** ** Assignment *)

Lemma getValues_pair x e c vx ve c1 :
  env c !! x = Some vx ->
  getValue e c = Ok ve c1 ->
  getValues [Ident x; e] c = Ok [vx; ve] c1.
Proof.
  intros Hx He. rewrite !getValues_cons. mbeta.
  rewrite (getValue_Ident _ _ _ Hx), He. by rewrite getValues_nil.
Qed.

(** C7: a compound assignment with more than one target raises
    MultiTargetReductionError and leaves the compiler object as it was; with
    the one target [x], [x += e] appends, after the operations of [e], a
    single Add operation whose inputs are the value [x] is bound to and the
    value of [e], and whose output is the name [x] is rebound to ([x]
    itself, or a fresh name when [x] is the discard identifier). *)
Theorem C7_reduction_assignment :
  (forall idents reduction rhs c,
      reduction <> K_assign ->
      1 < length idents ->
      emitAssignment idents reduction rhs c = Throw MultiTargetReductionError c) /\
  (forall x e c vx ve c1,
      env c !! x = Some vx ->
      getValue e c = Ok ve c1 ->
      let name := if decide (x = "_") then fresh_name (S (next_fresh c1)) else x in
      emitAssignment [x] K_plus e c =
      Ok tt
         (Build_DefCompiler (<[x:=name]> (env c1))
            (Build_NetDef (net_name (cur c1))
               (net_op (cur c1) ++
                [Build_OperatorDef "Add" [vx; ve] [name]
                   [Build_Argument "broadcast" None (Some 1%Z) [] [] None]]))
            (enclosing c1)
            (if decide (x = "_") then S (S (next_fresh c1)) else S (next_fresh c1)))).
Proof.
  split.
  - intros idents reduction rhs c Hred Hlen. unfold emitAssignment.
    rewrite decide_True by done. rewrite decide_True by lia. by mbeta.
  - intros x e c vx ve c1 Hx He name. unfold emitAssignment.
    rewrite decide_True by done. rewrite decide_False by (simpl; lia).
    assert (Hemit : emit (Compound K_plus [Ident x; e]) c =
                    emitOperator K_plus 2 [vx; ve] c1).
    { rewrite emit_Compound. simpl.
      by rewrite (bind_Ok _ _ _ _ _ (getValues_pair _ _ _ _ _ _ Hx He)). }
    destruct c1 as [e1 [nm1 ops1] fr1 n1].
    rewrite emitOperator_run in Hemit by done.
    mbeta. rewrite Hemit. unfold widen_outputs. mnorm.
    subst name. by destruct (decide (x = "_")); mnorm.
Qed.

Lemma C7_witness :
  emitAssignment ["a"; "c"] K_plus (Const 1 "i") c0 = Throw MultiTargetReductionError c0 /\
  emitAssignment ["a"] K_plus (Const 1 "i") c0 =
  Ok tt
     (Build_DefCompiler (<["a":="a"]> (env c0))
        (Build_NetDef ""
           [ const_op 1 "$t0" "i";
             Build_OperatorDef "Add" ["a"; "$t0"] ["a"]
               [Build_Argument "broadcast" None (Some 1%Z) [] [] None] ])
        [] 2).
Proof.
  destruct C7_reduction_assignment as [Hmany Hone]. split.
  - apply Hmany; [done|simpl; lia].
  - apply (Hone "a" (Const 1 "i") c0 "a" "$t0"
             (Build_DefCompiler (env c0) (Build_NetDef "" [const_op 1 "$t0" "i"]) [] 1)).
    + reflexivity.
    + reflexivity.
Defined.

(** *** The targets of an assignment *)

Lemma insert_middle {A : Type} (pre : list A) (x y : A) (post : list A) :
  <[length pre:=x]> (pre ++ y :: post) = pre ++ x :: post.
Proof.
  replace (length pre) with (length pre + 0) by lia.
  by rewrite insert_app_r.
Qed.

Lemma bind_targets_run idents nm ops ty ins args fr :
  forall pre mid post env0 n,
    length mid = length idents ->
    bind_targets (length ops) idents (length pre)
      (Build_DefCompiler env0
         (Build_NetDef nm (ops ++ [Build_OperatorDef ty ins (pre ++ mid ++ post) args]))
         fr n) =
    Ok tt
       (Build_DefCompiler (bind_env idents n env0)
          (Build_NetDef nm
             (ops ++ [Build_OperatorDef ty ins (pre ++ target_names idents n ++ post) args]))
          fr (n + discards idents)).
Proof.
  induction idents as [|ident idents IH]; intros pre mid post env0 n Hlen.
  - destruct mid; [|done]. simpl. mbeta. by rewrite Nat.add_0_r.
  - destruct mid as [|m mid]; [done|]. simpl in Hlen.
    simpl. destruct (decide (ident = "_")) as [->|Hid].
    + mnorm. rewrite insert_middle.
      specialize (IH (pre ++ [fresh_name n]) mid post (<["_":=fresh_name n]> env0) (S n)).
      rewrite length_app, <- !app_assoc in IH. simpl in IH.
      rewrite Nat.add_1_r in IH. rewrite IH by lia.
      by rewrite Nat.add_succ_r.
    + mnorm. rewrite insert_middle.
      specialize (IH (pre ++ [ident]) mid post (<[ident:=ident]> env0) n).
      rewrite length_app, <- !app_assoc in IH. simpl in IH.
      rewrite Nat.add_1_r in IH. by rewrite IH by lia.
Qed.

Lemma widen_outputs_run m e nm ops ty ins outs args fr n :
  widen_outputs (length ops) m
    (Build_DefCompiler e (Build_NetDef nm (ops ++ [Build_OperatorDef ty ins outs args])) fr n) =
  Ok tt
     (Build_DefCompiler e
        (Build_NetDef nm
           (ops ++ [Build_OperatorDef ty ins (outs ++ replicate (m - length outs) "") args]))
        fr n).
Proof.
  unfold widen_outputs. mnorm.
  generalize (m - length outs) as k. intros k. revert outs.
  induction k as [|k IH]; intros outs; simpl.
  - mbeta. by rewrite app_nil_r.
  - mnorm. rewrite IH. by rewrite <- app_assoc.
Qed.

Lemma assign_targets_run idents e nm ops ty ins t args fr n :
  (widen_outputs (length ops) (length idents);; bind_targets (length ops) idents 0)
    (Build_DefCompiler e (Build_NetDef nm (ops ++ [Build_OperatorDef ty ins [t] args])) fr n) =
  Ok tt
     (Build_DefCompiler (bind_env idents n e)
        (Build_NetDef nm
           (ops ++ [Build_OperatorDef ty ins (assigned_outputs idents t n) args]))
        fr (n + discards idents)).
Proof.
  mbeta. rewrite widen_outputs_run. simpl.
  destruct idents as [|ident idents].
  - simpl. mbeta. by rewrite Nat.add_0_r.
  - replace (t :: replicate (length (ident :: idents) - 1) "")
      with ([] ++ (t :: replicate (length idents) "") ++ [])
      by (simpl; by rewrite Nat.sub_0_r, app_nil_r).
    rewrite (bind_targets_run (ident :: idents) nm ops ty ins args fr []).
    + unfold assigned_outputs. by rewrite app_nil_r.
    + simpl. by rewrite length_replicate.
Qed.

Lemma emitAssignment_emit idents reduction rhs c op c1 :
  (if decide (reduction ≠ K_assign) then
     (if decide (length idents ≠ 1) then throw MultiTargetReductionError
      else mret tt : M unit);;
     match idents with
     | lhs :: _ => emit (Compound reduction [Ident lhs; rhs])
     | [] => throw IndexOutOfRange
     end
   else emit rhs) c = Ok op c1 ->
  exists t, emit t c = Ok op c1.
Proof.
  case_decide; [|by exists rhs].
  mbeta. case_decide; [raised|].
  destruct idents as [|lhs idents]; [raised|]. by eexists.
Qed.

Lemma emitAssignment_Ok_inv idents reduction rhs e nm ops fr n c' :
  emitAssignment idents reduction rhs
    (Build_DefCompiler e (Build_NetDef nm ops) fr n) = Ok tt c' ->
  exists new ty ins args,
    flat_fresh n new /\ Forall no_net args /\
    c' = Build_DefCompiler (bind_env idents (n + S (length new)) e)
           (Build_NetDef nm
              (ops ++ new ++
               [Build_OperatorDef ty ins
                  (assigned_outputs idents (fresh_name (n + length new))
                     (n + S (length new))) args]))
           fr (n + S (length new) + discards idents).
Proof.
  intros Hrun. unfold emitAssignment in Hrun.
  apply bind_Ok_inv in Hrun as (op & c1 & Hemit & Hrun).
  apply emitAssignment_emit in Hemit as (t & Hemit).
  apply emit_appends in Hemit as (new & o & (-> & Hflat) & ->).
  apply flat_fresh_app in Hflat as (Hnew & Hout & Hargs & _).
  destruct o as [ty ins outs args]. simpl in Hout, Hargs. subst outs.
  rewrite app_assoc, <- length_app in Hrun.
  rewrite assign_targets_run in Hrun. simplify_eq.
  exists new, ty, ins, args. split; [done|]. split; [done|].
  rewrite length_app, <- app_assoc. simpl. by rewrite Nat.add_1_r.
Qed.

(** *** Fresh names *)

Lemma to_string_inj j k : to_string j = to_string k -> j = k.
Proof.
  unfold to_string. intros H.
  assert (Huint : Nat.to_uint j = Nat.to_uint k).
  { apply (f_equal NilEmpty.uint_of_string) in H.
    rewrite !NilEmpty.usu in H. by simplify_eq. }
  apply (f_equal Nat.of_uint) in Huint.
  by rewrite !DecimalNat.Unsigned.of_to in Huint.
Qed.

Lemma fresh_name_inj j k : fresh_name j = fresh_name k -> j = k.
Proof. unfold fresh_name. simpl. intros H. apply to_string_inj. by simplify_eq. Qed.

Lemma target_names_discard idents : forall n i,
  idents !! i = Some "_" ->
  target_names idents n !! i = Some (fresh_name (n + discards (take i idents))).
Proof.
  induction idents as [|ident idents IH]; intros n i Hi; [done|].
  destruct i as [|i]; simpl in *.
  - simplify_eq. simpl. by rewrite Nat.add_0_r.
  - case_decide; simpl; rewrite IH by done; [|done].
    by rewrite Nat.add_succ_r.
Qed.

Lemma discards_take_lt idents : forall i,
  idents !! i = Some "_" -> discards (take i idents) < discards idents.
Proof.
  induction idents as [|ident idents IH]; intros i Hi; [done|].
  destruct i as [|i]; simpl in *.
  - simplify_eq. simpl. lia.
  - specialize (IH i Hi). case_decide; lia.
Qed.

Lemma discards_take_mono idents : forall i j,
  i < j -> idents !! i = Some "_" ->
  discards (take i idents) < discards (take j idents).
Proof.
  induction idents as [|ident idents IH]; intros i j Hij Hi; [done|].
  destruct j as [|j]; [lia|]. destruct i as [|i]; simpl in *.
  - simplify_eq. simpl. lia.
  - assert (Hlt : i < j) by lia. specialize (IH i j Hlt Hi). case_decide; lia.
Qed.

Lemma bind_env_other idents x : forall n e,
  x ∉ idents -> bind_env idents n e !! x = e !! x.
Proof.
  induction idents as [|ident idents IH]; intros n e Hx; [done|].
  apply not_elem_of_cons in Hx as [Hne Hx]. simpl.
  case_decide; rewrite IH by done; by rewrite lookup_insert_ne.
Qed.

Lemma bind_env_discard idents : forall n e,
  "_" ∈ idents ->
  exists i, idents !! i = Some "_" /\
            (forall j, i < j -> idents !! j <> Some "_") /\
            bind_env idents n e !! "_" =
            Some (fresh_name (n + discards (take i idents))).
Proof.
  induction idents as [|ident idents IH]; intros n e Hin.
  - by apply elem_of_nil in Hin.
  - simpl. destruct (decide (ident = "_")) as [->|Hid].
    + destruct (decide ("_" ∈ idents)) as [Hin'|Hnotin].
      * destruct (IH (S n) (<["_":=fresh_name n]> e) Hin')
          as (i & Hi & Hlast & Hb).
        exists (S i). split; [done|]. split.
        { intros [|j] Hj; [lia|]. simpl. apply Hlast. lia. }
        rewrite Hb. simpl. by rewrite Nat.add_succ_r.
      * exists 0. split; [done|]. split.
        { intros [|j] Hj; [lia|]. simpl. intros Hl. apply Hnotin.
          apply list_elem_of_lookup. by exists j. }
        rewrite bind_env_other by done.
        rewrite lookup_insert_eq. simpl. by rewrite Nat.add_0_r.
    + apply elem_of_cons in Hin as [Heq|Hin']; [done|].
      destruct (IH n (<[ident:=ident]> e) Hin') as (i & Hi & Hlast & Hb).
      exists (S i). split; [done|]. split.
      { intros [|j] Hj; [lia|]. simpl. apply Hlast. lia. }
      rewrite Hb. simpl. by rewrite decide_False by done.
Qed.

(** C9, as the code has it: in an assignment every target that is the
    discard identifier gets a fresh output name, a different one at each
    occurrence; but [map] binds the discard identifier to that name like any
    other target, so after the assignment the discard identifier is bound to
    the output name of its last occurrence among the targets, and a later
    reference to it resolves to that name. *)
Theorem C9_discard_fresh_but_bound idents reduction rhs c c' :
  emitAssignment idents reduction rhs c = Ok tt c' ->
  "_" ∈ idents ->
  exists o,
    last (net_op (cur c')) = Some o /\
    (forall i, idents !! i = Some "_" ->
       exists k, next_fresh c <= k < next_fresh c' /\
                 op_output o !! i = Some (fresh_name k)) /\
    (forall i j, i <> j -> idents !! i = Some "_" -> idents !! j = Some "_" ->
       op_output o !! i <> op_output o !! j) /\
    (exists i k,
       idents !! i = Some "_" /\
       (forall j, i < j -> idents !! j <> Some "_") /\
       next_fresh c <= k < next_fresh c' /\
       op_output o !! i = Some (fresh_name k) /\
       env c' !! "_" = Some (fresh_name k) /\
       lookup "_" c' = Ok (fresh_name k) c').
Proof.
  destruct c as [e [nm ops] fr n]. intros Hrun Hin.
  apply emitAssignment_Ok_inv in Hrun
    as (new & ty & ins & args & Hnew & Hargs & ->).
  set (n1 := n + S (length new)).
  assert (Houts : assigned_outputs idents (fresh_name (n + length new)) n1 =
                  target_names idents n1).
  { destruct idents; [|done]. by apply elem_of_nil in Hin. }
  rewrite Houts. eexists. simpl.
  split; [rewrite app_assoc; by apply last_snoc|]. simpl.
  split; [|split].
  - intros i Hi. eexists. split; [|by apply target_names_discard].
    pose proof (discards_take_lt idents i Hi). lia.
  - intros i j Hij Hi Hj.
    rewrite !target_names_discard by done. intros Heq.
    apply (inj Some) in Heq. apply fresh_name_inj in Heq.
    destruct (decide (i < j)) as [Hlt|Hge].
    + pose proof (discards_take_mono idents i j Hlt Hi). lia.
    + assert (Hlt : j < i) by lia.
      pose proof (discards_take_mono idents j i Hlt Hj). lia.
  - destruct (bind_env_discard idents n1 e Hin) as (i & Hi & Hlast & Hb).
    exists i. eexists.
    split; [exact Hi|]. split; [exact Hlast|].
    split; [|split; [|split; [exact Hb|]]].
    + pose proof (discards_take_lt idents i Hi). lia.
    + by apply target_names_discard.
    + unfold lookup. mbeta. simpl. by rewrite Hb.
Qed.

Lemma C9_witness :
  exists o,
    last (net_op (cur (state_of (emitAssignment ["_"; "_"] K_assign
                                   (Apply "Split" [Ident "a"] []) c0)))) = Some o /\
    op_output o = ["$t1"; "$t2"] /\
    env (state_of (emitAssignment ["_"; "_"] K_assign
                     (Apply "Split" [Ident "a"] []) c0)) !! "_" = Some "$t2".
Proof.
  destruct (C9_discard_fresh_but_bound ["_"; "_"] K_assign
              (Apply "Split" [Ident "a"] []) c0
              (state_of (emitAssignment ["_"; "_"] K_assign
                           (Apply "Split" [Ident "a"] []) c0)))
    as (o & Hlast & _).
  - vm_compute. reflexivity.
  - constructor.
  - exists o. split; [exact Hlast|].
    vm_compute in Hlast. injection Hlast as <-. split; reflexivity.
Defined.

(** C9 as stated fails: after [_ = 1] the discard identifier is bound, and
    a later reference to it reads the discarded result. *)
Lemma C9_counterexample :
  let c1 := state_of (emitAssignment ["_"] K_assign (Const 1 "i") c0) in
  emitAssignment ["_"] K_assign (Const 1 "i") c0 = Ok tt c1 /\
  lookup "_" c1 = Ok "$t1" c1 /\
  last (net_op (cur c1)) = Some (const_op 1 "$t1" "i") /\
  last (net_op (cur (state_of
          (emitExpressionStatement (Apply "Print" [Ident "_"] []) c1)))) =
  Some (Build_OperatorDef "Print" ["$t1"] [] []).
Proof. vm_compute. repeat split. Qed.

(** ** Control statements *)

Lemma emitIf_Ok_inv es cond trueBranch falseBranch e nm ops fr n c' :
  runs_in_frame es trueBranch ->
  runs_in_frame es falseBranch ->
  emitIf_ es cond trueBranch falseBranch
    (Build_DefCompiler e (Build_NetDef nm ops) fr n) = Ok tt c' ->
  exists v new e1 ops1 n1,
    getValue cond (Build_DefCompiler e (Build_NetDef nm ops) fr n) =
      Ok v (Build_DefCompiler e (Build_NetDef nm (ops ++ new)) fr (n + length new)) /\
    flat_fresh n new /\
    es trueBranch
      (pushed e (Build_NetDef nm
                   ((ops ++ new) ++ [Build_OperatorDef "If" [v] [] [net_arg "then_net" []]]))
              (length (ops ++ new)) 0 fr (n + length new)) =
      Ok tt (Build_DefCompiler e1 (Build_NetDef "" ops1)
               (Build_Frame
                  (Build_NetDef nm
                     ((ops ++ new) ++ [Build_OperatorDef "If" [v] [] [net_arg "then_net" []]]))
                  (length (ops ++ new)) 0 :: fr) n1) /\
    match falseBranch with
    | [] =>
        c' = Build_DefCompiler e1
               (Build_NetDef nm
                  ((ops ++ new) ++ [Build_OperatorDef "If" [v] [] [net_arg "then_net" ops1]]))
               fr n1
    | _ :: _ =>
        exists e2 ops2 n2,
          es falseBranch
            (pushed e1
               (Build_NetDef nm
                  ((ops ++ new) ++
                   [Build_OperatorDef "If" [v] []
                      [net_arg "then_net" ops1; net_arg "else_net" []]]))
               (length (ops ++ new)) 1 fr n1) =
            Ok tt (Build_DefCompiler e2 (Build_NetDef "" ops2)
                     (Build_Frame
                        (Build_NetDef nm
                           ((ops ++ new) ++
                            [Build_OperatorDef "If" [v] []
                               [net_arg "then_net" ops1; net_arg "else_net" []]]))
                        (length (ops ++ new)) 1 :: fr) n2) /\
          c' = Build_DefCompiler e2
                 (Build_NetDef nm
                    ((ops ++ new) ++
                     [Build_OperatorDef "If" [v] []
                        [net_arg "then_net" ops1; net_arg "else_net" ops2]]))
                 fr n2
    end.
Proof.
  intros Htrue Hfalse Hrun. unfold emitIf_ in Hrun.
  apply bind_Ok_inv in Hrun as (v & c1 & Hcond & Hrun).
  pose proof Hcond as Hc1.
  apply getValue_appended in Hc1 as (new & (-> & Hnew)); [|apply emit_appends].
  exists v, new.
  revert Hrun. mnorm.
  fold (net_arg "then_net" []).
  fold (pushed e (Build_NetDef nm
                   ((ops ++ new) ++ [Build_OperatorDef "If" [v] [] [net_arg "then_net" []]]))
              (length (ops ++ new)) 0 fr (n + length new)).
  destruct (es trueBranch _) as [[] c2|] eqn:Htb; [|raised].
  pose proof Htb as Hc2. apply Htrue in Hc2 as (e1 & ops1 & n1 & ->).
  simpl in Htb. exists e1, ops1, n1.
  split; [done|]. split; [done|]. split; [done|].
  revert Hrun. mnorm. fold (net_arg "then_net" ops1).
  destruct falseBranch as [|s falseBranch].
  - rewrite decide_False by (simpl; lia). mnorm. intros Hrun. by simplify_eq.
  - rewrite decide_True by (simpl; lia). mnorm.
    fold (net_arg "else_net" []).
    fold (pushed e1
               (Build_NetDef nm
                  ((ops ++ new) ++
                   [Build_OperatorDef "If" [v] []
                      [net_arg "then_net" ops1; net_arg "else_net" []]]))
               (length (ops ++ new)) 1 fr n1).
    destruct (es (s :: falseBranch) _) as [[] c3|] eqn:Hfb; [|raised].
    pose proof Hfb as Hc3. apply Hfalse in Hc3 as (e2 & ops2 & n2 & ->).
    simpl in Hfb. mnorm. intros Hrun. simplify_eq.
    by exists e2, ops2, n2.
Qed.

Lemma fresh_run e nd fr n :
  fresh (Build_DefCompiler e nd fr n) =
  Ok (fresh_name n) (Build_DefCompiler e nd fr (S n)).
Proof. done. Qed.

Lemma emitWhile_Ok_inv es cond body e nm ops fr n c' :
  runs_in_frame es body ->
  emitWhile_ es cond body (Build_DefCompiler e (Build_NetDef nm ops) fr n) = Ok tt c' ->
  let loop_var := fresh_name n in
  let ops0 := ops ++ [const_op 0 loop_var "i"] in
  exists new ty ins args e2 body_ops n2,
    let cond_parent :=
      Build_NetDef nm
        (ops0 ++ [Build_OperatorDef "While" [] [] [net_arg "cond_net" []]]) in
    let cond_ops := new ++ [Build_OperatorDef ty ins [loop_var] args] in
    let body_parent :=
      Build_NetDef nm
        (ops0 ++ [Build_OperatorDef "While" [loop_var] []
                    [net_arg "cond_net" cond_ops; net_arg "loop_net" []]]) in
    emit cond (pushed e cond_parent (length ops0) 0 fr (S n)) =
      Ok (length new)
         (Build_DefCompiler e
            (Build_NetDef ""
               (new ++ [Build_OperatorDef ty ins [fresh_name (S (n + length new))] args]))
            (Build_Frame cond_parent (length ops0) 0 :: fr)
            (S (S (n + length new)))) /\
    flat_fresh (S n) new /\ Forall no_net args /\
    es body (pushed e body_parent (length ops0) 1 fr (S (S (n + length new)))) =
      Ok tt (Build_DefCompiler e2 (Build_NetDef "" body_ops)
               (Build_Frame body_parent (length ops0) 1 :: fr) n2) /\
    c' = Build_DefCompiler e2
           (Build_NetDef nm
              (ops0 ++ [Build_OperatorDef "While" [loop_var] []
                          [net_arg "cond_net" cond_ops; net_arg "loop_net" body_ops]]))
           fr n2.
Proof.
  intros Hbody Hrun loop_var ops0. revert Hrun. unfold emitWhile_.
  rewrite (bind_Ok _ _ _ _ _ (fresh_run e (Build_NetDef nm ops) fr n)).
  assert (Hknown : known_type_ident "i") by (right; right; by right).
  rewrite (bind_Ok _ _ _ _ _ (emitConst_known 0 (fresh_name n) "i" e nm ops fr (S n) Hknown)).
  fold loop_var. fold ops0. clearbody ops0. mnorm.
  fold (net_arg "cond_net" []).
  fold (pushed e
          (Build_NetDef nm
             (ops0 ++ [Build_OperatorDef "While" [] [] [net_arg "cond_net" []]]))
          (length ops0) 0 fr (S n)).
  destruct (emit cond _) as [cond_op c1|] eqn:Hcond; [|raised].
  pose proof Hcond as Hc1.
  apply emit_appends in Hc1 as (new & o & (-> & Hflat) & ->).
  apply flat_fresh_app in Hflat as (Hnew & Hout & Hargs & _).
  destruct o as [ty ins outs args]. simpl in Hout, Hargs. subst outs.
  simpl in Hcond. rewrite length_app, Nat.add_1_r, Nat.add_succ_r in Hcond.
  simpl. rewrite length_app, Nat.add_1_r, Nat.add_succ_r. mnorm.
  destruct (es body _) as [[] c2|] eqn:Hb; [|raised].
  pose proof Hb as Hc2. apply Hbody in Hc2 as (e2 & body_ops & n2 & ->).
  simpl in Hb. mnorm. intros Hrun. simplify_eq.
  by exists new, ty, ins, args, e2, body_ops, n2.
Qed.

Lemma emitStatements_nil c : emitStatements [] c = Ok tt c.
Proof. done. Qed.

Lemma emitStatements_cons stmt stmts :
  emitStatements (stmt :: stmts) = (emitStatement stmt;; emitStatements stmts).
Proof. done. Qed.

Lemma emitStatement_If cond trueBranch falseBranch :
  emitStatement (If cond trueBranch falseBranch) =
  emitIf cond trueBranch falseBranch.
Proof. unfold emitIf, emitStatements. reflexivity. Qed.

Lemma emitStatement_While cond body :
  emitStatement (While cond body) = emitWhile cond body.
Proof. unfold emitWhile, emitStatements. reflexivity. Qed.

Lemma emitIf_eq : emitIf = emitIf_ emitStatements.
Proof. reflexivity. Qed.

Lemma emitWhile_eq : emitWhile = emitWhile_ emitStatements.
Proof. reflexivity. Qed.

Lemma emitStatement_Assign idents reduction rhs :
  emitStatement (Assign idents reduction rhs) = emitAssignment idents reduction rhs.
Proof. reflexivity. Qed.

Lemma emitStatement_ExprStmt t :
  emitStatement (ExprStmt t) = emitExpressionStatement t.
Proof. reflexivity. Qed.

Lemma emitExpressionStatement_Ok_inv t e nm ops fr n c' :
  emitExpressionStatement t (Build_DefCompiler e (Build_NetDef nm ops) fr n) = Ok tt c' ->
  exists new ty ins args,
    flat_fresh n new /\ Forall no_net args /\
    c' = Build_DefCompiler e
           (Build_NetDef nm (ops ++ new ++ [Build_OperatorDef ty ins [] args]))
           fr (n + S (length new)).
Proof.
  intros Hrun. unfold emitExpressionStatement in Hrun.
  apply bind_Ok_inv in Hrun as (op & c1 & Hemit & Hrun).
  apply emit_appends in Hemit as (new & o & (-> & Hflat) & ->).
  apply flat_fresh_app in Hflat as (Hnew & Hout & Hargs & _).
  destruct o as [ty ins outs args]. simpl in Hout, Hargs. subst outs.
  rewrite app_assoc, <- length_app in Hrun.
  unfold clear_output in Hrun. rewrite op_update_last in Hrun. simplify_eq.
  exists new, ty, ins, args. split; [done|]. split; [done|].
  rewrite length_app, <- app_assoc. simpl. by rewrite Nat.add_1_r.
Qed.

Lemma runs_in_frame_Forall stmts :
  Forall stmt_in_frame stmts -> runs_in_frame emitStatements stmts.
Proof.
  induction 1 as [|s stmts Hs _ IH]; intros e nm ops fr n c' Hrun.
  - rewrite emitStatements_nil in Hrun. simplify_eq.
    exists e, [], n. by rewrite app_nil_r.
  - rewrite emitStatements_cons in Hrun.
    apply bind_Ok_inv in Hrun as ([] & c1 & Hs1 & Hrun).
    apply Hs in Hs1 as (e1 & new1 & n1 & ->).
    apply IH in Hrun as (e2 & new2 & n2 & ->).
    exists e2, (new1 ++ new2), n2. by rewrite app_assoc.
Qed.

Lemma emitStatement_in_frame s : stmt_in_frame s.
Proof.
  induction s as [cond tb fb IHt IHf|cond body IHb|idents reduction rhs|t]
    using Stmt_ind'; intros e nm ops fr n c' Hrun.
  - rewrite emitStatement_If, emitIf_eq in Hrun.
    apply emitIf_Ok_inv in Hrun
      as (v & new & e1 & ops1 & n1 & _ & _ & _ & Hc'); [|by apply runs_in_frame_Forall..].
    destruct fb as [|s fb].
    + subst c'. eexists _, _, _. by rewrite <- app_assoc.
    + destruct Hc' as (e2 & ops2 & n2 & _ & ->).
      eexists _, _, _. by rewrite <- app_assoc.
  - rewrite emitStatement_While, emitWhile_eq in Hrun.
    apply emitWhile_Ok_inv in Hrun
      as (new & ty & ins & args & e2 & body_ops & n2 & _ & _ & _ & _ & ->);
      [|by apply runs_in_frame_Forall].
    eexists _, _, _. by rewrite <- !app_assoc.
  - rewrite emitStatement_Assign in Hrun.
    apply emitAssignment_Ok_inv in Hrun as (new & ty & ins & args & _ & _ & ->).
    by eexists _, _, _.
  - rewrite emitStatement_ExprStmt in Hrun.
    apply emitExpressionStatement_Ok_inv in Hrun as (new & ty & ins & args & _ & _ & ->).
    by eexists _, _, _.
Qed.

Lemma emitStatements_in_frame stmts : runs_in_frame emitStatements stmts.
Proof.
  apply runs_in_frame_Forall, Forall_forall. intros s _. apply emitStatement_in_frame.
Qed.

Lemma const_op_zero_i output :
  const_op 0 output "i" =
  Build_OperatorDef "ConstantFill" [] [output]
    [ Build_Argument "dtype" None (Some TensorProto_DataType_INT32) [] [] None;
      Build_Argument "value" None (Some 0%Z) [] [] None;
      Build_Argument "shape" None None [] [1%Z] None ].
Proof. reflexivity. Qed.

(** C6: where the lowering of a while statement returns, it has appended
    to the current net exactly two operations: a ConstantFill of the int32
    value 0 whose output is the loop-control name, a fresh name; and, after
    it, one While operation whose only input is that name, with a cond_net
    argument and a loop_net argument.  The cond_net holds the lowering of the
    condition in an empty net, the output of its last operation overwritten
    with the loop-control name; the loop_net holds the lowering of the body
    in an empty net. *)
Theorem C6_while_shape cond body c c' :
  emitWhile cond body c = Ok tt c' ->
  exists cond_ops cond_final body_ops,
    net_op (cur c') =
      net_op (cur c) ++
      [ Build_OperatorDef "ConstantFill" [] [fresh_name (next_fresh c)]
          [ Build_Argument "dtype" None (Some TensorProto_DataType_INT32) [] [] None;
            Build_Argument "value" None (Some 0%Z) [] [] None;
            Build_Argument "shape" None None [] [1%Z] None ];
        Build_OperatorDef "While" [fresh_name (next_fresh c)] []
          [ net_arg "cond_net" (cond_ops ++ [cond_final]);
            net_arg "loop_net" body_ops ] ] /\
    op_output cond_final = [fresh_name (next_fresh c)] /\
    (exists c_in op o c_out,
        cur c_in = NetDef_new /\ env c_in = env c /\
        next_fresh c_in = S (next_fresh c) /\
        emit cond c_in = Ok op c_out /\
        net_op (cur c_out) = cond_ops ++ [o] /\
        cond_final = op_set_output 0 (fresh_name (next_fresh c)) o /\
        exists b_in b_out,
          cur b_in = NetDef_new /\ env b_in = env c_out /\
          next_fresh b_in = next_fresh c_out /\
          emitStatements body b_in = Ok tt b_out /\
          net_op (cur b_out) = body_ops /\
          env c' = env b_out /\ next_fresh c' = next_fresh b_out).
Proof.
  destruct c as [e [nm ops] fr n]. intros Hrun. rewrite emitWhile_eq in Hrun.
  destruct (emitWhile_Ok_inv _ _ _ _ _ _ _ _ _ (emitStatements_in_frame body) Hrun)
    as (new & ty & ins & args & e2 & body_ops & n2 & Hcond & _ & _ & Hbody & Hc').
  exists new, (Build_OperatorDef ty ins [fresh_name n] args), body_ops.
  split; [|split; [done|]].
  - rewrite Hc'. simpl. rewrite <- app_assoc. by rewrite const_op_zero_i.
  - eexists _, _, _, _. split; [|split; [|split; [|split; [exact Hcond|]]]];
      [done..|].
    split; [done|]. split; [done|].
    eexists _, _. split; [|split; [|split; [|split; [exact Hbody|]]]];
      [done..|].
    rewrite Hc'. done.
Qed.

Lemma C6_witness :
  exists cond_ops cond_final body_ops,
    net_op (cur (state_of
      (emitWhile (Compound K_lt [Ident "a"; Ident "c"])
         [Assign ["a"] K_assign (Compound K_plus [Ident "a"; Const 1 "i"])] c0))) =
      [ Build_OperatorDef "ConstantFill" [] ["$t0"]
          [ Build_Argument "dtype" None (Some TensorProto_DataType_INT32) [] [] None;
            Build_Argument "value" None (Some 0%Z) [] [] None;
            Build_Argument "shape" None None [] [1%Z] None ];
        Build_OperatorDef "While" ["$t0"] []
          [ net_arg "cond_net" (cond_ops ++ [cond_final]);
            net_arg "loop_net" body_ops ] ] /\
    op_output cond_final = ["$t0"].
Proof.
  destruct (C6_while_shape (Compound K_lt [Ident "a"; Ident "c"])
              [Assign ["a"] K_assign (Compound K_plus [Ident "a"; Const 1 "i"])]
              c0
              (state_of
                 (emitWhile (Compound K_lt [Ident "a"; Ident "c"])
                    [Assign ["a"] K_assign (Compound K_plus [Ident "a"; Const 1 "i"])]
                    c0)))
    as (cond_ops & cond_final & body_ops & Hops & Hout & _).
  - vm_compute. reflexivity.
  - exists cond_ops, cond_final, body_ops. split; [exact Hops|exact Hout].
Defined.

(** ** Identifiers *)

Lemma emit_Ident_run x v e nm ops fr n :
  e !! x = Some v ->
  emit (Ident x) (Build_DefCompiler e (Build_NetDef nm ops) fr n) =
  Ok (length ops)
     (Build_DefCompiler e
        (Build_NetDef nm (ops ++ [Build_OperatorDef "Copy" [v] [fresh_name n] []]))
        fr (S n)).
Proof. intros Hx. simpl. unfold lookup. mnorm. rewrite Hx. by mnorm. Qed.

Lemma getValues_Idents xs : forall vs c,
  Forall2 (fun x v => env c !! x = Some v) xs vs ->
  getValues (Ident <$> xs) c = Ok vs c.
Proof.
  induction xs as [|x xs IH]; intros vs c Hxs.
  - apply Forall2_nil_inv_l in Hxs as ->. apply getValues_nil.
  - apply Forall2_cons_inv_l in Hxs as (v & vs' & Hx & Hxs & ->).
    rewrite fmap_cons, getValues_cons.
    rewrite (bind_Ok _ _ _ _ _ (getValue_Ident _ _ _ Hx)).
    by rewrite (bind_Ok _ _ _ _ _ (IH _ _ Hxs)).
Qed.

(** C3, as the code has it.  An identifier that is an operand is resolved
    through the environment and no operation is emitted for it: its value is
    the identifier's current binding, and the compiler object is untouched.
    So the binding itself is the input of the operator, the call or the cast
    the identifier is an operand of, and of the If operation whose condition
    it is.  Only an identifier handed to [emit] is lowered to a Copy of its
    binding, and the fresh name [emit] gives that Copy as its output does not
    stay: where the identifier is the right-hand side of a plain assignment
    the outputs of the Copy become the names of the targets, where it is the
    condition of a while the output becomes the loop-control name, and where
    it is an expression statement the Copy is left with no output. *)
Theorem C3_operand_is_binding_copy_only_in_emit x c v :
  env c !! x = Some v ->
  getValue (Ident x) c = Ok v c /\
  (forall xs vs,
      Forall2 (fun x v => env c !! x = Some v) xs vs ->
      getValues (Ident <$> xs) c = Ok vs c) /\
  (forall trees values c' i,
      getValues trees c = Ok values c' ->
      trees !! i = Some (Ident x) ->
      values !! i = Some v) /\
  (forall kind trees values c1 i,
      is_operator kind = true ->
      getValues trees c = Ok values c1 ->
      trees !! i = Some (Ident x) ->
      values !! i = Some v /\
      emit (Compound kind trees) c =
      Ok (length (net_op (cur c1)))
         (emitted c1
            (Build_OperatorDef (operator_type kind (length trees)) values
               [fresh_name (next_fresh c1)]
               [Build_Argument "broadcast" None (Some 1%Z) [] [] None]))) /\
  (forall name inputs attributes op c' i,
      emit (Apply name inputs attributes) c = Ok op c' ->
      inputs !! i = Some (Ident x) ->
      exists o, last (net_op (cur c')) = Some o /\ op_input o !! i = Some v) /\
  (forall type op c',
      emit (Cast type (Ident x)) c = Ok op c' ->
      exists z,
        c' = emitted c
               (Build_OperatorDef "Cast" [v] [fresh_name (next_fresh c)]
                  [Build_Argument "to" None (Some z) [] [] None])) /\
  (forall trueBranch falseBranch c',
      emitIf (Ident x) trueBranch falseBranch c = Ok tt c' ->
      exists args,
        net_op (cur c') =
        net_op (cur c) ++ [Build_OperatorDef "If" [v] [] args]) /\
  emit (Ident x) c =
    Ok (length (net_op (cur c)))
       (emitted c (Build_OperatorDef "Copy" [v] [fresh_name (next_fresh c)] [])) /\
  (forall idents,
      idents <> [] ->
      emitAssignment idents K_assign (Ident x) c =
      Ok tt
         (Build_DefCompiler (bind_env idents (S (next_fresh c)) (env c))
            (Build_NetDef (net_name (cur c))
               (net_op (cur c) ++
                [Build_OperatorDef "Copy" [v]
                   (target_names idents (S (next_fresh c))) []]))
            (enclosing c) (S (next_fresh c) + discards idents))) /\
  emitExpressionStatement (Ident x) c =
    Ok tt (emitted c (Build_OperatorDef "Copy" [v] [] [])) /\
  (forall body c',
      emitWhile (Ident x) body c = Ok tt c' ->
      exists body_ops,
        net_op (cur c') =
        net_op (cur c) ++
        [ const_op 0 (fresh_name (next_fresh c)) "i";
          Build_OperatorDef "While" [fresh_name (next_fresh c)] []
            [ net_arg "cond_net"
                [Build_OperatorDef "Copy" [v] [fresh_name (next_fresh c)] []];
              net_arg "loop_net" body_ops ] ]).
Proof.
  intros Hx.
  split; [by apply getValue_Ident|].
  split; [intros xs vs; by apply getValues_Idents|].
  split; [|split; [|split; [|split; [|split; [|split; [|split; [|split]]]]]]].
  - intros trees values c' i Hrun Hi.
    by rewrite (getValues_Ident_value _ _ _ _ _ _ Hrun Hi).
  - intros kind trees values c1 i Hkind Hvalues Hi.
    split; [by rewrite (getValues_Ident_value _ _ _ _ _ _ Hvalues Hi)|].
    rewrite emit_Compound, Hkind, (bind_Ok _ _ _ _ _ Hvalues).
    destruct c1 as [e [nm ops] fr n]. by rewrite emitOperator_run.
  - intros name inputs attributes op c' i Hrun Hi.
    rewrite emit_Apply in Hrun. destruct (is_builtin name).
    + rewrite emitFillOp_eq in Hrun.
      apply bind_Ok_inv in Hrun as (values & c1 & Hvalues & Hrun).
      pose proof (getValues_Ident_value _ _ _ _ _ _ Hvalues Hi) as Hv.
      rewrite Hx in Hv.
      assert (Hlen : length values <= 1).
      { destruct (decide (1 < length values)) as [Hmany|]; [|lia].
        by rewrite emitFill_too_many in Hrun. }
      assert (i = 0) as ->.
      { apply lookup_lt_Some in Hv. lia. }
      destruct c1 as [e [nm ops] fr n].
      apply emitFill_Ok_inv in Hrun as (_ & args & -> & _).
      eexists. simpl. rewrite last_snoc. split; [done|]. simpl.
      by rewrite lookup_take_lt by lia.
    + apply bind_Ok_inv in Hrun as (values & c1 & Hvalues & Hrun).
      pose proof (getValues_Ident_value _ _ _ _ _ _ Hvalues Hi) as Hv.
      rewrite Hx in Hv. destruct c1 as [e [nm ops] fr n].
      apply emitCall_Ok_inv in Hrun as (_ & args & -> & _).
      eexists. simpl. by rewrite last_snoc.
  - intros type op c' Hrun. simpl in Hrun.
    apply bind_Ok_inv in Hrun as (z & c1 & Htype & Hrun).
    assert (c1 = c) as ->.
    { revert Htype. destruct type; simpl; mbeta; intros Htype; by simplify_eq. }
    fold (getValue (Ident x)) in Hrun.
    rewrite (bind_Ok _ _ _ _ _ (getValue_Ident _ _ _ Hx)) in Hrun.
    exists z. destruct c as [e [nm ops] fr n].
    revert Hrun. mnorm. intros Hrun. by simplify_eq.
  - intros tb fb c' Hrun. destruct c as [e [nm ops] fr n]. simpl in Hx.
    rewrite emitIf_eq in Hrun.
    apply emitIf_Ok_inv in Hrun
      as (v' & new & e1 & ops1 & n1 & Hcond & _ & _ & Hc');
      [|by apply emitStatements_in_frame..].
    rewrite (getValue_Ident x _ v) in Hcond by done.
    injection Hcond as <- Hnew _.
    assert (new = []) as ->.
    { apply (app_inv_head ops). by rewrite app_nil_r. }
    rewrite app_nil_r in Hc'. destruct fb as [|s fb].
    + subst c'. by eexists.
    + destruct Hc' as (e2 & ops2 & n2 & _ & ->). by eexists.
  - destruct c as [e [nm ops] fr n]. by apply emit_Ident_run.
  - intros idents Hsome. destruct c as [e [nm ops] fr n]. simpl in Hx.
    unfold emitAssignment. rewrite decide_False by (by intros H; apply H).
    rewrite (bind_Ok _ _ _ _ _ (emit_Ident_run _ _ _ _ _ _ _ Hx)).
    rewrite assign_targets_run. simpl. by destruct idents.
  - destruct c as [e [nm ops] fr n]. simpl in Hx.
    unfold emitExpressionStatement.
    rewrite (bind_Ok _ _ _ _ _ (emit_Ident_run _ _ _ _ _ _ _ Hx)).
    unfold clear_output. by rewrite op_update_last.
  - intros body c' Hrun. destruct c as [e [nm ops] fr n]. simpl in Hx.
    rewrite emitWhile_eq in Hrun.
    apply emitWhile_Ok_inv in Hrun
      as (new & ty & ins & args & e2 & body_ops & n2 & Hcond & _ & _ & _ & ->);
      [|by apply emitStatements_in_frame].
    unfold pushed in Hcond. rewrite (emit_Ident_run x v) in Hcond by done.
    injection Hcond as Hlen Hops.
    destruct new as [|o new]; [|by destruct new].
    simpl in Hops. rewrite Nat.add_0_r in Hops.
    injection Hops as Hty Hins Hargs. subst ty ins args.
    exists body_ops. simpl. by rewrite <- app_assoc.
Qed.

Lemma C3_witness :
  emit (Compound K_plus [Ident "a"; Ident "c"]) c0 =
    Ok 0 (emitted c0 (Build_OperatorDef "Add" ["a"; "c"] ["$t0"]
                        [Build_Argument "broadcast" None (Some 1%Z) [] [] None])) /\
  emitAssignment ["d"] K_assign (Ident "a") c0 =
    Ok tt
       (Build_DefCompiler (<["d":="d"]> (env c0))
          (Build_NetDef "" [Build_OperatorDef "Copy" ["a"] ["d"] []]) [] 1) /\
  emitExpressionStatement (Ident "a") c0 =
    Ok tt (emitted c0 (Build_OperatorDef "Copy" ["a"] [] [])).
Proof.
  destruct (C3_operand_is_binding_copy_only_in_emit "a" c0 "a")
    as (_ & _ & _ & Hoperator & _ & _ & _ & _ & Hassign & Hstmt & _);
    [reflexivity|].
  split; [|split].
  - apply (Hoperator K_plus [Ident "a"; Ident "c"] ["a"; "c"] c0 0);
      reflexivity.
  - apply (Hassign ["d"]). discriminate.
  - exact Hstmt.
Defined.

(** C3 as stated fails: in [a + 1] the identifier is an operand of an
    operator, no copy is emitted for it, and the operand's value name is the
    identifier's binding. *)
Lemma C3_counterexample :
  env c0 !! "a" = Some "a" /\
  net_op (cur (state_of (emit (Compound K_plus [Ident "a"; Const 1 "i"]) c0))) =
  [ const_op 1 "$t0" "i";
    Build_OperatorDef "Add" ["a"; "$t0"] ["$t1"]
      [Build_Argument "broadcast" None (Some 1%Z) [] [] None] ].
Proof. split; reflexivity. Qed.

(** ** The compilation unit *)

(** C2, as the code has it: [defineFunction] does not roll the registry
    back.  A definition that raises either was a duplicate, and then the
    registry is unchanged; or it raised during lowering, and then the entry
    emplaced under the function's name before lowering began is still there,
    holding the net as far as it was built, while every other entry is
    unchanged. *)
Theorem C2_failed_definition_stays_registered def u e u' :
  defineFunction def u = Raised e u' ->
  (e = DuplicateDefinition (def_name def) /\
   is_Some (functions u !! def_name def) /\ u' = u) \/
  (functions u !! def_name def = None /\
   exists c,
     run def (DefCompiler_new NetDef_new) = Throw e c /\
     functions u' !! def_name def = Some (top_net c) /\
     forall name, name <> def_name def ->
                  functions u' !! name = functions u !! name).
Proof.
  unfold defineFunction. intros Hdef.
  destruct (decide (is_Some (functions u !! def_name def))) as [Hdup|Hnew].
  - left. by simplify_eq.
  - right. split; [by apply eq_None_not_Some|].
    destruct (run def (DefCompiler_new NetDef_new)) as [[] c|e1 c]; [done|].
    simplify_eq. exists c. split; [done|]. simpl. split.
    + by rewrite lookup_insert_eq.
    + intros name Hname. by rewrite lookup_insert_ne.
Qed.

Lemma C2_witness :
  defineFunction def_failing unit_empty =
    Raised (UnboundIdentifier "x") (unit_of (defineFunction def_failing unit_empty)) /\
  functions (unit_of (defineFunction def_failing unit_empty)) !! "f" =
    Some (Build_NetDef "f" [const_op 1 "b" "i"]).
Proof.
  assert (Hraised : defineFunction def_failing unit_empty =
            Raised (UnboundIdentifier "x")
                   (unit_of (defineFunction def_failing unit_empty)))
    by (vm_compute; reflexivity).
  split; [exact Hraised|].
  destruct (C2_failed_definition_stays_registered _ _ _ _ Hraised)
    as [(Hdup & _)|(_ & c & Hrun & Hentry & _)].
  - discriminate Hdup.
  - transitivity (Some (top_net c)); [exact Hentry|]. f_equal.
    assert (Hc : c = state_of (run def_failing (DefCompiler_new NetDef_new)))
      by (by rewrite Hrun).
    rewrite Hc. vm_compute. reflexivity.
Defined.

(** C2 as stated fails: after the failed definition of [f] the registry
    has an entry under [f], holding the operation lowered before the error,
    and a later definition of [f] is refused as a duplicate. *)
Lemma C2_counterexample :
  let u' := unit_of (defineFunction def_failing unit_empty) in
  defineFunction def_failing unit_empty = Raised (UnboundIdentifier "x") u' /\
  functions unit_empty !! "f" = None /\
  functions u' !! "f" = Some (Build_NetDef "f" [const_op 1 "b" "i"]) /\
  defineFunction (Build_Def "f" [] [] []) u' = Raised (DuplicateDefinition "f") u'.
Proof. vm_compute. repeat split. Qed.

(** ** The environment is one flat map *)

Lemma bind_env_grows idents : forall n e x,
  is_Some (e !! x) -> is_Some (bind_env idents n e !! x).
Proof.
  induction idents as [|ident idents IH]; intros n e x Hx; [done|].
  simpl. case_decide; apply IH;
    (destruct (decide (ident = x)) as [->|Hne];
      [by rewrite lookup_insert_eq|by rewrite lookup_insert_ne]).
Qed.

Lemma emitStatements_env_grows_Forall stmts :
  Forall stmt_env_grows stmts ->
  forall c c', emitStatements stmts c = Ok tt c' -> env_grows c c'.
Proof.
  induction 1 as [|s stmts Hs _ IH]; intros c c' Hrun x Hx.
  - rewrite emitStatements_nil in Hrun. by simplify_eq.
  - rewrite emitStatements_cons in Hrun.
    apply bind_Ok_inv in Hrun as ([] & c1 & Hs1 & Hrun).
    eapply IH; [done|]. by eapply Hs.
Qed.

Lemma emitStatement_env_grows s : stmt_env_grows s.
Proof.
  induction s as [cond tb fb IHt IHf|cond body IHb|idents reduction rhs|t]
    using Stmt_ind'; intros [e [nm ops] fr n] c' Hrun x Hx; simpl in Hx.
  - rewrite emitStatement_If, emitIf_eq in Hrun.
    apply emitIf_Ok_inv in Hrun
      as (v & new & e1 & ops1 & n1 & _ & _ & Htb & Hc');
      [|by apply emitStatements_in_frame..].
    apply (emitStatements_env_grows_Forall _ IHt) in Htb.
    specialize (Htb x Hx). simpl in Htb.
    destruct fb as [|s fb]; [by subst c'|].
    destruct Hc' as (e2 & ops2 & n2 & Hfb & ->).
    apply (emitStatements_env_grows_Forall _ IHf) in Hfb.
    by apply (Hfb x).
  - rewrite emitStatement_While, emitWhile_eq in Hrun.
    apply emitWhile_Ok_inv in Hrun
      as (new & ty & ins & args & e2 & body_ops & n2 & _ & _ & _ & Hb & ->);
      [|by apply emitStatements_in_frame].
    apply (emitStatements_env_grows_Forall _ IHb) in Hb.
    by apply (Hb x).
  - rewrite emitStatement_Assign in Hrun.
    apply emitAssignment_Ok_inv in Hrun as (new & ty & ins & args & _ & _ & ->).
    simpl. by apply bind_env_grows.
  - rewrite emitStatement_ExprStmt in Hrun.
    by apply emitExpressionStatement_Ok_inv in Hrun as (new & ty & ins & args & _ & _ & ->).
Qed.

Lemma emitStatements_env_grows stmts c c' :
  emitStatements stmts c = Ok tt c' -> env_grows c c'.
Proof.
  apply emitStatements_env_grows_Forall, Forall_forall.
  intros s _. apply emitStatement_env_grows.
Qed.

(** C5, as the code has it.  Only the stack of nets is pushed and popped
    around the branches of an if and around the condition and the body of a
    while; the environment is one flat map with no frames, and nothing saves
    or restores it.  The true branch of an if is lowered in a new, empty net,
    in the environment of the if and from the counter the condition left; the
    false branch, when there is one, in the environment and from the counter
    the true branch left; the environment after the if is the one the last
    branch left.  The body of a while is lowered in a new, empty net, in the
    environment of the while and from the counter its condition left, and the
    environment after the while is the one the body left.  After either
    statement the stack of enclosing nets is as before.  Lowering statements
    never removes a binding. *)
Theorem C5_flat_environment :
  (forall cond trueBranch falseBranch c c',
      emitIf cond trueBranch falseBranch c = Ok tt c' ->
      enclosing c' = enclosing c /\
      exists v c1 t_in t_out,
        getValue cond c = Ok v c1 /\ env c1 = env c /\
        cur t_in = NetDef_new /\
        length (enclosing t_in) = S (length (enclosing c)) /\
        env t_in = env c /\ next_fresh t_in = next_fresh c1 /\
        emitStatements trueBranch t_in = Ok tt t_out /\
        match falseBranch with
        | [] => env c' = env t_out /\ next_fresh c' = next_fresh t_out
        | _ :: _ =>
            exists f_in f_out,
              cur f_in = NetDef_new /\
              length (enclosing f_in) = S (length (enclosing c)) /\
              env f_in = env t_out /\ next_fresh f_in = next_fresh t_out /\
              emitStatements falseBranch f_in = Ok tt f_out /\
              env c' = env f_out /\ next_fresh c' = next_fresh f_out
        end) /\
  (forall cond body c c',
      emitWhile cond body c = Ok tt c' ->
      enclosing c' = enclosing c /\
      exists c_in op c_out b_in b_out,
        cur c_in = NetDef_new /\
        length (enclosing c_in) = S (length (enclosing c)) /\
        env c_in = env c /\ next_fresh c_in = S (next_fresh c) /\
        emit cond c_in = Ok op c_out /\ env c_out = env c /\
        cur b_in = NetDef_new /\
        length (enclosing b_in) = S (length (enclosing c)) /\
        env b_in = env c /\ next_fresh b_in = next_fresh c_out /\
        emitStatements body b_in = Ok tt b_out /\
        env c' = env b_out /\ next_fresh c' = next_fresh b_out) /\
  (forall stmts c c',
      emitStatements stmts c = Ok tt c' ->
      forall x, is_Some (env c !! x) -> is_Some (env c' !! x)).
Proof.
  split; [|split].
  - intros cond trueBranch falseBranch [e [nm ops] fr n] c' Hrun.
    rewrite emitIf_eq in Hrun.
    apply emitIf_Ok_inv in Hrun
      as (v & new & e1 & ops1 & n1 & Hcond & _ & Htb & Hc');
      [|by apply emitStatements_in_frame..].
    destruct falseBranch as [|s fb].
    + subst c'. split; [done|]. eexists v, _, _, _.
      split; [exact Hcond|].
      split; [|split; [|split; [|split; [|split; [|split; [exact Htb|]]]]]];
        done.
    + destruct Hc' as (e2 & ops2 & n2 & Hfb & ->). split; [done|].
      eexists v, _, _, _.
      split; [exact Hcond|].
      split; [|split; [|split; [|split; [|split; [|split; [exact Htb|]]]]]];
        [done..|].
      eexists _, _.
      split; [|split; [|split; [|split; [|split; [exact Hfb|]]]]]; done.
  - intros cond body [e [nm ops] fr n] c' Hrun.
    rewrite emitWhile_eq in Hrun.
    apply emitWhile_Ok_inv in Hrun
      as (new & ty & ins & args & e2 & body_ops & n2 & Hcond & _ & _ & Hb & ->);
      [|by apply emitStatements_in_frame].
    split; [done|]. eexists _, _, _, _, _.
    split; [|split; [|split; [|split; [|split; [exact Hcond|]]]]]; [done..|].
    split; [done|].
    split; [|split; [|split; [|split; [|split; [exact Hb|]]]]]; done.
  - intros stmts c c' Hrun. exact (emitStatements_env_grows _ _ _ Hrun).
Qed.

Lemma C5_witness :
  enclosing (state_of (emitIf (Ident "c") [Assign ["b"] K_assign (Const 1 "i")]
                         [Assign ["d"] K_assign (Ident "b")] c0)) = enclosing c0 /\
  enclosing (state_of (emitWhile (Ident "c") [Assign ["b"] K_assign (Const 1 "i")]
                         c0)) = enclosing c0 /\
  is_Some (env (state_of (emitStatements if_program c0)) !! "a").
Proof.
  destruct C5_flat_environment as (Hif & Hwhile & Hkept).
  split; [|split].
  - apply (Hif (Ident "c") [Assign ["b"] K_assign (Const 1 "i")]
             [Assign ["d"] K_assign (Ident "b")] c0).
    vm_compute. reflexivity.
  - apply (Hwhile (Ident "c") [Assign ["b"] K_assign (Const 1 "i")] c0).
    vm_compute. reflexivity.
  - apply (Hkept if_program c0).
    + vm_compute. reflexivity.
    + vm_compute. by eexists.
Defined.

(** C5 as stated fails: the true branch rebinds the discard identifier,
    from [$t1] to [$t3], and binds [b], unbound before the [if]; the false
    branch reads [$t3] and [b], and so observes what its sibling did, and the
    statement after the [if] reads [$t3] too. *)
Lemma C5_counterexample :
  env c0 !! "b" = None /\
  returned (emitStatements if_program c0) = true /\
  net_op (top_net (state_of (emitStatements if_program c0))) =
  [ const_op 1 "$t1" "i";
    Build_OperatorDef "If" ["c"] []
      [ net_arg "then_net" [const_op 2 "$t3" "i"; const_op 3 "b" "i"];
        net_arg "else_net"
          [Build_OperatorDef "Add" ["$t3"; "b"] ["d"]
             [Build_Argument "broadcast" None (Some 1%Z) [] [] None]] ];
    Build_OperatorDef "Copy" ["$t3"] ["r"] [] ].
Proof. vm_compute. repeat split. Qed.

(** ** Output names across a function *)

Lemma declared_op_eq own o :
  declared_op own o =
  (if own then op_output o else []) ++ flat_map declared_arg (op_arg o).
Proof.
  destruct o as [ty ins outs args]. simpl. f_equal.
  induction args as [|a args IH]; [done|].
  simpl. rewrite <- IH. f_equal.
  by destruct a as [name f i floats ints [[nm ops]|]].
Qed.

Lemma declared_ops_nil final : declared_ops final [] = [].
Proof. done. Qed.

Lemma declared_ops_cons final o ops :
  declared_ops final (o :: ops) =
  declared_op (match ops with [] => final | _ :: _ => true end) o
  ++ declared_ops final ops.
Proof. done. Qed.

Lemma declared_ops_snoc final ops o :
  declared_ops final (ops ++ [o]) = declared_ops true ops ++ declared_op final o.
Proof.
  induction ops as [|o1 ops IH].
  - change ([] ++ [o]) with [o].
    rewrite declared_ops_cons, !declared_ops_nil. by rewrite app_nil_r.
  - rewrite <- app_comm_cons.
    rewrite !declared_ops_cons, IH, app_assoc. f_equal. f_equal.
    by destruct ops.
Qed.

Lemma declared_ops_app ops1 ops2 :
  declared_ops true (ops1 ++ ops2) = declared_ops true ops1 ++ declared_ops true ops2.
Proof.
  induction ops1 as [|o ops1 IH]; [done|]. rewrite <- app_comm_cons.
  rewrite !declared_ops_cons, IH, app_assoc. f_equal. f_equal.
  by destruct ops1, ops2.
Qed.

Lemma declared_args_no_net args :
  Forall no_net args -> flat_map declared_arg args = [].
Proof.
  induction 1 as [|a args Ha _ IH]; [done|].
  simpl. rewrite IH. unfold declared_arg. by rewrite Ha.
Qed.

Lemma declared_ops_flat n new :
  flat_fresh n new ->
  declared_ops true new = fresh_name <$> seq n (length new).
Proof.
  revert n. induction new as [|o new IH]; intros n Hflat; [done|].
  destruct Hflat as (Hout & Hnn & Hnew).
  rewrite declared_ops_cons, declared_op_eq, (IH _ Hnew).
  rewrite declared_args_no_net by done. rewrite app_nil_r.
  replace (match new with [] => true | _ :: _ => true end) with true
    by (by destruct new).
  by rewrite Hout.
Qed.

Lemma generated_fresh_name k : generated (fresh_name k).
Proof. unfold generated, fresh_name. cbn. by destruct (to_string k). Qed.

Lemma issued_nil n n' : issued n n' [].
Proof. split; [constructor|]. intros x Hx. by apply elem_of_nil in Hx. Qed.

Lemma issued_weaken n1 n2 n n' l :
  issued n1 n2 l -> n <= n1 -> n2 <= n' -> issued n n' l.
Proof.
  intros [Hnd Hr] H1 H2. split; [done|].
  intros x Hx Hg. destruct (Hr x Hx Hg) as (k & Hk & ->). exists k. split; [lia|done].
Qed.

Lemma issued_app n n1 n2 l1 l2 :
  issued n n1 l1 -> issued n1 n2 l2 -> n <= n1 -> n1 <= n2 ->
  issued n n2 (l1 ++ l2).
Proof.
  intros [Hnd1 Hr1] [Hnd2 Hr2] H1 H2. split.
  - rewrite filter_app. apply NoDup_app. split; [done|]. split; [|done].
    intros x Hx1 Hx2.
    apply list_elem_of_filter in Hx1 as [Hg Hx1].
    apply list_elem_of_filter in Hx2 as [_ Hx2].
    destruct (Hr1 x Hx1 Hg) as (k1 & Hk1 & ->).
    destruct (Hr2 _ Hx2 Hg) as (k2 & Hk2 & Heq).
    apply fresh_name_inj in Heq. lia.
  - intros x Hx Hg. apply elem_of_app in Hx as [Hx|Hx].
    + destruct (Hr1 x Hx Hg) as (k & Hk & ->). exists k. split; [lia|done].
    + destruct (Hr2 x Hx Hg) as (k & Hk & ->). exists k. split; [lia|done].
Qed.

Lemma issued_fresh_seq n m : issued n (n + m) (fresh_name <$> seq n m).
Proof.
  revert n. induction m as [|m IH]; intros n; [apply issued_nil|].
  change (issued n (n + S m) ([fresh_name n] ++ (fresh_name <$> seq (S n) m))).
  apply (issued_app n (S n) (n + S m) [fresh_name n] (fresh_name <$> seq (S n) m));
    [|eapply issued_weaken; [apply IH|lia..]|lia..].
  split.
  - rewrite filter_cons_True by apply generated_fresh_name. apply NoDup_singleton.
  - intros x Hx _. apply list_elem_of_singleton in Hx as ->. exists n. split; [lia|done].
Qed.

Lemma issued_flat n new :
  flat_fresh n new -> issued n (n + length new) (declared_ops true new).
Proof. intros Hflat. rewrite (declared_ops_flat _ _ Hflat). apply issued_fresh_seq. Qed.

Lemma issued_cons_user n n' x l :
  user_name x -> issued n n' l -> issued n n' (x :: l).
Proof.
  intros Hx [Hnd Hr]. split.
  - by rewrite filter_cons_False.
  - intros y Hy Hg. apply elem_of_cons in Hy as [->|Hy]; [done|]. by apply Hr.
Qed.

Lemma issued_cons_fresh n n' l :
  issued (S n) n' l -> S n <= n' -> issued n n' (fresh_name n :: l).
Proof.
  intros Hl Hle.
  change (issued n n' ([fresh_name n] ++ l)).
  apply (issued_app n (S n)); [|done|lia..].
  replace (S n) with (n + 1) by lia. apply (issued_fresh_seq n 1).
Qed.

Lemma issued_target_names idents : forall n,
  Forall user_name idents ->
  issued n (n + discards idents) (target_names idents n).
Proof.
  induction idents as [|ident idents IH]; intros n Hidents; [apply issued_nil|].
  apply Forall_cons in Hidents as [Hident Hidents]. simpl.
  case_decide.
  - apply issued_cons_fresh; [|lia].
    replace (n + S (discards idents)) with (S n + discards idents) by lia.
    by apply IH.
  - apply issued_cons_user; [done|]. by apply IH.
Qed.

Lemma issued_assigned_outputs idents n (new : list OperatorDef) :
  Forall user_name idents ->
  issued (n + length new) (n + S (length new) + discards idents)
    (assigned_outputs idents (fresh_name (n + length new)) (n + S (length new))).
Proof.
  intros Hidents. destruct idents as [|ident idents].
  - simpl. eapply issued_weaken; [apply (issued_fresh_seq (n + length new) 1)|lia..].
  - eapply issued_weaken; [by apply issued_target_names|lia..].
Qed.

Lemma declared_op_no_nets own ty ins outs args :
  Forall no_net args ->
  declared_op own (Build_OperatorDef ty ins outs args) = if own then outs else [].
Proof.
  intros Hargs. rewrite declared_op_eq. simpl.
  rewrite declared_args_no_net by done. by rewrite app_nil_r.
Qed.

Lemma emitStatements_issues_Forall stmts :
  Forall stmt_issues stmts ->
  Forall user_name (flat_map targets stmts) ->
  issues (emitStatements stmts).
Proof.
  induction 1 as [|s stmts Hs _ IH]; intros Hu e nm ops fr n c' Hrun.
  - rewrite emitStatements_nil in Hrun. simplify_eq.
    exists e, [], n. rewrite app_nil_r. split; [done|]. split; [lia|].
    apply issued_nil.
  - simpl in Hu. apply Forall_app in Hu as [Hu1 Hu2].
    rewrite emitStatements_cons in Hrun.
    apply bind_Ok_inv in Hrun as ([] & c1 & Hs1 & Hrun).
    apply (Hs Hu1) in Hs1 as (e1 & new1 & n1 & -> & Hn1 & Hi1).
    apply (IH Hu2) in Hrun as (e2 & new2 & n2 & -> & Hn2 & Hi2).
    exists e2, (new1 ++ new2), n2. rewrite app_assoc. split; [done|].
    split; [lia|]. rewrite declared_ops_app.
    apply (issued_app n n1 n2); [done|done|lia..].
Qed.

Lemma issues_pushed es e parent op arg fr n e1 ops1 n1 :
  issues es ->
  es (pushed e parent op arg fr n) =
    Ok tt (Build_DefCompiler e1 (Build_NetDef "" ops1)
             (Build_Frame parent op arg :: fr) n1) ->
  n <= n1 /\ issued n n1 (declared_ops true ops1).
Proof.
  intros Hes Hrun. unfold pushed in Hrun.
  apply Hes in Hrun as (e' & new & n' & Heq & Hn & Hi). by simplify_eq.
Qed.

Lemma emitStatement_issues s : stmt_issues s.
Proof.
  induction s as [cond tb fb IHt IHf|cond body IHb|idents reduction rhs|t]
    using Stmt_ind'; intros Hu e nm ops fr n c' Hrun; simpl in Hu.
  - (* if *)
    apply Forall_app in Hu as [Hut Huf].
    rewrite emitStatement_If, emitIf_eq in Hrun.
    apply emitIf_Ok_inv in Hrun
      as (v & new & e1 & ops1 & n1 & _ & Hnew & Htb & Hc');
      [|by apply emitStatements_in_frame..].
    apply issues_pushed in Htb as [Hn1 Hi1];
      [|by apply emitStatements_issues_Forall].
    pose proof (issued_flat _ _ Hnew) as Hi0.
    destruct fb as [|s fb].
    + subst c'. eexists _, (new ++ [_]), _. rewrite app_assoc.
      split; [done|]. split; [lia|].
      rewrite declared_ops_snoc, declared_op_eq. simpl.
      unfold declared_arg. simpl. rewrite !app_nil_r.
      apply (issued_app n (n + length new) n1); [done|done|lia..].
    + destruct Hc' as (e2 & ops2 & n2 & Hfb & ->).
      apply issues_pushed in Hfb as [Hn2 Hi2];
        [|by apply emitStatements_issues_Forall].
      eexists _, (new ++ [_]), _. rewrite app_assoc.
      split; [done|]. split; [lia|].
      rewrite declared_ops_snoc, declared_op_eq. simpl.
      unfold declared_arg. simpl. rewrite !app_nil_r.
      apply (issued_app n (n + length new) n2); [done| |lia..].
      apply (issued_app _ n1 n2); [done|done|lia..].
  - (* while *)
    rewrite emitStatement_While, emitWhile_eq in Hrun.
    apply emitWhile_Ok_inv in Hrun
      as (new & ty & ins & args & e2 & body_ops & n2 & _ & Hnew & Hargs & Hb & ->);
      [|by apply emitStatements_in_frame].
    apply issues_pushed in Hb as [Hn2 Hi2];
      [|by apply emitStatements_issues_Forall].
    pose proof (issued_flat _ _ Hnew) as Hi0.
    eexists _, [_; _], _. rewrite <- app_assoc.
    split; [done|]. split; [lia|].
    rewrite !declared_ops_cons, declared_ops_nil, app_nil_r.
    rewrite const_op_zero_i.
    rewrite (declared_op_no_nets true "ConstantFill") by (by repeat constructor).
    rewrite declared_op_eq. simpl. unfold declared_arg. simpl.
    rewrite declared_ops_snoc, declared_op_no_nets by done.
    rewrite !app_nil_r.
    apply issued_cons_fresh; [|lia].
    apply (issued_app (S n) (S n + length new) n2); [done| |lia..].
    eapply issued_weaken; [exact Hi2|lia..].
  - (* assignment *)
    rewrite emitStatement_Assign in Hrun.
    apply emitAssignment_Ok_inv in Hrun as (new & ty & ins & args & Hnew & Hargs & ->).
    eexists _, (new ++ [_]), _.
    split; [done|]. split; [lia|].
    rewrite declared_ops_snoc, declared_op_no_nets by done.
    apply (issued_app n (n + length new)); [by apply issued_flat| |lia..].
    by apply issued_assigned_outputs.
  - (* expression statement *)
    rewrite emitStatement_ExprStmt in Hrun.
    apply emitExpressionStatement_Ok_inv in Hrun
      as (new & ty & ins & args & Hnew & Hargs & ->).
    eexists _, (new ++ [_]), _.
    split; [done|]. split; [lia|].
    rewrite declared_ops_snoc, declared_op_no_nets by done. rewrite app_nil_r.
    eapply issued_weaken; [by apply issued_flat|lia..].
Qed.

Lemma emitStatements_issues stmts :
  Forall user_name (flat_map targets stmts) -> issues (emitStatements stmts).
Proof.
  apply emitStatements_issues_Forall, Forall_forall.
  intros s _. apply emitStatement_issues.
Qed.

Lemma all_ops_op_eq o : all_ops_op o = o :: flat_map nested_ops (op_arg o).
Proof.
  destruct o as [ty ins outs args]. simpl. f_equal.
  induction args as [|a args IH]; [done|].
  simpl. rewrite IH. f_equal.
  by destruct a as [name f i floats ints [[nm ops]|]].
Qed.

Lemma all_ops_app ops1 ops2 : all_ops (ops1 ++ ops2) = all_ops ops1 ++ all_ops ops2.
Proof. apply flat_map_app. Qed.

Lemma all_ops_op_no_nets o : no_nets o -> all_ops_op o = [o].
Proof.
  intros Ho. rewrite all_ops_op_eq. f_equal.
  unfold no_nets in Ho. induction Ho as [|a args Ha _ IH]; [done|].
  simpl. rewrite IH. unfold nested_ops. by rewrite Ha.
Qed.

Lemma flat_fresh_no_nets n new : flat_fresh n new -> Forall no_nets new.
Proof.
  revert n. induction new as [|o new IH]; intros n Hflat; [done|].
  destruct Hflat as (_ & Ho & Hnew). constructor; [done|]. by eapply IH.
Qed.

Lemma final_outputs_op_eq o :
  final_outputs_op o = flat_map final_outputs_arg (op_arg o).
Proof.
  destruct o as [ty ins outs args]. simpl.
  induction args as [|a args IH]; [done|].
  simpl. rewrite IH. f_equal.
  destruct a as [name f i floats ints [[nm ops]|]]; [done|].
  unfold final_outputs_arg, arg_ops. simpl.
  by destruct (String.eqb name "cond_net").
Qed.

Lemma final_outputs_app ops1 ops2 :
  final_outputs (ops1 ++ ops2) = final_outputs ops1 ++ final_outputs ops2.
Proof. apply flat_map_app. Qed.

Lemma final_outputs_op_no_nets o : no_nets o -> final_outputs_op o = [].
Proof.
  intros Ho. rewrite final_outputs_op_eq.
  unfold no_nets in Ho. induction Ho as [|a args Ha _ IH]; [done|].
  simpl. rewrite IH. unfold final_outputs_arg, arg_ops. rewrite Ha.
  by destruct (String.eqb (arg_name a) "cond_net").
Qed.

Lemma final_outputs_flat new : Forall no_nets new -> final_outputs new = [].
Proof.
  induction 1 as [|o new Ho _ IH]; [done|].
  unfold final_outputs. simpl. fold (final_outputs new).
  by rewrite IH, final_outputs_op_no_nets.
Qed.

Lemma issued_all_nil n n' : issued_all n n' [].
Proof. split; [constructor|]. intros x Hx. by apply elem_of_nil in Hx. Qed.

Lemma issued_all_weaken n1 n2 n n' l :
  issued_all n1 n2 l -> n <= n1 -> n2 <= n' -> issued_all n n' l.
Proof.
  intros [Hnd Hr] H1 H2. split; [done|].
  intros x Hx. destruct (Hr x Hx) as (k & Hk & ->). exists k. split; [lia|done].
Qed.

Lemma issued_all_app n n1 n2 l1 l2 :
  issued_all n n1 l1 -> issued_all n1 n2 l2 -> n <= n1 -> n1 <= n2 ->
  issued_all n n2 (l1 ++ l2).
Proof.
  intros [Hnd1 Hr1] [Hnd2 Hr2] H1 H2. split.
  - apply NoDup_app. split; [done|]. split; [|done].
    intros x Hx1 Hx2.
    destruct (Hr1 x Hx1) as (k1 & Hk1 & ->).
    destruct (Hr2 _ Hx2) as (k2 & Hk2 & Heq).
    apply fresh_name_inj in Heq. lia.
  - intros x Hx. apply elem_of_app in Hx as [Hx|Hx].
    + destruct (Hr1 x Hx) as (k & Hk & ->). exists k. split; [lia|done].
    + destruct (Hr2 x Hx) as (k & Hk & ->). exists k. split; [lia|done].
Qed.

Lemma issued_all_one n : issued_all n (S n) [fresh_name n].
Proof.
  split; [apply NoDup_singleton|].
  intros x Hx. apply list_elem_of_singleton in Hx as ->. exists n. split; [lia|done].
Qed.

Lemma no_cond_net_no_nets o : no_nets o -> no_cond_net o.
Proof.
  intros Ho a nd Ha _ Hnd. unfold no_nets in Ho.
  rewrite Forall_forall in Ho. specialize (Ho a Ha). unfold no_net in Ho.
  by rewrite Ho in Hnd.
Qed.

Lemma loop_tied_no_cond_net ops : Forall no_cond_net ops -> loop_tied ops.
Proof.
  intros Hops i w a nd Hw Ha Hname Hnd.
  rewrite Forall_lookup in Hops. by destruct (Hops i w Hw a nd Ha Hname).
Qed.

Lemma loop_tied_flat new : Forall no_nets new -> loop_tied new.
Proof.
  intros Hnew. apply loop_tied_no_cond_net.
  eapply Forall_impl; [exact Hnew|]. apply no_cond_net_no_nets.
Qed.

Lemma loop_tied_app ops1 ops2 :
  loop_tied ops1 -> loop_tied ops2 -> loop_tied (ops1 ++ ops2).
Proof.
  intros H1 H2 i w a nd Hw Ha Hname Hnd.
  destruct (decide (i < length ops1)) as [Hlt|Hge].
  - rewrite lookup_app_l in Hw by done.
    destruct (H1 i w a nd Hw Ha Hname Hnd)
      as (k & cond_ops & final & body_ops & -> & Hout & j & -> & Hj).
    exists k, cond_ops, final, body_ops. split; [done|]. split; [done|].
    exists j. split; [done|]. rewrite lookup_app_l by lia. done.
  - rewrite lookup_app_r in Hw by lia.
    destruct (H2 _ w a nd Hw Ha Hname Hnd)
      as (k & cond_ops & final & body_ops & -> & Hout & j & Hi & Hj).
    exists k, cond_ops, final, body_ops. split; [done|]. split; [done|].
    exists (length ops1 + j). split; [lia|].
    rewrite lookup_app_r by lia.
    by replace (length ops1 + j - length ops1) with j by lia.
Qed.

Lemma nets_tied_no_nets o : no_nets o -> nets_tied o.
Proof.
  intros Ho a nd Ha Hnd. unfold no_nets in Ho.
  rewrite Forall_forall in Ho. specialize (Ho a Ha). unfold no_net in Ho.
  by rewrite Ho in Hnd.
Qed.

Lemma nets_tied_flat new :
  Forall no_nets new -> Forall nets_tied (all_ops new).
Proof.
  induction 1 as [|o new Ho _ IH]; [done|].
  change (o :: new) with ([o] ++ new). rewrite all_ops_app.
  apply Forall_app. split; [|done].
  unfold all_ops. simpl. rewrite app_nil_r, all_ops_op_no_nets by done.
  constructor; [|done]. by apply nets_tied_no_nets.
Qed.

Lemma nets_tied_snoc new o :
  Forall no_nets new -> Forall nets_tied (all_ops_op o) ->
  Forall nets_tied (all_ops (new ++ [o])).
Proof.
  intros Hnew Ho. rewrite all_ops_app. apply Forall_app.
  split; [by apply nets_tied_flat|].
  unfold all_ops. simpl. by rewrite app_nil_r.
Qed.

Lemma emitStatements_loops_Forall stmts :
  Forall (fun s => loops (emitStatement s)) stmts ->
  loops (emitStatements stmts).
Proof.
  induction 1 as [|s stmts Hs _ IH]; intros e nm ops fr n c' Hrun.
  - rewrite emitStatements_nil in Hrun. simplify_eq.
    exists e, [], n. rewrite app_nil_r. split; [done|]. split; [lia|].
    split; [apply issued_all_nil|]. split; [|done].
    by apply loop_tied_flat.
  - rewrite emitStatements_cons in Hrun.
    apply bind_Ok_inv in Hrun as ([] & c1 & Hs1 & Hrun).
    apply Hs in Hs1 as (e1 & new1 & n1 & -> & Hn1 & Hi1 & Ht1 & Hf1).
    apply IH in Hrun as (e2 & new2 & n2 & -> & Hn2 & Hi2 & Ht2 & Hf2).
    exists e2, (new1 ++ new2), n2. rewrite app_assoc. split; [done|].
    split; [lia|]. rewrite final_outputs_app, all_ops_app.
    split; [by apply (issued_all_app n n1 n2)|].
    split; [by apply loop_tied_app|by apply Forall_app].
Qed.

Lemma loops_pushed es e parent op arg fr n e1 ops1 n1 :
  loops es ->
  es (pushed e parent op arg fr n) =
    Ok tt (Build_DefCompiler e1 (Build_NetDef "" ops1)
             (Build_Frame parent op arg :: fr) n1) ->
  n <= n1 /\ issued_all n n1 (final_outputs ops1) /\
  loop_tied ops1 /\ Forall nets_tied (all_ops ops1).
Proof.
  intros Hes Hrun. unfold pushed in Hrun.
  apply Hes in Hrun as (e' & new & n' & Heq & Hn & Hi & Ht & Hf). by simplify_eq.
Qed.

Lemma emitStatement_loops s : loops (emitStatement s).
Proof.
  induction s as [cond tb fb IHt IHf|cond body IHb|idents reduction rhs|t]
    using Stmt_ind'; intros e nm ops fr n c' Hrun.
  - (* if: neither argument is named cond_net *)
    rewrite emitStatement_If, emitIf_eq in Hrun.
    apply emitIf_Ok_inv in Hrun
      as (v & new & e1 & ops1 & n1 & _ & Hnew & Htb & Hc');
      [|by apply emitStatements_in_frame..].
    apply loops_pushed in Htb as (Hn1 & Hi1 & Ht1 & Hf1);
      [|by apply emitStatements_loops_Forall].
    apply flat_fresh_no_nets in Hnew.
    destruct fb as [|s fb].
    + subst c'. eexists _, (new ++ [_]), _. rewrite app_assoc.
      split; [done|]. split; [lia|].
      rewrite final_outputs_app, final_outputs_flat by done.
      unfold final_outputs at 1. simpl. rewrite !app_nil_r.
      fold (final_outputs ops1).
      split; [eapply issued_all_weaken; [exact Hi1|lia..]|].
      split.
      * apply loop_tied_app; [by apply loop_tied_flat|].
        apply loop_tied_no_cond_net. constructor; [|done].
        intros a nd Ha Hname. apply list_elem_of_singleton in Ha as ->. done.
      * apply nets_tied_snoc; [done|].
        rewrite all_ops_op_eq. simpl. unfold nested_ops. simpl. rewrite app_nil_r.
        constructor; [|done].
        intros a nd Ha Hnd. apply list_elem_of_singleton in Ha as ->.
        simpl in Hnd. by simplify_eq.
    + destruct Hc' as (e2 & ops2 & n2 & Hfb & ->).
      apply loops_pushed in Hfb as (Hn2 & Hi2 & Ht2 & Hf2);
        [|by apply emitStatements_loops_Forall].
      eexists _, (new ++ [_]), _. rewrite app_assoc.
      split; [done|]. split; [lia|].
      rewrite final_outputs_app, final_outputs_flat by done.
      unfold final_outputs at 1. simpl. rewrite !app_nil_r.
      fold (final_outputs ops1). fold (final_outputs ops2).
      split.
      { apply (issued_all_app n n1 n2); [|done|lia..].
        eapply issued_all_weaken; [exact Hi1|lia..]. }
      split.
      * apply loop_tied_app; [by apply loop_tied_flat|].
        apply loop_tied_no_cond_net. constructor; [|done].
        intros a nd Ha Hname.
        apply elem_of_cons in Ha as [->|Ha]; [done|].
        apply list_elem_of_singleton in Ha as ->. done.
      * apply nets_tied_snoc; [done|].
        rewrite all_ops_op_eq. simpl. unfold nested_ops. simpl. rewrite app_nil_r.
        constructor; [|by apply Forall_app].
        intros a nd Ha Hnd.
        apply elem_of_cons in Ha as [->|Ha]; [simpl in Hnd; by simplify_eq|].
        apply list_elem_of_singleton in Ha as ->. simpl in Hnd. by simplify_eq.
  - (* while: the constant, then the While operation it initializes *)
    rewrite emitStatement_While, emitWhile_eq in Hrun.
    apply emitWhile_Ok_inv in Hrun
      as (new & ty & ins & args & e2 & body_ops & n2 & _ & Hnew & Hargs & Hb & ->);
      [|by apply emitStatements_in_frame].
    apply loops_pushed in Hb as (Hn2 & Hi2 & Ht2 & Hf2);
      [|by apply emitStatements_loops_Forall].
    apply flat_fresh_no_nets in Hnew.
    assert (Hcond : Forall no_nets (new ++ [Build_OperatorDef ty ins [fresh_name n] args])).
    { apply Forall_app. split; [done|]. by constructor. }
    eexists _, [_; _], _. rewrite <- app_assoc.
    split; [done|]. split; [lia|].
    split; [|split].
    + unfold final_outputs. simpl. rewrite !app_nil_r.
      fold (final_outputs (new ++ [Build_OperatorDef ty ins [fresh_name n] args])).
      fold (final_outputs body_ops).
      rewrite final_outputs_flat by done.
      unfold last_outputs. rewrite last_snoc. simpl.
      change (issued_all n n2 ([fresh_name n] ++ final_outputs body_ops)).
      apply (issued_all_app n (S n) n2); [apply issued_all_one| |lia..].
      eapply issued_all_weaken; [exact Hi2|lia..].
    + intros i w a nd Hw Ha Hname Hnd.
      destruct i as [|[|i]]; simpl in Hw; [| |done].
      * simplify_eq. rewrite const_op_zero_i in Ha. simpl in Ha.
        repeat (apply elem_of_cons in Ha as [->|Ha]; [done|]).
        by apply elem_of_nil in Ha.
      * simplify_eq. eexists n, _, _, _. split; [done|]. split; [done|].
        by exists 0.
    + unfold all_ops. simpl. rewrite !app_nil_r.
      fold (all_ops (new ++ [Build_OperatorDef ty ins [fresh_name n] args])).
      fold (all_ops body_ops).
      constructor.
      { apply nets_tied_no_nets. unfold no_nets. simpl. by repeat constructor. }
      constructor.
      { intros a nd Ha Hnd.
        apply elem_of_cons in Ha as [->|Ha].
        - simpl in Hnd. simplify_eq. by apply loop_tied_flat.
        - apply list_elem_of_singleton in Ha as ->. simpl in Hnd. by simplify_eq. }
      apply Forall_app. split; [|done]. by apply nets_tied_flat.
  - rewrite emitStatement_Assign in Hrun.
    apply emitAssignment_Ok_inv in Hrun as (new & ty & ins & args & Hnew & Hargs & ->).
    apply flat_fresh_no_nets in Hnew.
    assert (Hall : Forall no_nets (new ++ [Build_OperatorDef ty ins
              (assigned_outputs idents (fresh_name (n + length new))
                 (n + S (length new))) args])).
    { apply Forall_app. split; [done|]. by constructor. }
    eexists _, (new ++ [_]), _. split; [done|]. split; [lia|].
    rewrite final_outputs_flat by done.
    split; [apply issued_all_nil|].
    split; [by apply loop_tied_flat|by apply nets_tied_flat].
  - rewrite emitStatement_ExprStmt in Hrun.
    apply emitExpressionStatement_Ok_inv in Hrun
      as (new & ty & ins & args & Hnew & Hargs & ->).
    apply flat_fresh_no_nets in Hnew.
    assert (Hall : Forall no_nets (new ++ [Build_OperatorDef ty ins [] args])).
    { apply Forall_app. split; [done|]. by constructor. }
    eexists _, (new ++ [_]), _. split; [done|]. split; [lia|].
    rewrite final_outputs_flat by done.
    split; [apply issued_all_nil|].
    split; [by apply loop_tied_flat|by apply nets_tied_flat].
Qed.

Lemma emitStatements_loops stmts : loops (emitStatements stmts).
Proof.
  apply emitStatements_loops_Forall, Forall_forall.
  intros s _. apply emitStatement_loops.
Qed.

(** Every output declared at any depth is counted once: by [declared_ops],
    or as the output of the last operation of a cond_net. *)

Lemma Permutation_split {A} (a b c d x : list A) :
  (a ++ c) ++ (b ++ x ++ d) ≡ₚ (a ++ b) ++ x ++ (c ++ d).
Proof.
  rewrite <- !app_assoc. f_equiv.
  rewrite (app_assoc b x d), (app_assoc b x (c ++ d)).
  rewrite (app_assoc c (b ++ x) d), (app_assoc (b ++ x) c d).
  f_equiv. apply Permutation_app_comm.
Qed.

Lemma Permutation_split_two {A} (a b c d : list A) :
  (a ++ c) ++ b ++ d ≡ₚ (a ++ b) ++ c ++ d.
Proof. exact (Permutation_split a b c d []). Qed.

Lemma all_outputs_cons o ops :
  all_outputs (o :: ops) = flat_map op_output (all_ops_op o) ++ all_outputs ops.
Proof. unfold all_outputs, all_ops. simpl. apply flat_map_app. Qed.

Lemma outputs_split_ops ops :
  Forall outputs_split ops ->
  forall final,
    all_outputs ops ≡ₚ
    declared_ops final ops ++ (if final then [] else last_outputs ops)
    ++ final_outputs ops.
Proof.
  induction 1 as [|o ops Ho _ IH]; intros final.
  - by destruct final.
  - rewrite all_outputs_cons, declared_ops_cons.
    unfold final_outputs. simpl. fold (final_outputs ops).
    destruct ops as [|o2 ops2].
    + rewrite declared_ops_nil. unfold all_outputs, final_outputs. simpl.
      rewrite !app_nil_r. rewrite (Ho final). by destruct final.
    + rewrite (Ho true), (IH final). simpl app at 2.
      replace (last_outputs (o :: o2 :: ops2)) with (last_outputs (o2 :: ops2))
        by done.
      apply Permutation_split.
Qed.

Lemma declared_arg_ops a :
  declared_arg a =
  declared_ops (negb (String.eqb (arg_name a) "cond_net")) (arg_ops a).
Proof. unfold declared_arg, arg_ops. by destruct (arg_n a). Qed.

Lemma nested_ops_arg_ops a : nested_ops a = all_ops (arg_ops a).
Proof. unfold nested_ops, arg_ops. by destruct (arg_n a). Qed.

Lemma outputs_split_op o : outputs_split o.
Proof.
  induction o as [ty ins outs args IH] using OperatorDef_ind'. intros own.
  rewrite all_ops_op_eq, declared_op_eq, final_outputs_op_eq. simpl.
  assert (Hargs : flat_map op_output (flat_map nested_ops args) ≡ₚ
                  flat_map declared_arg args ++ flat_map final_outputs_arg args).
  { induction IH as [|a args Ha _ IHargs]; [done|].
    simpl. rewrite flat_map_app, IHargs.
    rewrite nested_ops_arg_ops, declared_arg_ops. unfold final_outputs_arg.
    fold (all_outputs (arg_ops a)).
    rewrite (outputs_split_ops _ Ha
               (negb (String.eqb (arg_name a) "cond_net"))).
    destruct (String.eqb (arg_name a) "cond_net"); simpl;
      apply Permutation_split_two. }
  rewrite Hargs. destruct own; simpl.
  - by rewrite <- app_assoc.
  - rewrite !app_assoc. f_equiv. apply Permutation_app_comm.
Qed.

Lemma outputs_split_all ops :
  all_outputs ops ≡ₚ declared_ops true ops ++ final_outputs ops.
Proof.
  assert (Hops : Forall outputs_split ops).
  { apply Forall_forall. intros o _. apply outputs_split_op. }
  exact (outputs_split_ops ops Hops true).
Qed.

Lemma map_names_run names e nd fr n :
  exists e', map_names names (Build_DefCompiler e nd fr n) =
             Ok tt (Build_DefCompiler e' nd fr n).
Proof.
  unfold map_names. revert e.
  induction names as [|name names IH]; intros e; simpl.
  - by exists e.
  - mnorm. apply IH.
Qed.

Lemma run_Ok_inv def c :
  run def (DefCompiler_new NetDef_new) = Ok tt c ->
  exists e0 e,
    emitStatements (statements def)
      (Build_DefCompiler e0 (Build_NetDef (def_name def) []) [] 0) = Ok tt c /\
    enclosing c = [] /\ net_name (cur c) = def_name def /\ env c = e.
Proof.
  unfold run, DefCompiler_new, NetDef_new. intros Hrun.
  apply bind_Ok_inv in Hrun as ([] & c1 & Hname & Hrun).
  revert Hname. mnorm. intros Hname. simplify_eq.
  apply bind_Ok_inv in Hrun as ([] & c1 & Hparams & Hrun).
  destruct (map_names_run (params def) ∅ (Build_NetDef (def_name def) []) [] 0)
    as [e1 He1].
  rewrite He1 in Hparams. simplify_eq.
  apply bind_Ok_inv in Hrun as ([] & c1 & Hreturns & Hrun).
  destruct (map_names_run (returns def) e1 (Build_NetDef (def_name def) []) [] 0)
    as [e0 He0].
  rewrite He0 in Hreturns. simplify_eq.
  exists e0, (env c). split; [done|].
  apply emitStatements_in_frame in Hrun as (e' & new & n' & ->). done.
Qed.

(** C8, as the code has it.  In every compiled function whose assignment
    targets are identifiers of the language: every output declared at any
    depth is either counted among the declared names or is the output of the
    last operation of a while condition net; the generated names among the
    declared ones are pairwise distinct; the outputs of the last operations
    of the condition nets are pairwise distinct; and in every net, at any
    depth, an operator holding a condition net is a While operation whose one
    input is a generated name, which the constant just before it in the same
    net declares and which the last operation of the condition net declares
    again (C6).  So a generated name is declared once, except the
    loop-control name of each loop, declared twice, and no two loops share
    their loop-control name. *)
Theorem C8_generated_outputs_distinct def u u' net :
  defineFunction def u = Returned u' ->
  Forall user_name (flat_map targets (statements def)) ->
  functions u' !! def_name def = Some net ->
  all_outputs (net_op net) ≡ₚ
    declared_ops true (net_op net) ++ final_outputs (net_op net) /\
  NoDup (filter generated (declared_ops true (net_op net))) /\
  NoDup (final_outputs (net_op net)) /\
  loop_tied (net_op net) /\
  Forall nets_tied (all_ops (net_op net)).
Proof.
  unfold defineFunction. intros Hdef Hu Hnet.
  case_decide; [done|].
  destruct (run def (DefCompiler_new NetDef_new)) as [[] c|] eqn:Hrun; [|done].
  simplify_eq. simpl in Hnet. rewrite lookup_insert_eq in Hnet. simplify_eq.
  apply run_Ok_inv in Hrun as (e0 & e & Hrun & _).
  pose proof Hrun as Hloops.
  apply emitStatements_issues in Hrun as (e' & new & n' & -> & _ & Hi); [|done].
  apply emitStatements_loops in Hloops
    as (e1 & new1 & n1 & Heq & _ & Hfin & Htied & Hnets).
  simplify_eq. unfold top_net. simpl.
  split; [apply outputs_split_all|].
  split; [by destruct Hi|]. split; [by destruct Hfin|]. done.
Qed.

Lemma defineFunction_def_while :
  defineFunction def_while unit_empty =
  Returned (Build_CompilationUnitImpl {["f" := net_while]}).
Proof. vm_compute. reflexivity. Qed.

Lemma C8_witness :
  all_outputs (net_op net_while) ≡ₚ
    declared_ops true (net_op net_while) ++ final_outputs (net_op net_while) /\
  NoDup (filter generated (declared_ops true (net_op net_while))) /\
  NoDup (final_outputs (net_op net_while)) /\
  loop_tied (net_op net_while) /\
  Forall nets_tied (all_ops (net_op net_while)).
Proof.
  apply (C8_generated_outputs_distinct def_while unit_empty
           (Build_CompilationUnitImpl {["f" := net_while]}) net_while).
  - exact defineFunction_def_while.
  - repeat constructor; intros Hg; discriminate Hg.
  - reflexivity.
Defined.

(** C8 as stated fails: in the net compiled for [def_while] the
    initializing constant and the last operation of the condition net are
    two operations that declare the same fresh output name. *)
Lemma C8_counterexample :
  functions (unit_of (defineFunction def_while unit_empty)) !! "f" = Some net_while /\
  exists init w cond_ops final,
    net_op net_while = [init; w] /\
    arg_n <$> op_arg w !! 0 = Some (Some (Build_NetDef "" (cond_ops ++ [final]))) /\
    op_output init = [fresh_name 0] /\
    op_output final = [fresh_name 0].
Proof.
  split; [vm_compute; reflexivity|].
  eexists _, _, [], _. repeat split.
Qed.

(** * Further properties of the lowering *)

(** ** Identifiers, literals, operators and casts *)

(** X1.  An identifier that is not bound.  As an operand it raises
    UnboundIdentifier and the compiler object is untouched.  Lowered by
    [emit], it raises the same error after the Copy operation was added to
    the net: the operation stays there, with neither input nor output, and no
    fresh name is used. *)
Theorem unbound_identifier_raises x c :
  env c !! x = None ->
  getValue (Ident x) c = Throw (UnboundIdentifier x) c /\
  emit (Ident x) c =
  Throw (UnboundIdentifier x)
    (set_cur (net_set_op (net_op (cur c) ++ [Build_OperatorDef "Copy" [] [] []])
                (cur c)) c).
Proof.
  intros Hx. destruct c as [e [nm ops] fr n]. simpl in Hx. split.
  - unfold getValue, getValue_, lookup. mbeta. simpl. by rewrite Hx.
  - simpl. unfold lookup. mnorm. by rewrite Hx.
Qed.

Lemma unbound_identifier_raises_witness :
  getValue (Ident "x") c0 = Throw (UnboundIdentifier "x") c0 /\
  net_op (cur (state_of (emit (Ident "x") c0))) =
  [Build_OperatorDef "Copy" [] [] []].
Proof.
  destruct (unbound_identifier_raises "x" c0) as [Hvalue Hemit]; [reflexivity|].
  split; [exact Hvalue|]. rewrite Hemit. reflexivity.
Defined.

(** X2.  A numeric literal.  With one of the type suffixes f, LL, b and i it is
    lowered to one ConstantFill whose output is the next fresh name: the
    dtype argument holds the data type of the suffix, the value argument
    holds the number narrowed to single precision for f, converted to a
    64-bit integer for LL and i, and 1 or 0 for b as the number differs from
    zero or not, and the shape argument holds the list [1].  With any other
    suffix MalformedLiteral is raised, after the fresh name was taken and the
    operation added: it stays in the net unfinished. *)
Theorem literal_needs_known_suffix v type_ident c :
  (known_type_ident type_ident ->
   emit (Const v type_ident) c =
   Ok (length (net_op (cur c)))
      (emitted c (const_op v (fresh_name (next_fresh c)) type_ident)) /\
   const_op v (fresh_name (next_fresh c)) type_ident =
   Build_OperatorDef "ConstantFill" [] [fresh_name (next_fresh c)]
     [ Build_Argument "dtype" None
         (Some (if decide (type_ident = "f") then TensorProto_DataType_FLOAT
                else if decide (type_ident = "LL") then TensorProto_DataType_INT64
                else if decide (type_ident = "b") then TensorProto_DataType_BOOL
                else TensorProto_DataType_INT32)) [] [] None;
       (if decide (type_ident = "f")
        then Build_Argument "value" (Some (double_to_float v)) None [] [] None
        else if decide (type_ident = "b")
        then Build_Argument "value" None
               (Some (if double_nonzero v then 1%Z else 0%Z)) [] [] None
        else Build_Argument "value" None (Some (double_to_int64 v)) [] [] None);
       Build_Argument "shape" None None [] [1%Z] None ]) /\
  (~ known_type_ident type_ident ->
   emit (Const v type_ident) c =
   Throw (MalformedLiteral type_ident) (emitted c const_op_unfinished)).
Proof.
  destruct c as [e [nm ops] fr n]. split; intros Hknown.
  - split.
    + simpl. rewrite (bind_Ok _ _ _ _ _ (fresh_run e (Build_NetDef nm ops) fr n)).
      by rewrite emitConst_known.
    + unfold const_op. by repeat case_decide.
  - simpl. rewrite (bind_Ok _ _ _ _ _ (fresh_run e (Build_NetDef nm ops) fr n)).
    unfold known_type_ident in Hknown. unfold emitConst. mnorm.
    repeat case_decide; first [tauto | by mnorm].
Qed.

Lemma literal_needs_known_suffix_witness :
  emit (Const 3 "LL") c0 = Ok 0 (emitted c0 (const_op 3 "$t0" "LL")) /\
  const_op 16777217 "$t0" "f" =
  Build_OperatorDef "ConstantFill" [] ["$t0"]
    [ Build_Argument "dtype" None (Some TensorProto_DataType_FLOAT) [] [] None;
      Build_Argument "value" (Some 16777216%float) None [] [] None;
      Build_Argument "shape" None None [] [1%Z] None ] /\
  const_op 1e19 "$t0" "LL" =
  Build_OperatorDef "ConstantFill" [] ["$t0"]
    [ Build_Argument "dtype" None (Some TensorProto_DataType_INT64) [] [] None;
      Build_Argument "value" None (Some INT64_MIN) [] [] None;
      Build_Argument "shape" None None [] [1%Z] None ] /\
  emit (Const 3 "u") c0 =
  Throw (MalformedLiteral "u") (emitted c0 const_op_unfinished).
Proof.
  destruct (literal_needs_known_suffix 3 "LL" c0) as [Hknown _].
  destruct (literal_needs_known_suffix 16777217 "f" c0) as [Hfloat _].
  destruct (literal_needs_known_suffix 1e19 "LL" c0) as [Hlong _].
  destruct (literal_needs_known_suffix 3 "u" c0) as [_ Hunknown].
  split; [|split; [|split]].
  - apply Hknown. right. by left.
  - etransitivity; [apply Hfloat; by left|]. vm_compute. reflexivity.
  - etransitivity; [apply Hlong; right; by left|]. vm_compute. reflexivity.
  - apply Hunknown. unfold known_type_ident. intros [H|[H|[H|H]]]; discriminate H.
Defined.

(** X3.  A tree of kind '-' is lowered to Negative when it has exactly one
    operand and to Sub with any other number of operands; the number of
    operands is not checked. *)
Theorem minus_is_Negative_or_Sub trees values c c1 :
  getValues trees c = Ok values c1 ->
  emit (Compound K_minus trees) c =
  Ok (length (net_op (cur c1)))
     (emitted c1
        (Build_OperatorDef (if decide (length trees = 1) then "Negative" else "Sub")
           values [fresh_name (next_fresh c1)]
           [Build_Argument "broadcast" None (Some 1%Z) [] [] None])).
Proof.
  intros Hvalues. rewrite emit_Compound. simpl.
  rewrite (bind_Ok _ _ _ _ _ Hvalues).
  destruct c1 as [e [nm ops] fr n]. rewrite emitOperator_run by done.
  unfold operator_type. simpl. by case_decide.
Qed.

Lemma minus_is_Negative_or_Sub_witness :
  emit (Compound K_minus [Ident "a"]) c0 =
  Ok 0 (emitted c0 (Build_OperatorDef "Negative" ["a"] ["$t0"]
                      [Build_Argument "broadcast" None (Some 1%Z) [] [] None])) /\
  emit (Compound K_minus [Ident "a"; Ident "c"; Ident "a"]) c0 =
  Ok 0 (emitted c0 (Build_OperatorDef "Sub" ["a"; "c"; "a"] ["$t0"]
                      [Build_Argument "broadcast" None (Some 1%Z) [] [] None])).
Proof.
  split.
  - apply (minus_is_Negative_or_Sub [Ident "a"] ["a"] c0 c0). reflexivity.
  - apply (minus_is_Negative_or_Sub [Ident "a"; Ident "c"; Ident "a"]
             ["a"; "c"; "a"] c0 c0). reflexivity.
Defined.

(** X4.  A cast.  The type token is looked at before the operand is lowered:
    the token int gives the data type INT32, float gives FLOAT, long gives
    INT64 and bool gives BOOL; any other token raises UnknownType with the
    compiler object untouched, whatever the operand is.  For one of the four
    tokens the operand is lowered and one Cast operation follows, with the
    operand's value as input, the next fresh name as output and the data type
    in the integer argument to. *)
Theorem cast_lowering type input c :
  let casts_to (z : Z) :=
    forall v c1,
      getValue input c = Ok v c1 ->
      emit (Cast type input) c =
      Ok (length (net_op (cur c1)))
         (emitted c1
            (Build_OperatorDef "Cast" [v] [fresh_name (next_fresh c1)]
               [Build_Argument "to" None (Some z) [] [] None])) in
  match type with
  | TK_INT => casts_to TensorProto_DataType_INT32
  | TK_FLOAT => casts_to TensorProto_DataType_FLOAT
  | TK_LONG => casts_to TensorProto_DataType_INT64
  | TK_BOOL => casts_to TensorProto_DataType_BOOL
  | _ => emit (Cast type input) c = Throw (UnknownType type) c
  end.
Proof.
  assert (Hcast : forall z, getType type c = Ok z c ->
            forall v c1, getValue input c = Ok v c1 ->
              emit (Cast type input) c =
              Ok (length (net_op (cur c1)))
                 (emitted c1
                    (Build_OperatorDef "Cast" [v] [fresh_name (next_fresh c1)]
                       [Build_Argument "to" None (Some z) [] [] None]))).
  { intros z Hget v c1 Hv. simpl. rewrite (bind_Ok _ _ _ _ _ Hget).
    fold (getValue input). rewrite (bind_Ok _ _ _ _ _ Hv).
    destruct c1 as [e [nm ops] fr n]. by mnorm. }
  destruct type; try (by simpl; mbeta); intros v c1; by apply Hcast.
Qed.

Lemma cast_lowering_witness :
  emit (Cast TK_LONG (Ident "a")) c0 =
  Ok 0 (emitted c0 (Build_OperatorDef "Cast" ["a"] ["$t0"]
                      [Build_Argument "to" None (Some TensorProto_DataType_INT64)
                         [] [] None])) /\
  emit (Cast TK_LIST (Ident "x")) c0 = Throw (UnknownType TK_LIST) c0.
Proof.
  split.
  - apply (cast_lowering TK_LONG (Ident "a") c0 "a" c0). reflexivity.
  - apply (cast_lowering TK_LIST (Ident "x") c0).
Defined.

(** ** What an expression leaves in the net *)

Lemma flat_fresh_outputs n new :
  flat_fresh n new ->
  op_output <$> new = (fun k => [fresh_name k]) <$> seq n (length new).
Proof.
  revert n. induction new as [|o new IH]; intros n; [done|].
  intros (Ho & _ & Hnew). simpl. rewrite Ho. f_equal. by apply IH.
Qed.

(** X5.  Where the lowering of an expression returns, it has appended at least
    one operation to the current net and changed nothing else: the
    operations that were there, the environment and the enclosing nets are as
    before.  Each appended operation has exactly one output and holds no
    nested net, the outputs are the fresh names from the counter on, one per
    operation, and the pointer returned is that of the last operation. *)
Theorem emit_appends_one_name_each t c op c' :
  emit t c = Ok op c' ->
  exists new o,
    cur c' = Build_NetDef (net_name (cur c)) (net_op (cur c) ++ new ++ [o]) /\
    op = length (net_op (cur c)) + length new /\
    env c' = env c /\ enclosing c' = enclosing c /\
    next_fresh c' = next_fresh c + S (length new) /\
    op_output <$> (new ++ [o]) =
      (fun k => [fresh_name k]) <$> seq (next_fresh c) (S (length new)) /\
    Forall no_nets (new ++ [o]).
Proof.
  destruct c as [e [nm ops] fr n]. intros Hrun.
  apply emit_appends in Hrun as (new & o & (-> & Hflat) & ->).
  exists new, o. simpl. rewrite length_app. simpl.
  split; [done|]. split; [done|]. split; [done|]. split; [done|].
  split; [lia|]. split.
  - rewrite (flat_fresh_outputs _ _ Hflat), length_app. simpl.
    by rewrite Nat.add_1_r.
  - by eapply flat_fresh_no_nets.
Qed.

Lemma emit_appends_one_name_each_witness :
  exists new o,
    cur (state_of (emit (Compound K_star
                           [Compound K_plus [Ident "a"; Const 2 "f"]; Ident "c"]) c0)) =
      Build_NetDef "" ([] ++ new ++ [o]) /\
    op_output <$> (new ++ [o]) = [["$t0"]; ["$t1"]; ["$t2"]].
Proof.
  destruct (emit_appends_one_name_each
              (Compound K_star [Compound K_plus [Ident "a"; Const 2 "f"]; Ident "c"])
              c0 2
              (state_of (emit (Compound K_star
                                 [Compound K_plus [Ident "a"; Const 2 "f"]; Ident "c"])
                           c0)))
    as (new & o & Hcur & Hop & _ & _ & _ & Hout & _).
  - vm_compute. reflexivity.
  - exists new, o. split; [exact Hcur|].
    assert (Hlen : length new = 2) by (simpl in Hop; lia).
    rewrite Hout, Hlen. reflexivity.
Defined.

Lemma emit_then_output t c v c' :
  (op ← emit t; output op 0) c = Ok v c' ->
  exists o,
    last (net_op (cur c')) = Some o /\ op_output o = [v] /\
    next_fresh c < next_fresh c' /\ v = fresh_name (pred (next_fresh c')).
Proof.
  destruct c as [e [nm ops] fr n]. intros Hrun.
  apply bind_Ok_inv in Hrun as (op & c1 & Hemit & Hout).
  apply emit_appends in Hemit as (new & o & (-> & Hflat) & ->).
  apply flat_fresh_app in Hflat as (_ & Ho & _ & _).
  revert Hout. unfold output. mbeta. unfold the_op. simpl.
  rewrite app_assoc, <- length_app, lookup_snoc. simpl. rewrite Ho. simpl.
  intros Hout. simplify_eq. exists o. simpl.
  rewrite last_snoc, !length_app. simpl.
  split; [done|]. split; [done|]. split; [lia|].
  f_equal. lia.
Qed.

(** X6.  The value of an operand.  For an identifier it is the binding, and the
    compiler object is untouched.  For any other tree it is the single output
    of the operation appended last, which is the fresh name issued last:
    [op->output(0)] is never read from an operation without outputs. *)
Theorem getValue_is_binding_or_newest_name t c v c' :
  getValue t c = Ok v c' ->
  match t with
  | Ident x => env c !! x = Some v /\ c' = c
  | _ =>
      exists o,
        last (net_op (cur c')) = Some o /\ op_output o = [v] /\
        next_fresh c < next_fresh c' /\ v = fresh_name (pred (next_fresh c'))
  end.
Proof.
  intros Hrun. destruct t; try (by apply emit_then_output in Hrun).
  revert Hrun. unfold getValue, getValue_, lookup. mbeta.
  destruct (env c !! name); [|raised]. intros Hrun. by simplify_eq.
Qed.

Lemma getValue_is_binding_or_newest_name_witness :
  exists o,
    last (net_op (cur (state_of (getValue (Compound TK_NOT [Ident "c"]) c0)))) = Some o /\
    op_output o = ["$t0"].
Proof.
  destruct (getValue_is_binding_or_newest_name (Compound TK_NOT [Ident "c"]) c0 "$t0"
              (state_of (getValue (Compound TK_NOT [Ident "c"]) c0)))
    as (o & Hlast & Hout & _).
  - vm_compute. reflexivity.
  - exists o. split; [exact Hlast|exact Hout].
Defined.

(** ** The number of operations of an expression *)

Lemma getValue_count t c v c' :
  (forall c op c', emit t c = Ok op c' ->
     length (net_op (cur c')) = length (net_op (cur c)) + emit_count t) ->
  getValue t c = Ok v c' ->
  length (net_op (cur c')) = length (net_op (cur c)) + operand_count t.
Proof.
  intros Ht Hrun.
  assert (Hemit : (op ← emit t; output op 0) c = Ok v c' ->
                  length (net_op (cur c')) = length (net_op (cur c)) + emit_count t).
  { intros H. apply bind_Ok_inv in H as (op & c1 & Hop & Hout).
    apply Ht in Hop. revert Hout. unfold output. mbeta. intros Hout.
    by simplify_eq. }
  destruct t; try (by apply Hemit).
  revert Hrun. unfold getValue, getValue_, lookup. mbeta.
  destruct (env c !! name); [|raised]. intros Hrun. simplify_eq. simpl. lia.
Qed.

Lemma getValues_count trees :
  Forall (fun t => forall c op c', emit t c = Ok op c' ->
            length (net_op (cur c')) = length (net_op (cur c)) + emit_count t) trees ->
  forall c values c',
    getValues trees c = Ok values c' ->
    length (net_op (cur c')) = length (net_op (cur c)) + operands_count trees.
Proof.
  induction 1 as [|t trees Ht _ IH]; intros c values c' Hrun.
  - rewrite getValues_nil in Hrun. simplify_eq. simpl. lia.
  - rewrite getValues_cons in Hrun.
    apply bind_Ok_inv in Hrun as (v & c1 & Hv & Hrun).
    apply bind_Ok_inv in Hrun as (vs & c2 & Hvs & Hrun).
    revert Hrun. mbeta. intros Hrun. simplify_eq.
    apply (getValue_count _ _ _ _ Ht) in Hv. apply IH in Hvs.
    simpl. lia.
Qed.

(** X7.  Where the lowering of an expression returns, it has appended exactly
    one operation for each node of the tree, the identifiers that are
    operands apart; the keyword arguments of a call add none, whatever trees
    they hold.  The counter has advanced by the same number. *)
Theorem emit_appends_one_operation_per_node t : forall c op c',
  emit t c = Ok op c' ->
  length (net_op (cur c')) = length (net_op (cur c)) + emit_count t /\
  next_fresh c' = next_fresh c + emit_count t.
Proof.
  assert (Hlen : forall c op c', emit t c = Ok op c' ->
            length (net_op (cur c')) = length (net_op (cur c)) + emit_count t).
  { induction t
      as [name|v type_ident|name inputs attributes IH|type input IH|kind trees IH]
      using Tree_ind'; intros c op c' Hrun.
    - destruct c as [e [nm ops] fr n].
      revert Hrun. simpl. unfold lookup. mnorm.
      destruct (e !! name) as [value|]; [|raised]. mnorm.
      intros Hrun. simplify_eq. simpl. rewrite length_app. simpl. lia.
    - destruct c as [e [nm ops] fr n]. simpl in Hrun.
      rewrite (bind_Ok _ _ _ _ _ (fresh_run e (Build_NetDef nm ops) fr n)) in Hrun.
      apply emitConst_Ok_inv in Hrun as (_ & _ & ->). simpl.
      by rewrite length_app.
    - rewrite emit_Apply in Hrun.
      change (emit_count (Apply name inputs attributes))
        with (S (operands_count inputs)).
      destruct (is_builtin name).
      + rewrite emitFillOp_eq in Hrun.
        apply bind_Ok_inv in Hrun as (values & c1 & Hvalues & Hrun).
        apply (getValues_count _ IH) in Hvalues.
        destruct c1 as [e [nm ops] fr n].
        apply emitFill_Ok_inv in Hrun as (_ & args & -> & _).
        simpl in *. rewrite length_app. simpl. lia.
      + apply bind_Ok_inv in Hrun as (values & c1 & Hvalues & Hrun).
        apply (getValues_count _ IH) in Hvalues.
        destruct c1 as [e [nm ops] fr n].
        apply emitCall_Ok_inv in Hrun as (_ & args & -> & _).
        simpl in *. rewrite length_app. simpl. lia.
    - change (emit_count (Cast type input)) with (S (operand_count input)).
      destruct c as [e0 [nm0 ops0] fr0 n0]. simpl in Hrun.
      apply bind_Ok_inv in Hrun as (c2type & c1 & Htype & Hrun).
      assert (c1 = Build_DefCompiler e0 (Build_NetDef nm0 ops0) fr0 n0) as ->.
      { revert Htype. destruct type; simpl; mbeta; intros Htype; by simplify_eq. }
      apply bind_Ok_inv in Hrun as (v & c1 & Hv & Hrun).
      apply (getValue_count _ _ _ _ IH) in Hv.
      destruct c1 as [e [nm ops] fr n].
      revert Hrun. mnorm. intros Hrun. simplify_eq.
      simpl in *. rewrite length_app. simpl. lia.
    - rewrite emit_Compound in Hrun.
      change (emit_count (Compound kind trees)) with (S (operands_count trees)).
      destruct (is_operator kind) eqn:Hkind; [|done].
      apply bind_Ok_inv in Hrun as (values & c1 & Hvalues & Hrun).
      apply (getValues_count _ IH) in Hvalues.
      destruct c1 as [e [nm ops] fr n].
      rewrite emitOperator_run in Hrun by done. simplify_eq.
      simpl in *. rewrite length_app. simpl. lia. }
  intros c op c' Hrun. split; [by eapply Hlen|].
  pose proof (Hlen _ _ _ Hrun) as Hn.
  destruct c as [e [nm ops] fr n].
  apply emit_appends in Hrun as (new & o & (-> & _) & _).
  simpl in *. rewrite length_app in Hn. lia.
Qed.

Lemma emit_appends_one_operation_per_node_witness :
  length (net_op (cur (state_of
    (emit (Apply "FC" [Compound K_plus [Ident "a"; Const 2 "f"]; Ident "c"]
             [("axis", Compound K_plus [Const 1 "i"; Const 1 "i"])]) c0)))) = 3.
Proof.
  assert (Hrun :
    emit (Apply "FC" [Compound K_plus [Ident "a"; Const 2 "f"]; Ident "c"]
            [("axis", Compound K_plus [Const 1 "i"; Const 1 "i"])]) c0 =
    Ok 2 (state_of
            (emit (Apply "FC" [Compound K_plus [Ident "a"; Const 2 "f"]; Ident "c"]
                     [("axis", Compound K_plus [Const 1 "i"; Const 1 "i"])]) c0)))
    by (vm_compute; reflexivity).
  destruct (emit_appends_one_operation_per_node _ _ _ _ Hrun) as [Hlen _].
  rewrite Hlen. reflexivity.
Defined.

(** ** The inputs of the operations of an expression *)

Lemma operand_value_weaken e n0 n n0' n' x :
  n0' <= n0 -> n <= n' -> operand_value e n0 n x -> operand_value e n0' n' x.
Proof.
  intros Hlo Hhi [Hx|(k & Hk & ->)]; [by left|].
  right. exists k. split; [lia|done].
Qed.

Lemma inputs_defined_weaken e n0 n0' ops : forall n,
  n0' <= n0 -> inputs_defined e n0 n ops -> inputs_defined e n0' n ops.
Proof.
  induction ops as [|o ops IH]; intros n Hlo; [done|].
  simpl. intros [Ho Hops]. split; [|by apply IH].
  eapply Forall_impl; [exact Ho|]. intros x. by apply operand_value_weaken.
Qed.

Lemma inputs_defined_app e n0 l1 l2 : forall n,
  inputs_defined e n0 n (l1 ++ l2) <->
  inputs_defined e n0 n l1 /\ inputs_defined e n0 (n + length l1) l2.
Proof.
  induction l1 as [|o l1 IH]; intros n; simpl.
  - rewrite Nat.add_0_r. tauto.
  - rewrite IH. replace (S n + length l1) with (n + S (length l1)) by lia. tauto.
Qed.

Lemma inputs_defined_snoc e n new ins ty outs args :
  inputs_defined e n n new ->
  Forall (operand_value e n (n + length new)) ins ->
  inputs_defined e n n (new ++ [Build_OperatorDef ty ins outs args]).
Proof. intros Hnew Hins. apply inputs_defined_app. by simpl. Qed.

Lemma getValue_inputs t e nm ops fr n v c' :
  emit_inputs_spec t ->
  getValue t (Build_DefCompiler e (Build_NetDef nm ops) fr n) = Ok v c' ->
  exists new,
    appended e nm ops fr n c' new /\ inputs_defined e n n new /\
    operand_value e n (n + length new) v.
Proof.
  intros Ht Hrun.
  assert (Hemit :
    (op ← emit t; output op 0) (Build_DefCompiler e (Build_NetDef nm ops) fr n)
      = Ok v c' ->
    exists new,
      appended e nm ops fr n c' new /\ inputs_defined e n n new /\
      operand_value e n (n + length new) v).
  { intros Hbind. pose proof Hbind as Hout.
    apply emit_then_output in Hout as (o & _ & _ & Hlt & ->).
    apply bind_Ok_inv in Hbind as (op & c1 & Hop & Hc').
    assert (c' = c1) as -> by (revert Hc'; unfold output; mbeta; intros; by simplify_eq).
    apply Ht in Hop as (new & Happ & Hin). exists new.
    split; [done|]. split; [done|].
    destruct Happ as [-> _]. simpl in *. right.
    exists (pred (n + length new)). split; [lia|done]. }
  destruct t; try (by apply Hemit).
  revert Hrun. unfold getValue, getValue_, lookup. mbeta. simpl.
  destruct (e !! name) as [value|] eqn:He; [|raised]. intros Hrun. simplify_eq.
  exists []. split; [|split]; [|done|].
  - split; [|done]. simpl. by rewrite app_nil_r, Nat.add_0_r.
  - left. by exists name.
Qed.

Lemma getValues_inputs trees e fr nm :
  Forall emit_inputs_spec trees ->
  forall ops n values c',
    getValues trees (Build_DefCompiler e (Build_NetDef nm ops) fr n) = Ok values c' ->
    exists new,
      appended e nm ops fr n c' new /\ inputs_defined e n n new /\
      Forall (operand_value e n (n + length new)) values.
Proof.
  induction 1 as [|t trees Ht _ IH]; intros ops n values c' Hrun.
  - rewrite getValues_nil in Hrun. simplify_eq. exists [].
    split; [|done]. split; [|done]. simpl. by rewrite app_nil_r, Nat.add_0_r.
  - rewrite getValues_cons in Hrun.
    apply bind_Ok_inv in Hrun as (v & c1 & Hv & Hrun).
    apply bind_Ok_inv in Hrun as (vs & c2 & Hvs & Hrun).
    revert Hrun. mbeta. intros Hrun. simplify_eq.
    apply (getValue_inputs _ _ _ _ _ _ _ _ Ht) in Hv
      as (new1 & (-> & Hflat1) & Hin1 & Hv).
    apply IH in Hvs as (new2 & (-> & Hflat2) & Hin2 & Hvs).
    exists (new1 ++ new2). rewrite length_app. split; [|split].
    + split; [|by apply flat_fresh_app].
      rewrite length_app, <- app_assoc. f_equal. lia.
    + apply inputs_defined_app. split; [done|].
      apply (inputs_defined_weaken _ (n + length new1)); [lia|done].
    + constructor.
      * eapply operand_value_weaken; [| |exact Hv]; lia.
      * eapply Forall_impl; [exact Hvs|]. intros x.
        apply operand_value_weaken; lia.
Qed.

Lemma emit_inputs t : emit_inputs_spec t.
Proof.
  induction t as [name|v type_ident|name inputs attributes IH|type input IH|kind trees IH]
    using Tree_ind'; intros e nm ops fr n op c' Hrun.
  - (* an identifier: Copy *)
    revert Hrun. simpl. unfold lookup. mnorm.
    destruct (e !! name) as [value|] eqn:He; [|raised]. mnorm.
    intros Hrun. simplify_eq. eexists [_]. split.
    + split; [by rewrite Nat.add_1_r|]. simpl. repeat split. by constructor.
    + simpl. split; [|done]. constructor; [|done]. left. by exists name.
  - (* a literal *)
    simpl in Hrun.
    rewrite (bind_Ok _ _ _ _ _ (fresh_run e (Build_NetDef nm ops) fr n)) in Hrun.
    apply emitConst_Ok_inv in Hrun as (_ & _ & ->). eexists [_]. split.
    + split; [by rewrite Nat.add_1_r|]. simpl. repeat split.
      unfold no_nets. simpl. by repeat constructor.
    + simpl. split; [|done]. by constructor.
  - (* a call *)
    rewrite emit_Apply in Hrun. destruct (is_builtin name).
    + rewrite emitFillOp_eq in Hrun.
      apply bind_Ok_inv in Hrun as (values & c1 & Hvalues & Hrun).
      apply (getValues_inputs _ _ _ _ IH) in Hvalues
        as (new & (-> & Hnew) & Hin & Hvalues).
      apply emitFill_Ok_inv in Hrun as (_ & args & -> & Hargs).
      eexists (new ++ [_]). split; [by apply appended_snoc|].
      apply inputs_defined_snoc; [done|]. by apply Forall_take.
    + apply bind_Ok_inv in Hrun as (values & c1 & Hvalues & Hrun).
      apply (getValues_inputs _ _ _ _ IH) in Hvalues
        as (new & (-> & Hnew) & Hin & Hvalues).
      apply emitCall_Ok_inv in Hrun as (_ & args & -> & Hargs).
      eexists (new ++ [_]). split; [by apply appended_snoc|].
      by apply inputs_defined_snoc.
  - (* a cast *)
    simpl in Hrun. apply bind_Ok_inv in Hrun as (c2type & c1 & Htype & Hrun).
    assert (c1 = Build_DefCompiler e (Build_NetDef nm ops) fr n) as ->.
    { revert Htype. destruct type; simpl; mbeta; intros Htype; by simplify_eq. }
    apply bind_Ok_inv in Hrun as (v & c1 & Hv & Hrun).
    apply (getValue_inputs input) in Hv as (new & (-> & Hnew) & Hin & Hv); [|done].
    revert Hrun. mnorm. intros Hrun. simplify_eq.
    eexists (new ++ [_]). split.
    + apply appended_snoc; [done..|]. unfold no_nets. simpl. by repeat constructor.
    + apply inputs_defined_snoc; [done|]. by constructor.
  - (* an operator, or a tree with no lowering *)
    rewrite emit_Compound in Hrun.
    destruct (is_operator kind) eqn:Hkind; [|done].
    apply bind_Ok_inv in Hrun as (values & c1 & Hvalues & Hrun).
    apply (getValues_inputs _ _ _ _ IH) in Hvalues
      as (new & (-> & Hnew) & Hin & Hvalues).
    rewrite emitOperator_run in Hrun by done. simplify_eq.
    eexists (new ++ [_]). split.
    + apply appended_snoc; [done..|]. unfold no_nets. simpl. by repeat constructor.
    + by apply inputs_defined_snoc.
Qed.

(** X8.  Where the lowering of an expression returns, every input of every
    operation it appended is defined: it is a name the environment binds, or
    the fresh name that is the output of an operation appended before it in
    the same lowering. *)
Theorem emit_inputs_are_defined t c op c' :
  emit t c = Ok op c' ->
  exists new,
    net_op (cur c') = net_op (cur c) ++ new /\
    inputs_defined (env c) (next_fresh c) (next_fresh c) new /\
    op_output <$> new =
      (fun k => [fresh_name k]) <$> seq (next_fresh c) (length new).
Proof.
  destruct c as [e [nm ops] fr n]. intros Hrun.
  apply emit_inputs in Hrun as (new & (-> & Hflat) & Hin).
  exists new. simpl. split; [done|]. split; [done|].
  by apply flat_fresh_outputs.
Qed.

Lemma emit_inputs_are_defined_witness :
  exists new,
    net_op (cur (state_of (emit (Compound K_star
                                   [Compound K_plus [Ident "a"; Const 2 "f"]; Ident "c"])
                             c0))) = [] ++ new /\
    inputs_defined (env c0) 0 0 new.
Proof.
  assert (Hrun :
    emit (Compound K_star [Compound K_plus [Ident "a"; Const 2 "f"]; Ident "c"]) c0 =
    Ok 2 (state_of (emit (Compound K_star
                            [Compound K_plus [Ident "a"; Const 2 "f"]; Ident "c"]) c0)))
    by (vm_compute; reflexivity).
  destruct (emit_inputs_are_defined _ _ _ _ Hrun) as (new & Hops & Hin & _).
  exists new. split; [exact Hops|exact Hin].
Defined.

(** ** List attributes *)

Lemma emit_Apply_Ok_inv name inputs attributes c op c' :
  is_builtin name = false ->
  emit (Apply name inputs attributes) c = Ok op c' ->
  exists values c1,
    getValues inputs c = Ok values c1 /\
    Forall literals_if_list attributes /\
    op = length (net_op (cur c1)) /\
    c' = emitted c1
           (Build_OperatorDef name values [fresh_name (next_fresh c1)]
              (List.map (fun attr => encode attr Argument_new) attributes)).
Proof.
  intros Hname Hrun. rewrite emit_Apply, Hname in Hrun.
  apply bind_Ok_inv in Hrun as (values & c1 & Hvalues & Hrun).
  exists values, c1. split; [done|].
  destruct c1 as [e [nm ops] fr n]. revert Hrun. unfold emitCall, emitted. mnorm.
  rewrite add_inputs_last. mnorm.
  destruct (decide (Forall literals_if_list attributes)) as [Hattrs|Hnot].
  - rewrite fill_args_run by done. mnorm. intros Hrun. by simplify_eq.
  - destruct (fill_args_throw attributes e nm ops name values [fresh_name n] fr (S n)
                [] Hnot) as [c2 Hc2].
    rewrite Hc2. by mnorm.
Qed.

(** X9.  In a generic call that is lowered, every keyword argument whose value
    is a list holds numeric literals only, and the list is split by suffix:
    the attribute at the position of the keyword argument carries its name,
    the literals of suffix f, narrowed to single precision, as its floats and
    all the others, converted to 64-bit integers, as its ints.  Each of the
    two lists keeps the order of the literals, and what order the two kinds
    had among each other is lost.  The operation has one attribute per
    keyword argument, whatever their number. *)
Theorem list_attribute_split_by_suffix name inputs attributes c op c' :
  is_builtin name = false ->
  emit (Apply name inputs attributes) c = Ok op c' ->
  exists o,
    net_op (cur c') !! op = Some o /\
    length (op_arg o) = length attributes /\
    forall i aname trees,
      attributes !! i = Some (aname, Compound TK_LIST trees) ->
      Forall is_Const trees /\
      op_arg o !! i =
      Some (Build_Argument aname None None (floats_of trees) (ints_of trees) None).
Proof.
  intros Hname Hrun.
  apply emit_Apply_Ok_inv in Hrun as (values & c1 & _ & Hattrs & -> & ->);
    [|done].
  eexists. split; [apply lookup_snoc|]. simpl.
  split; [apply length_map|].
  intros i aname trees Hi. split.
  - rewrite Forall_lookup in Hattrs. exact (Hattrs i _ Hi).
  - change (List.map (fun attr => encode attr Argument_new) attributes)
      with ((fun attr => encode attr Argument_new) <$> attributes).
    apply list_lookup_fmap_Some. exists (aname, Compound TK_LIST trees).
    split; [|exact Hi].
    unfold encode. simpl. by rewrite encode_list_split.
Qed.

Lemma list_attribute_split_by_suffix_witness :
  exists o,
    net_op (cur (state_of
      (emit (Apply "Op" [Ident "a"]
               [("k", Compound TK_LIST [Const 1 "i"; Const 2 "f"; Const 3 "LL"]);
                ("axis", Const 1 "i");
                ("w", Compound TK_LIST [Const 0.5 "f"; Const 2.5 "i"])]) c0))) !! 0
    = Some o /\
    op_arg o !! 0 = Some (Build_Argument "k" None None [2%float] [1%Z; 3%Z] None) /\
    op_arg o !! 2 = Some (Build_Argument "w" None None [0.5%float] [2%Z] None).
Proof.
  destruct (list_attribute_split_by_suffix "Op" [Ident "a"]
              [("k", Compound TK_LIST [Const 1 "i"; Const 2 "f"; Const 3 "LL"]);
               ("axis", Const 1 "i");
               ("w", Compound TK_LIST [Const 0.5 "f"; Const 2.5 "i"])]
              c0 0
              (state_of
                 (emit (Apply "Op" [Ident "a"]
                          [("k", Compound TK_LIST
                                   [Const 1 "i"; Const 2 "f"; Const 3 "LL"]);
                           ("axis", Const 1 "i");
                           ("w", Compound TK_LIST [Const 0.5 "f"; Const 2.5 "i"])])
                    c0)))
    as (o & Ho & _ & Hlists).
  - reflexivity.
  - vm_compute. reflexivity.
  - exists o. split; [exact Ho|]. split.
    + destruct (Hlists 0 "k" [Const 1 "i"; Const 2 "f"; Const 3 "LL"]) as [_ Hk];
        [reflexivity|].
      etransitivity; [exact Hk|]. vm_compute. reflexivity.
    + destruct (Hlists 2 "w" [Const 0.5 "f"; Const 2.5 "i"]) as [_ Hw];
        [reflexivity|].
      etransitivity; [exact Hw|]. vm_compute. reflexivity.
Defined.

(** ** The built-ins zeros, ones, zeros_like and ones_like *)

Lemma is_builtin_true builtin : builtin ∈ builtins -> is_builtin builtin = true.
Proof. intros H. by apply bool_decide_eq_true. Qed.

(** X10.  A built-in called with at most one operand and with an attribute that
    is not named shape raises UnrecognizedAttribute, naming the first such
    attribute; the operand has been lowered by then. *)
Theorem fill_rejects_other_attributes builtin inputs attributes values c c1 a :
  builtin ∈ builtins ->
  getValues inputs c = Ok values c1 ->
  length inputs <= 1 ->
  find (fun a => negb (String.eqb (fst a) "shape")) attributes = Some a ->
  emit (Apply builtin inputs attributes) c =
  Throw (UnrecognizedAttribute (fst a)) c1.
Proof.
  intros Hb Hvalues Hlen Hfind.
  rewrite emit_Apply, is_builtin_true, emitFillOp_eq by done.
  rewrite (bind_Ok _ _ _ _ _ Hvalues).
  apply getValues_length in Hvalues.
  unfold emitFill. mbeta. rewrite decide_False by lia.
  by rewrite check_shape_only_run, Hfind.
Qed.

Lemma fill_rejects_other_attributes_witness :
  emit (Apply "ones" [Ident "a"]
          [("shape", Const 2 "i"); ("dtype", Const 1 "i"); ("value", Const 3 "i")]) c0 =
  Throw (UnrecognizedAttribute "dtype") c0.
Proof.
  apply (fill_rejects_other_attributes "ones" [Ident "a"]
           [("shape", Const 2 "i"); ("dtype", Const 1 "i"); ("value", Const 3 "i")]
           ["a"] c0 c0 ("dtype", Const 1 "i")).
  - vm_compute. right. right. left.
  - reflexivity.
  - simpl. lia.
  - reflexivity.
Defined.

(** X11.  zeros or ones called with no operand and with attributes all named
    shape.  Unless the first attribute is a list holding something else than
    numeric literals, the call is lowered to one ConstantFill with no input,
    whose first argument encodes the first attribute and whose argument value
    is the float 0, or 1 for ones: a literal gives a float for the suffix f
    and an integer otherwise, a list of literals gives its floats and its
    ints, and any other value gives the name shape alone.  Further shape
    attributes are accepted and not encoded.  When the first attribute is a
    list holding something else than numeric literals, the call raises
    UnsupportedAttribute. *)
Theorem fill_from_shape_attribute builtin shape more c :
  builtin = "zeros" \/ builtin = "ones" ->
  Forall named_shape more ->
  let filled (a : Argument) :=
    emit (Apply builtin [] (("shape", shape) :: more)) c =
    Ok (length (net_op (cur c)))
       (emitted c
          (Build_OperatorDef "ConstantFill" [] [fresh_name (next_fresh c)]
             [ a;
               Build_Argument "value"
                 (Some (if decide (builtin = "ones") then 1%float else 0%float))
                 None [] [] None ])) in
  match shape with
  | Const v f =>
      filled (if decide (f = "f")
              then Build_Argument "shape" (Some (double_to_float v)) None [] [] None
              else Build_Argument "shape" None (Some (double_to_int64 v)) [] [] None)
  | Compound TK_LIST trees =>
      if decide (Forall is_Const trees)
      then filled (Build_Argument "shape" None None
                     (floats_of trees) (ints_of trees) None)
      else exists c',
             emit (Apply builtin [] (("shape", shape) :: more)) c =
             Throw UnsupportedAttribute c'
  | _ => filled (Build_Argument "shape" None None [] [] None)
  end.
Proof.
  intros Hb Hmore filled. destruct c as [e [nm ops] fr n].
  assert (Hin : builtin ∈ builtins).
  { destruct Hb as [-> | ->]; [by left|]. right. right. by left. }
  assert (Hok : forall a, literals_if_list ("shape", shape) ->
                  encode ("shape", shape) Argument_new = a -> filled a).
  { intros a Hshape <-. unfold filled.
    rewrite emit_Apply, is_builtin_true, emitFillOp_eq by done.
    rewrite (bind_Ok _ _ _ _ _ (getValues_nil _)).
    by rewrite emitFill_shape_run. }
  destruct shape as [x|v f|x ins ats|type input|kind trees];
    try (by apply Hok).
  destruct kind; try (by apply Hok).
  case_decide as Htrees.
  - apply Hok; [done|]. unfold encode. simpl. by rewrite encode_list_split.
  - rewrite emit_Apply, is_builtin_true, emitFillOp_eq by done.
    rewrite (bind_Ok _ _ _ _ _ (getValues_nil _)).
    by apply emitFill_shape_throw.
Qed.

Lemma fill_from_shape_attribute_witness :
  emit (Apply "zeros" []
          [("shape", Compound TK_LIST [Const 2 "i"; Const 3 "i"]);
           ("shape", Const 7 "i")]) c0 =
  Ok 0
     (emitted c0
        (Build_OperatorDef "ConstantFill" [] ["$t0"]
           [ Build_Argument "shape" None None [] [2%Z; 3%Z] None;
             Build_Argument "value" (Some 0%float) None [] [] None ])) /\
  exists c',
    emit (Apply "ones" [] [("shape", Compound TK_LIST [Const 2 "i"; Ident "a"])]) c0 =
    Throw UnsupportedAttribute c'.
Proof.
  split.
  - apply (fill_from_shape_attribute "zeros"
             (Compound TK_LIST [Const 2 "i"; Const 3 "i"]) [("shape", Const 7 "i")] c0).
    + by left.
    + repeat constructor.
  - apply (fill_from_shape_attribute "ones"
             (Compound TK_LIST [Const 2 "i"; Ident "a"]) [] c0).
    + by right.
    + constructor.
Defined.

(** X12.  zeros_like or ones_like called with one operand: one ConstantFill with
    the operand's value as input, the argument input_as_shape set to 0 and
    the argument value the float 0, or 1 for ones_like.  Attributes named
    shape are accepted and not encoded. *)
Theorem fill_like_operand builtin input attributes v c c1 :
  builtin = "zeros_like" \/ builtin = "ones_like" ->
  getValue input c = Ok v c1 ->
  Forall named_shape attributes ->
  emit (Apply builtin [input] attributes) c =
  Ok (length (net_op (cur c1)))
     (emitted c1
        (Build_OperatorDef "ConstantFill" [v] [fresh_name (next_fresh c1)]
           [ Build_Argument "input_as_shape" None (Some 0%Z) [] [] None;
             Build_Argument "value"
               (Some (if decide (builtin = "ones_like") then 1%float else 0%float))
               None [] [] None ])).
Proof.
  intros Hb Hv Hattrs.
  assert (Hin : builtin ∈ builtins).
  { destruct Hb as [-> | ->]; [right; by left|]. right. right. right. by left. }
  assert (Hvalues : getValues [input] c = Ok [v] c1).
  { rewrite getValues_cons, (bind_Ok _ _ _ _ _ Hv).
    by rewrite (bind_Ok _ _ _ _ _ (getValues_nil _)). }
  rewrite emit_Apply, is_builtin_true, emitFillOp_eq by done.
  rewrite (bind_Ok _ _ _ _ _ Hvalues).
  destruct c1 as [e [nm ops] fr n].
  rewrite emitFill_operand_run by done.
  by destruct Hb as [-> | ->].
Qed.

Lemma fill_like_operand_witness :
  emit (Apply "ones_like" [Ident "a"] [("shape", Const 2 "i")]) c0 =
  Ok 0
     (emitted c0
        (Build_OperatorDef "ConstantFill" ["a"] ["$t0"]
           [ Build_Argument "input_as_shape" None (Some 0%Z) [] [] None;
             Build_Argument "value" (Some 1%float) None [] [] None ])).
Proof.
  apply (fill_like_operand "ones_like" (Ident "a") [("shape", Const 2 "i")] "a" c0 c0).
  - by right.
  - reflexivity.
  - repeat constructor.
Defined.

(** ** Expression statements and assignments *)

(** X13.  An expression statement is the lowering of its expression with the
    outputs of the operation appended last removed.  The fresh name that
    operation had is not given back: the counter stays where the lowering of
    the expression left it. *)
Theorem expression_statement_drops_outputs t c op c1 :
  emit t c = Ok op c1 ->
  exists ops o,
    net_op (cur c1) = ops ++ [o] /\
    emitExpressionStatement t c =
    Ok tt (set_cur (net_set_op (ops ++ [op_clear_output o]) (cur c1)) c1).
Proof.
  destruct c as [e [nm ops] fr n]. intros Hrun.
  unfold emitExpressionStatement. rewrite (bind_Ok _ _ _ _ _ Hrun).
  apply emit_appends in Hrun as (new & o & (-> & _) & ->).
  exists (ops ++ new), o. simpl. split; [by rewrite app_assoc|].
  unfold clear_output. by rewrite app_assoc, <- length_app, op_update_last.
Qed.

Lemma expression_statement_drops_outputs_witness :
  emitExpressionStatement (Apply "Print" [Ident "a"] []) c0 =
  Ok tt (Build_DefCompiler (env c0)
           (Build_NetDef "" [Build_OperatorDef "Print" ["a"] [] []]) [] 1).
Proof.
  destruct (expression_statement_drops_outputs (Apply "Print" [Ident "a"] []) c0 0
              (emitted c0 (Build_OperatorDef "Print" ["a"] ["$t0"] [])))
    as (ops & o & Hops & Hrun).
  - reflexivity.
  - rewrite Hrun. simpl in Hops.
    destruct ops as [|o1 ops]; simpl in Hops.
    + injection Hops as <-. reflexivity.
    + injection Hops as _ Hops. by destruct ops.
Defined.

Lemma target_names_no_discard idents n :
  "_" ∉ idents -> target_names idents n = idents.
Proof.
  induction idents as [|ident idents IH]; [done|].
  rewrite not_elem_of_cons. intros [Hne Hnot]. simpl.
  case_decide; [done|]. f_equal. by apply IH.
Qed.

Lemma bind_env_self idents x : forall n e,
  x ∈ idents -> x <> "_" -> bind_env idents n e !! x = Some x.
Proof.
  induction idents as [|ident idents IH]; intros n e Hin Hx.
  - by apply elem_of_nil in Hin.
  - simpl. destruct (decide (x ∈ idents)) as [Hrest|Hrest].
    + case_decide; by apply IH.
    + apply elem_of_cons in Hin as [->|Hin]; [|done].
      case_decide; [done|].
      by rewrite bind_env_other, lookup_insert_eq.
Qed.

(** X14.  An assignment to targets none of which is the discard identifier.
    Where it returns, the outputs of the operation appended last are exactly
    the target names, in order: the fresh name that operation had is
    overwritten, though it stays used up.  Every target is then bound to its
    own name, and no other binding has changed. *)
Theorem assignment_outputs_are_targets idents reduction rhs c c' :
  emitAssignment idents reduction rhs c = Ok tt c' ->
  idents <> [] -> "_" ∉ idents ->
  (exists o, last (net_op (cur c')) = Some o /\ op_output o = idents) /\
  (forall x, x ∈ idents -> env c' !! x = Some x) /\
  (forall x, x ∉ idents -> env c' !! x = env c !! x) /\
  next_fresh c < next_fresh c'.
Proof.
  destruct c as [e [nm ops] fr n]. intros Hrun Hsome Hnot.
  apply emitAssignment_Ok_inv in Hrun as (new & ty & ins & args & _ & _ & ->).
  simpl. split; [|split; [|split]].
  - eexists. rewrite app_assoc, last_snoc. split; [done|]. simpl.
    destruct idents as [|ident idents]; [done|].
    apply target_names_no_discard, Hnot.
  - intros x Hx. apply bind_env_self; [done|]. by intros ->.
  - intros x Hx. by apply bind_env_other.
  - lia.
Qed.

Lemma assignment_outputs_are_targets_witness :
  exists o,
    last (net_op (cur (state_of (emitAssignment ["q"; "r"] K_assign
                                   (Apply "DivMod" [Ident "a"; Ident "c"] []) c0))))
      = Some o /\
    op_output o = ["q"; "r"].
Proof.
  destruct (assignment_outputs_are_targets ["q"; "r"] K_assign
              (Apply "DivMod" [Ident "a"; Ident "c"] []) c0
              (state_of (emitAssignment ["q"; "r"] K_assign
                           (Apply "DivMod" [Ident "a"; Ident "c"] []) c0)))
    as [Hout _].
  - vm_compute. reflexivity.
  - discriminate.
  - vm_compute. intros H. repeat (inversion H as [|? ? ? H']; clear H; rename H' into H).
  - exact Hout.
Defined.

(** ** The if statement *)

(** X15.  Where the lowering of an if statement returns, it has appended the
    operations of the condition (none when the condition is an identifier)
    and one If operation.  That operation has the condition's value as its
    only input and no output; its first argument, then_net, holds the
    operations of the true branch, lowered in a new, empty net; an argument
    else_net follows exactly when the false branch has a statement, and holds
    the operations of that branch. *)
Theorem if_shape cond trueBranch falseBranch c c' :
  emitIf cond trueBranch falseBranch c = Ok tt c' ->
  exists v c1 then_ops else_ops t_in t_out,
    getValue cond c = Ok v c1 /\
    cur c' =
      Build_NetDef (net_name (cur c))
        (net_op (cur c1) ++
         [Build_OperatorDef "If" [v] []
            (net_arg "then_net" then_ops ::
             match falseBranch with
             | [] => []
             | _ :: _ => [net_arg "else_net" else_ops]
             end)]) /\
    cur t_in = NetDef_new /\ env t_in = env c1 /\ next_fresh t_in = next_fresh c1 /\
    emitStatements trueBranch t_in = Ok tt t_out /\
    net_op (cur t_out) = then_ops /\
    match falseBranch with
    | [] => env c' = env t_out /\ next_fresh c' = next_fresh t_out
    | _ :: _ =>
        exists f_in f_out,
          cur f_in = NetDef_new /\ env f_in = env t_out /\
          next_fresh f_in = next_fresh t_out /\
          emitStatements falseBranch f_in = Ok tt f_out /\
          net_op (cur f_out) = else_ops /\
          env c' = env f_out /\ next_fresh c' = next_fresh f_out
    end.
Proof.
  destruct c as [e [nm ops] fr n]. intros Hrun. rewrite emitIf_eq in Hrun.
  apply emitIf_Ok_inv in Hrun
    as (v & new & e1 & ops1 & n1 & Hcond & _ & Htb & Hc');
    [|by apply emitStatements_in_frame..].
  destruct falseBranch as [|s fb].
  - subst c'. eexists v, _, ops1, [], _, _.
    split; [exact Hcond|]. split; [done|].
    split; [|split; [|split; [|split; [exact Htb|]]]]; done.
  - destruct Hc' as (e2 & ops2 & n2 & Hfb & ->).
    eexists v, _, ops1, ops2, _, _.
    split; [exact Hcond|]. split; [done|].
    split; [|split; [|split; [|split; [exact Htb|]]]]; [done..|].
    split; [done|]. eexists _, _.
    split; [|split; [|split; [|split; [exact Hfb|]]]]; done.
Qed.

Lemma if_shape_witness :
  exists then_ops,
    cur (state_of (emitIf (Ident "c") [Assign ["b"] K_assign (Const 1 "i")] [] c0)) =
    Build_NetDef ""
      [Build_OperatorDef "If" ["c"] [] [net_arg "then_net" then_ops]].
Proof.
  destruct (if_shape (Ident "c") [Assign ["b"] K_assign (Const 1 "i")] [] c0
              (state_of (emitIf (Ident "c") [Assign ["b"] K_assign (Const 1 "i")] [] c0)))
    as (v & c1 & then_ops & else_ops & t_in & t_out & Hcond & Hcur & _).
  - vm_compute. reflexivity.
  - exists then_ops. rewrite Hcur. injection Hcond as <- <-. reflexivity.
Defined.

(** ** The environment and the counter along the statements *)

Lemma emitStatements_steps_Forall R stmts :
  steps_closed R ->
  Forall (stmt_steps R) stmts ->
  forall c c', emitStatements stmts c = Ok tt c' ->
               R (env c) (next_fresh c) (env c') (next_fresh c').
Proof.
  intros HR. induction 1 as [|s stmts Hs _ IH]; intros c c' Hrun.
  - rewrite emitStatements_nil in Hrun. simplify_eq. apply (steps_refl R HR).
  - rewrite emitStatements_cons in Hrun.
    apply bind_Ok_inv in Hrun as ([] & c1 & Hs1 & Hrun).
    eapply (steps_trans R HR); [by apply Hs|by apply IH].
Qed.

Lemma emitStatement_steps R s : steps_closed R -> stmt_steps R s.
Proof.
  intros HR.
  induction s as [cond tb fb IHt IHf|cond body IHb|idents reduction rhs|t]
    using Stmt_ind'; intros [e [nm ops] fr n] c' Hrun; simpl.
  - rewrite emitStatement_If, emitIf_eq in Hrun.
    apply emitIf_Ok_inv in Hrun
      as (v & new & e1 & ops1 & n1 & _ & _ & Htb & Hc');
      [|by apply emitStatements_in_frame..].
    apply (emitStatements_steps_Forall R _ HR IHt) in Htb. simpl in Htb.
    assert (Hthen : R e n e1 n1).
    { eapply (steps_trans R HR); [apply (steps_fresh R HR e n (length new))|done]. }
    destruct fb as [|s fb]; [by subst c'|].
    destruct Hc' as (e2 & ops2 & n2 & Hfb & ->).
    apply (emitStatements_steps_Forall R _ HR IHf) in Hfb. simpl in Hfb.
    simpl. by eapply (steps_trans R HR).
  - rewrite emitStatement_While, emitWhile_eq in Hrun.
    apply emitWhile_Ok_inv in Hrun
      as (new & ty & ins & args & e2 & body_ops & n2 & _ & _ & _ & Hb & ->);
      [|by apply emitStatements_in_frame].
    apply (emitStatements_steps_Forall R _ HR IHb) in Hb. simpl in Hb. simpl.
    eapply (steps_trans R HR); [|exact Hb].
    replace (S (S (n + length new))) with (n + S (S (length new))) by lia.
    apply (steps_fresh R HR).
  - rewrite emitStatement_Assign in Hrun.
    apply emitAssignment_Ok_inv in Hrun as (new & ty & ins & args & _ & _ & ->).
    simpl. eapply (steps_trans R HR); [apply (steps_fresh R HR e n (S (length new)))|].
    apply (steps_bind R HR).
  - rewrite emitStatement_ExprStmt in Hrun.
    apply emitExpressionStatement_Ok_inv in Hrun as (new & ty & ins & args & _ & _ & ->).
    simpl. apply (steps_fresh R HR).
Qed.

Lemma emitStatements_steps R stmts c c' :
  steps_closed R ->
  emitStatements stmts c = Ok tt c' ->
  R (env c) (next_fresh c) (env c') (next_fresh c').
Proof.
  intros HR. apply emitStatements_steps_Forall; [done|].
  apply Forall_forall. intros s _. by apply emitStatement_steps.
Qed.

Lemma counter_steps_closed : steps_closed (fun _ n _ n' => n <= n').
Proof. split; intros; lia. Qed.

Lemma bind_env_identity idents : forall n e,
  env_identity e -> env_identity (bind_env idents n e).
Proof.
  induction idents as [|ident idents IH]; intros n e He; [done|].
  simpl. case_decide; apply IH; intros x v Hv Hx.
  - subst ident. rewrite lookup_insert_ne in Hv by done. by apply He.
  - destruct (decide (ident = x)) as [->|Hne].
    + rewrite lookup_insert_eq in Hv. by simplify_eq.
    + rewrite lookup_insert_ne in Hv by done. by apply He.
Qed.

Lemma identity_steps_closed :
  steps_closed (fun e _ e' _ => env_identity e -> env_identity e').
Proof.
  split; [by auto|by auto|by auto|].
  intros idents e n. apply bind_env_identity.
Qed.

(** X16.  Where the lowering of a list of statements returns, it has only
    appended to the current net: the operations that were there are as
    before, the stack of enclosing nets is as before (every net pushed for a
    branch or a loop has been popped), the counter has not gone down, and
    every identifier that was bound is still bound. *)
Theorem statements_only_append stmts c c' :
  emitStatements stmts c = Ok tt c' ->
  (exists new, cur c' = Build_NetDef (net_name (cur c)) (net_op (cur c) ++ new)) /\
  enclosing c' = enclosing c /\
  next_fresh c <= next_fresh c' /\
  (forall x, is_Some (env c !! x) -> is_Some (env c' !! x)).
Proof.
  intros Hrun. split; [|split; [|split]].
  - destruct c as [e [nm ops] fr n].
    apply emitStatements_in_frame in Hrun as (e' & new & n' & ->). by exists new.
  - destruct c as [e [nm ops] fr n].
    by apply emitStatements_in_frame in Hrun as (e' & new & n' & ->).
  - by apply (emitStatements_steps _ _ _ _ counter_steps_closed) in Hrun.
  - exact (emitStatements_env_grows _ _ _ Hrun).
Qed.

Lemma statements_only_append_witness :
  enclosing (state_of (emitStatements if_program c0)) = [] /\
  0 <= next_fresh (state_of (emitStatements if_program c0)).
Proof.
  destruct (statements_only_append if_program c0
              (state_of (emitStatements if_program c0)))
    as (_ & Hstack & Hcounter & _).
  - vm_compute. reflexivity.
  - split; [exact Hstack|exact Hcounter].
Defined.

Lemma map_names_env_run names : forall e nd fr n,
  map_names names (Build_DefCompiler e nd fr n) =
  Ok tt (Build_DefCompiler (map_names_env names e) nd fr n).
Proof.
  induction names as [|name names IH]; intros e nd fr n; [done|].
  unfold map_names. simpl. unfold map at 1. mbeta. simpl.
  apply IH.
Qed.

Lemma map_names_env_identity names : forall e,
  env_identity e -> env_identity (map_names_env names e).
Proof.
  induction names as [|name names IH]; intros e He; [done|].
  apply IH. intros x v Hv Hx.
  destruct (decide (name = x)) as [->|Hne].
  - rewrite lookup_insert_eq in Hv. by simplify_eq.
  - rewrite lookup_insert_ne in Hv by done. by apply He.
Qed.

Lemma map_names_env_grows names : forall e x,
  is_Some (e !! x) -> is_Some (map_names_env names e !! x).
Proof.
  induction names as [|name names IH]; intros e x Hx; [done|].
  apply IH. destruct (decide (name = x)) as [->|Hne].
  - by rewrite lookup_insert_eq.
  - by rewrite lookup_insert_ne.
Qed.

Lemma map_names_env_bound names : forall e x,
  x ∈ names -> is_Some (map_names_env names e !! x).
Proof.
  induction names as [|name names IH]; intros e x Hx.
  - by apply elem_of_nil in Hx.
  - apply elem_of_cons in Hx as [->|Hx]; [|by apply IH].
    change (is_Some (map_names_env names (<[name:=name]> e) !! name)).
    apply map_names_env_grows. by rewrite lookup_insert_eq.
Qed.

Lemma run_statements def nd :
  run def (DefCompiler_new nd) =
  emitStatements (statements def)
    (Build_DefCompiler
       (map_names_env (returns def) (map_names_env (params def) ∅))
       (net_set_name (def_name def) nd) [] 0).
Proof.
  unfold run. unfold set_net_name at 1. mbeta. unfold DefCompiler_new. simpl.
  unfold set_cur. simpl.
  change ((map_names (params def) ≫= (fun _ => map_names (returns def) ≫=
             (fun _ => emitStatements (statements def))))
            (Build_DefCompiler ∅ (net_set_name (def_name def) nd) [] 0) = 
          emitStatements (statements def)
            (Build_DefCompiler
               (map_names_env (returns def) (map_names_env (params def) ∅))
               (net_set_name (def_name def) nd) [] 0)).
  rewrite (bind_Ok _ _ _ _ _ (map_names_env_run (params def) ∅ _ [] 0)).
  by rewrite (bind_Ok _ _ _ _ _ (map_names_env_run (returns def) _ _ [] 0)).
Qed.

(** X17.  The environment of a function.  Where [run] returns, every name the
    environment binds, the discard identifier apart, is bound to itself: the
    compiler renames no variable, and an assignment to a variable writes the
    blob of that name again.  The parameters and the returns of the function
    are all bound, whether the statements assign them or not. *)
Theorem environment_renames_only_discard def nd c' :
  run def (DefCompiler_new nd) = Ok tt c' ->
  (forall x v, env c' !! x = Some v -> x <> "_" -> v = x) /\
  (forall x, x ∈ params def ++ returns def -> is_Some (env c' !! x)).
Proof.
  rewrite run_statements. intros Hrun. split.
  - apply (emitStatements_steps _ _ _ _ identity_steps_closed) in Hrun.
    apply Hrun. simpl. by do 2 apply map_names_env_identity.
  - intros x Hx. apply (emitStatements_env_grows _ _ _ Hrun). simpl.
    apply elem_of_app in Hx as [Hx|Hx].
    + by apply map_names_env_grows, map_names_env_bound.
    + by apply map_names_env_bound.
Qed.

Lemma environment_renames_only_discard_witness :
  is_Some (env (state_of (run def_while (DefCompiler_new NetDef_new))) !! "c").
Proof.
  destruct (environment_renames_only_discard def_while NetDef_new
              (state_of (run def_while (DefCompiler_new NetDef_new))))
    as [_ Hbound].
  - vm_compute. reflexivity.
  - apply Hbound. vm_compute. right. left.
Defined.

(** ** Fresh names *)

(** X18.  Two calls of [fresh] made at different values of the counter return
    different names, and every name [fresh] returns begins with $t; each call
    advances the counter by one and changes nothing else. *)
Theorem fresh_names_differ c1 c2 a b c1' c2' :
  fresh c1 = Ok a c1' ->
  fresh c2 = Ok b c2' ->
  next_fresh c1 <> next_fresh c2 ->
  a <> b /\ generated a /\ next_fresh c1' = S (next_fresh c1) /\
  env c1' = env c1 /\ cur c1' = cur c1 /\ enclosing c1' = enclosing c1.
Proof.
  unfold fresh. intros H1 H2 Hne. simplify_eq. simpl.
  split; [|split; [apply generated_fresh_name|done]].
  intros Heq. by apply fresh_name_inj in Heq.
Qed.

Lemma fresh_names_differ_witness :
  "$t9" <> "$t10".
Proof.
  apply (fresh_names_differ
           (Build_DefCompiler ∅ NetDef_new [] 9)
           (Build_DefCompiler ∅ NetDef_new [] 10)
           "$t9" "$t10"
           (Build_DefCompiler ∅ NetDef_new [] 10)
           (Build_DefCompiler ∅ NetDef_new [] 11)).
  - reflexivity.
  - reflexivity.
  - simpl. lia.
Defined.

(** ** The errors of a lowering *)

Lemma throws_only_bind {A B : Type} P (m : M A) (k : A -> M B) :
  throws_only P m -> (forall a, throws_only P (k a)) -> throws_only P (m ≫= k).
Proof.
  intros Hm Hk c e c' H. unfold mbind, M_bind in H.
  destruct (m c) as [a c1|e1 c1] eqn:Hmc.
  - by eapply Hk.
  - simplify_eq. by eapply Hm.
Qed.

Lemma throws_only_ret {A : Type} P (a : A) : throws_only P (mret a).
Proof. intros c e c' H. discriminate H. Qed.

Lemma throws_only_throw {A : Type} (P : Error -> Prop) e :
  P e -> throws_only P (throw e : M A).
Proof. intros He c e' c' H. unfold throw in H. by simplify_eq. Qed.

Lemma throws_only_get P : throws_only P get.
Proof. intros c e c' H. discriminate H. Qed.

Lemma throws_only_modify P g : throws_only P (modify g).
Proof. intros c e c' H. discriminate H. Qed.

Lemma throws_only_add_op P : throws_only P add_op.
Proof. intros c e c' H. discriminate H. Qed.

Lemma throws_only_fresh P : throws_only P fresh.
Proof. intros c e c' H. discriminate H. Qed.

Lemma throws_only_lookup x : throws_only rejects_program (lookup x).
Proof.
  intros c e c' H. unfold lookup in H. revert H. mbeta.
  destruct (env c !! x); [raised|]. intros H. by simplify_eq.
Qed.

Create HintDb throws discriminated.

(** One step through a method: a primitive that raises nothing, a raise of
    an error that rejects the program, a conditional, a method already gone
    through, or a bind. *)
Ltac throws_step :=
  lazymatch goal with
  | |- throws_only _ (if ?b then _ else _) => destruct b
  | |- throws_only _ (mret _) => apply throws_only_ret
  | |- throws_only _ (throw _) => apply throws_only_throw; exact I
  | |- throws_only _ (lookup _) => apply throws_only_lookup
  | |- throws_only _ fresh => apply throws_only_fresh
  | |- throws_only _ add_op => apply throws_only_add_op
  | |- throws_only _ get => apply throws_only_get
  | |- _ =>
      first [ assumption
            | solve [auto 1 with throws nocore]
            | apply throws_only_modify
            | apply throws_only_bind; [|intros ?] ]
  end.

Ltac throws := repeat throws_step.

Lemma throws_only_add_arg P op : throws_only P (add_arg op).
Proof. unfold add_arg. throws. Qed.

Lemma throws_only_output P op k : throws_only P (output op k).
Proof. unfold output. throws. Qed.

Lemma throws_only_output_size P op : throws_only P (output_size op).
Proof. unfold output_size. throws. Qed.

Lemma throws_only_mutable_n P a : throws_only P (mutable_n a).
Proof. unfold mutable_n. throws. Qed.

#[local] Hint Resolve throws_only_add_arg throws_only_output
  throws_only_output_size throws_only_mutable_n : throws.

Lemma throws_only_constValue t : throws_only rejects_program (constValue t).
Proof. destruct t; simpl; throws. Qed.

Lemma throws_only_fillArg_list arg trees :
  throws_only rejects_program (fillArg_list arg trees).
Proof.
  induction trees as [|t trees IH]; simpl; [throws|].
  apply throws_only_bind; [apply throws_only_constValue|].
  intros [v f]. throws.
Qed.

Lemma throws_only_fillArg arg attr : throws_only rejects_program (fillArg arg attr).
Proof.
  unfold fillArg. apply throws_only_bind; [throws|]. intros _.
  destruct (snd attr) as [x|v f|x ins ats|type input|kind trees]; try throws.
  destruct kind; try throws. apply throws_only_fillArg_list.
Qed.

#[local] Hint Resolve throws_only_fillArg : throws.

Lemma throws_only_fill_args op attributes :
  throws_only rejects_program (fill_args op attributes).
Proof. induction attributes as [|a attributes IH]; simpl; throws. Qed.

Lemma throws_only_add_inputs P op values : throws_only P (add_inputs op values).
Proof. induction values as [|v values IH]; simpl; throws. Qed.

Lemma throws_only_emitConst v output type_ident :
  throws_only rejects_program (emitConst v output type_ident).
Proof. unfold emitConst. throws. Qed.

Lemma throws_only_getType type : throws_only rejects_program (getType type).
Proof. destruct type; simpl; throws. Qed.

Lemma throws_only_check_shape_only builtin_type attributes has_shape :
  throws_only rejects_program (check_shape_only builtin_type attributes has_shape).
Proof.
  intros c e c' H. rewrite check_shape_only_run in H.
  destruct (find (fun a => negb (String.eqb (fst a) "shape")) attributes);
    by simplify_eq.
Qed.

#[local] Hint Resolve throws_only_fill_args throws_only_add_inputs
  throws_only_emitConst throws_only_getType throws_only_check_shape_only : throws.

Lemma throws_only_emitOperator kind ninputs values :
  is_operator kind = true ->
  throws_only rejects_program (emitOperator kind ninputs values).
Proof.
  intros Hkind [e [nm ops] fr n] err c' H.
  rewrite emitOperator_run in H by done. discriminate H.
Qed.

Lemma throws_only_emitCall name values attributes :
  throws_only rejects_program (emitCall name values attributes).
Proof. unfold emitCall. throws. Qed.

(** The built-ins read [attributes()[0]] only where there is no operand, and
    they have refused by then a call with neither operand nor attribute. *)
Lemma throws_only_emitFill builtin_type values attributes :
  throws_only rejects_program (emitFill builtin_type values attributes).
Proof.
  destruct values as [|value0 values].
  - destruct attributes as [|attribute0 attributes].
    + intros c e c' H.
      destruct (decide (builtin_type = "zeros" \/ builtin_type = "ones")).
      * rewrite emitFill_arity in H; [by simplify_eq|by constructor|].
        right. left. by simpl.
      * rewrite emitFill_arity in H; [by simplify_eq|by constructor|].
        right. right. by simpl.
    + unfold emitFill. throws.
  - unfold emitFill. throws.
Qed.

Lemma throws_only_getValue t :
  throws_only rejects_program (emit t) -> throws_only rejects_program (getValue t).
Proof.
  intros Ht. destruct t; unfold getValue, getValue_; throws.
Qed.

Lemma throws_only_getValues trees :
  Forall (fun t => throws_only rejects_program (emit t)) trees ->
  throws_only rejects_program (getValues trees).
Proof.
  induction 1 as [|t trees Ht _ IH]; [unfold getValues; simpl; throws|].
  rewrite getValues_cons.
  apply throws_only_bind; [by apply throws_only_getValue|]. intros v. throws.
Qed.

Lemma throws_only_emit t : throws_only rejects_program (emit t).
Proof.
  induction t as [name|v type_ident|name inputs attributes IH|type input IH|kind trees IH]
    using Tree_ind'.
  - simpl. throws.
  - simpl. throws.
  - rewrite emit_Apply. destruct (is_builtin name).
    + rewrite emitFillOp_eq.
      apply throws_only_bind; [by apply throws_only_getValues|].
      intros values. apply throws_only_emitFill.
    + apply throws_only_bind; [by apply throws_only_getValues|].
      intros values. apply throws_only_emitCall.
  - simpl. apply throws_only_bind; [apply throws_only_getType|]. intros c2type.
    apply throws_only_bind; [by apply throws_only_getValue|]. intros v. throws.
  - rewrite emit_Compound. destruct (is_operator kind) eqn:Hkind; [|throws].
    apply throws_only_bind; [by apply throws_only_getValues|].
    intros values. by apply throws_only_emitOperator.
Qed.

#[local] Hint Resolve throws_only_emit : throws.

Lemma throws_only_widen_outputs P op n : throws_only P (widen_outputs op n).
Proof.
  unfold widen_outputs. apply throws_only_bind; [throws|]. intros size.
  induction (replicate (n - size) ()) as [|u l IH]; simpl; throws.
Qed.

Lemma throws_only_bind_targets P op idents : forall i,
  throws_only P (bind_targets op idents i).
Proof. induction idents as [|ident idents IH]; intros i; simpl; throws. Qed.

(** A reduction reads [idents()[0]] only after it has refused every
    number of targets but one. *)
Lemma throws_only_emitAssignment idents reduction rhs :
  throws_only rejects_program (emitAssignment idents reduction rhs).
Proof.
  unfold emitAssignment. apply throws_only_bind.
  - destruct (decide (reduction ≠ K_assign)); [|throws].
    destruct idents as [|lhs idents]; [|throws].
    intros c e c' H. revert H. mbeta. simpl. intros H. by simplify_eq.
  - intros op. apply throws_only_bind; [apply throws_only_widen_outputs|].
    intros _. apply throws_only_bind_targets.
Qed.

Lemma throws_only_emitExpressionStatement t :
  throws_only rejects_program (emitExpressionStatement t).
Proof. unfold emitExpressionStatement. throws. Qed.

Lemma throws_only_emitIf es cond trueBranch falseBranch :
  throws_only rejects_program (es trueBranch) ->
  throws_only rejects_program (es falseBranch) ->
  throws_only rejects_program (emitIf_ es cond trueBranch falseBranch).
Proof.
  intros Ht Hf. unfold emitIf_.
  apply throws_only_bind; [apply throws_only_getValue, throws_only_emit|].
  intros v. throws.
Qed.

Lemma throws_only_emitWhile es cond body :
  throws_only rejects_program (es body) ->
  throws_only rejects_program (emitWhile_ es cond body).
Proof. intros Hb. unfold emitWhile_. throws. Qed.

Lemma throws_only_emitStatements_Forall stmts :
  Forall (fun s => throws_only rejects_program (emitStatement s)) stmts ->
  throws_only rejects_program (emitStatements stmts).
Proof.
  induction 1 as [|s stmts Hs _ IH].
  - intros c e c' H. rewrite emitStatements_nil in H. discriminate H.
  - rewrite emitStatements_cons. throws.
Qed.

Lemma throws_only_emitStatement s : throws_only rejects_program (emitStatement s).
Proof.
  induction s as [cond tb fb IHt IHf|cond body IHb|idents reduction rhs|t]
    using Stmt_ind'.
  - rewrite emitStatement_If, emitIf_eq.
    by apply throws_only_emitIf; apply throws_only_emitStatements_Forall.
  - rewrite emitStatement_While, emitWhile_eq.
    by apply throws_only_emitWhile, throws_only_emitStatements_Forall.
  - rewrite emitStatement_Assign. apply throws_only_emitAssignment.
  - rewrite emitStatement_ExprStmt. apply throws_only_emitExpressionStatement.
Qed.

Lemma throws_only_emitStatements stmts :
  throws_only rejects_program (emitStatements stmts).
Proof.
  apply throws_only_emitStatements_Forall, Forall_forall.
  intros s _. apply throws_only_emitStatement.
Qed.

Lemma throws_only_map_names P names : throws_only P (map_names names).
Proof. induction names as [|name names IH]; simpl; throws. Qed.

Lemma throws_only_run def : throws_only rejects_program (run def).
Proof.
  unfold run. apply throws_only_bind; [throws|]. intros _.
  apply throws_only_bind; [apply throws_only_map_names|]. intros _.
  apply throws_only_bind; [apply throws_only_map_names|]. intros _.
  apply throws_only_emitStatements.
Qed.

(** X19.  The errors of [run].  Whatever the function and the compiler object,
    an exception of [run] is one of the errors that reject the program.  It is
    never an index past the end of a list view: [idents()[0]] and
    [attributes()[0]] are read only where the list has an element.  It is
    never the unknown kind of [operatorName], which is called only with the
    kinds it names. *)
Theorem run_raises_only_program_errors def c e c' :
  run def c = Throw e c' ->
  rejects_program e /\ e <> IndexOutOfRange /\ forall kind, e <> UnknownKind kind.
Proof.
  intros Hrun. apply throws_only_run in Hrun.
  split; [done|]. split; [by intros ->|]. intros kind ->. done.
Qed.

Lemma run_raises_only_program_errors_witness :
  run def_failing (DefCompiler_new NetDef_new) =
    Throw (UnboundIdentifier "x")
      (state_of (run def_failing (DefCompiler_new NetDef_new))) /\
  rejects_program (UnboundIdentifier "x").
Proof.
  assert (Hrun : run def_failing (DefCompiler_new NetDef_new) =
                 Throw (UnboundIdentifier "x")
                   (state_of (run def_failing (DefCompiler_new NetDef_new))))
    by (vm_compute; reflexivity).
  split; [exact Hrun|].
  exact (proj1 (run_raises_only_program_errors _ _ _ _ Hrun)).
Defined.

(** X20.  The errors of [define], the parser's calls included.  Where every
    call of the parser hands over a function, [define] does what it does on
    the list of these functions.  An exception of [define] that is not the
    parser's own is raised by [defineFunction] on one of the functions of the
    text, those before it having been defined: either the name of that
    function is registered already and the exception says so, leaving the
    registry as it is, or [run] raised it on that function and it is one of
    the errors that reject the program.  When the parser raises, the functions
    before that point have been defined and stay registered. *)
Theorem define_raises_program_error_or_duplicate :
  (forall defs u,
      define_str (Parsed_function <$> defs) u =
      match define defs u with
      | Returned u' => Define_returned u'
      | Raised e u' => Define_raised e u'
      end) /\
  (forall str u e u',
      define_str str u = Define_raised e u' ->
      exists defs def rest u1,
        str = (Parsed_function <$> defs) ++ Parsed_function def :: rest /\
        define defs u = Returned u1 /\
        defineFunction def u1 = Raised e u' /\
        ((is_Some (functions u1 !! def_name def) /\
          e = DuplicateDefinition (def_name def) /\ u' = u1) \/
         (functions u1 !! def_name def = None /\
          rejects_program e /\
          exists c, run def (DefCompiler_new NetDef_new) = Throw e c))) /\
  (forall str u u',
      define_str str u = Define_parser_raised u' ->
      exists defs rest,
        str = (Parsed_function <$> defs) ++ Parser_raises :: rest /\
        define defs u = Returned u').
Proof.
  split; [|split].
  - induction defs as [|def defs IH]; intros u; [done|].
    simpl. destruct (defineFunction def u) as [u1|e1 u1]; [apply IH|done].
  - induction str as [|[def|] str IH]; intros u e u' Hrun; [done| |done].
    simpl in Hrun. destruct (defineFunction def u) as [u1|e1 u1] eqn:Hdef.
    + apply IH in Hrun as (defs & d & rest & u2 & -> & Hdefs & Hd & Hcase).
      exists (def :: defs), d, rest, u2. split; [done|].
      split; [simpl; by rewrite Hdef|]. done.
    + simplify_eq. exists [], def, str, u. split; [done|]. split; [done|].
      split; [done|]. unfold defineFunction in Hdef.
      destruct (decide (is_Some (functions u !! def_name def))) as [Hdup|Hnew].
      * simplify_eq. by left.
      * destruct (run def (DefCompiler_new NetDef_new)) as [[] c|e1 c] eqn:Hr;
          [done|].
        simplify_eq. right. split; [by apply eq_None_not_Some|].
        split; [by apply throws_only_run in Hr|]. by exists c.
  - induction str as [|[def|] str IH]; intros u u' Hrun; [done| |].
    + simpl in Hrun. destruct (defineFunction def u) as [u1|e1 u1] eqn:Hdef;
        [|done].
      apply IH in Hrun as (defs & rest & -> & Hdefs).
      exists (def :: defs), rest. split; [done|]. simpl. by rewrite Hdef.
    + simpl in Hrun. simplify_eq. by exists [], str.
Qed.

Lemma define_raises_program_error_or_duplicate_witness :
  exists defs def rest u1,
    [Parsed_function def_while;
     Parsed_function (Build_Def "g" [] [] [ExprStmt (Const 1 "u")]);
     Parser_raises] =
    (Parsed_function <$> defs) ++ Parsed_function def :: rest /\
    define defs unit_empty = Returned u1 /\
    exists u', defineFunction def u1 = Raised (MalformedLiteral "u") u'.
Proof.
  destruct define_raises_program_error_or_duplicate as (_ & Hraised & _).
  destruct (Hraised
              [Parsed_function def_while;
               Parsed_function (Build_Def "g" [] [] [ExprStmt (Const 1 "u")]);
               Parser_raises]
              unit_empty (MalformedLiteral "u")
              (unit_of (define [def_while;
                                Build_Def "g" [] [] [ExprStmt (Const 1 "u")]]
                          unit_empty)))
    as (defs & def & rest & u1 & Hstr & Hdefs & Hdef & _).
  - vm_compute. reflexivity.
  - exists defs, def, rest, u1. split; [exact Hstr|]. split; [exact Hdefs|].
    eexists. exact Hdef.
Defined.

(** ** The registry of the compilation unit *)

Lemma top_net_no_frames c : enclosing c = [] -> top_net c = cur c.
Proof. unfold top_net. by intros ->. Qed.

(** X21.  A definition that returns.  The name was not registered before; the
    registry now holds under it the net that [run] built, which bears the
    function's name, and [createNet] finds it; the stack of nets was back to
    the function's own net when [run] returned.  What [createNet] finds under
    any other name is as before. *)
Theorem defineFunction_registers def u u' :
  defineFunction def u = Returned u' ->
  functions u !! def_name def = None /\
  (exists c,
      run def (DefCompiler_new NetDef_new) = Ok tt c /\
      enclosing c = [] /\ net_name (cur c) = def_name def /\
      createNet (def_name def) u' = inr (cur c)) /\
  (forall name, name <> def_name def -> createNet name u' = createNet name u).
Proof.
  unfold defineFunction. intros Hdef.
  destruct (decide (is_Some (functions u !! def_name def))) as [Hdup|Hnew]; [done|].
  split; [by apply eq_None_not_Some|].
  destruct (run def (DefCompiler_new NetDef_new)) as [[] c|e1 c] eqn:Hrun; [|done].
  simplify_eq. split.
  - exists c. split; [done|].
    apply run_Ok_inv in Hrun as (e0 & e & _ & Hstack & Hname & _).
    split; [done|]. split; [done|].
    unfold createNet. simpl. by rewrite lookup_insert_eq, top_net_no_frames.
  - intros name Hname. unfold createNet. simpl. by rewrite lookup_insert_ne.
Qed.

Lemma defineFunction_registers_witness :
  createNet "f" (unit_of (defineFunction def_while unit_empty)) = inr net_while.
Proof.
  destruct (defineFunction_registers def_while unit_empty
              (unit_of (defineFunction def_while unit_empty)))
    as (_ & (c & Hrun & _ & _ & Hnet) & _).
  - vm_compute. reflexivity.
  - transitivity (inr (B:=NetDef) (A:=Error) (cur c)); [exact Hnet|]. f_equal.
    assert (Hc : c = state_of (run def_while (DefCompiler_new NetDef_new)))
      by (by rewrite Hrun).
    rewrite Hc. vm_compute. reflexivity.
Defined.

Lemma defineFunction_keeps def u name net :
  functions u !! name = Some net ->
  functions (unit_of (defineFunction def u)) !! name = Some net.
Proof.
  intros Hname. unfold defineFunction.
  destruct (decide (is_Some (functions u !! def_name def))) as [Hdup|Hnew]; [done|].
  assert (Hne : def_name def <> name).
  { intros Heq. apply Hnew. rewrite Heq, Hname. by eexists. }
  destruct (run def (DefCompiler_new NetDef_new)) as [[] c|e1 c]; simpl;
    by rewrite lookup_insert_ne.
Qed.

Lemma define_keeps defs : forall u name net,
  functions u !! name = Some net ->
  functions (unit_of (define defs u)) !! name = Some net.
Proof.
  induction defs as [|def defs IH]; intros u name net Hname; [done|].
  simpl. pose proof (defineFunction_keeps def u name net Hname) as Hkept.
  destruct (defineFunction def u) as [u1|e u1]; simpl in Hkept.
  - by apply IH.
  - done.
Qed.

(** X22.  [define] never replaces or removes a function: whatever the functions
    it is given and whether it returns or raises, a net that was registered
    under a name is registered under it afterwards, unchanged. *)
Theorem define_keeps_registered defs u name net :
  functions u !! name = Some net ->
  functions (unit_of (define defs u)) !! name = Some net.
Proof. apply define_keeps. Qed.

Lemma define_keeps_registered_witness :
  functions (unit_of (define [def_failing; def_while]
                        (Build_CompilationUnitImpl {["g" := net_while]}))) !! "g" =
  Some net_while.
Proof.
  apply (define_keeps_registered [def_failing; def_while]
           (Build_CompilationUnitImpl {["g" := net_while]}) "g" net_while).
  reflexivity.
Defined.

(** X23.  [define] stops at the first function whose definition raises: the
    functions before it are defined, the exception and the registry are those
    of the definition that raised, and the functions after it are not looked
    at. *)
Theorem define_stops_at_first_failure defs : forall u e u',
  define defs u = Raised e u' ->
  exists before def after u1,
    defs = before ++ def :: after /\
    define before u = Returned u1 /\
    defineFunction def u1 = Raised e u'.
Proof.
  induction defs as [|def defs IH]; intros u e u' Hrun; [done|].
  simpl in Hrun. destruct (defineFunction def u) as [u1|e1 u1] eqn:Hdef.
  - apply IH in Hrun as (before & d & after & u2 & -> & Hbefore & Hd).
    exists (def :: before), d, after, u2. split; [done|]. split; [|done].
    simpl. by rewrite Hdef.
  - simplify_eq. by exists [], def, defs, u.
Qed.

Lemma define_stops_at_first_failure_witness :
  exists before def after u1,
    [def_while; def_failing; def_while] = before ++ def :: after /\
    define before unit_empty = Returned u1 /\
    defineFunction def u1 =
    Raised (DuplicateDefinition "f")
      (unit_of (define [def_while; def_failing; def_while] unit_empty)).
Proof.
  apply (define_stops_at_first_failure [def_while; def_failing; def_while]
           unit_empty (DuplicateDefinition "f")
           (unit_of (define [def_while; def_failing; def_while] unit_empty))).
  vm_compute. reflexivity.
Defined.

Lemma defineFunction_Returned_dom def u u' name :
  defineFunction def u = Returned u' ->
  functions u !! def_name def = None /\
  (is_Some (functions u' !! name) <->
   is_Some (functions u !! name) \/ name = def_name def).
Proof.
  unfold defineFunction. intros Hdef.
  destruct (decide (is_Some (functions u !! def_name def))) as [Hdup|Hnew]; [done|].
  split; [by apply eq_None_not_Some|].
  destruct (run def (DefCompiler_new NetDef_new)) as [[] c|e1 c]; [|done].
  simplify_eq. simpl. destruct (decide (def_name def = name)) as [<-|Hne].
  - rewrite lookup_insert_eq. split; [by right|by eexists].
  - rewrite lookup_insert_ne by done. split; [by left|].
    intros [H|H]; [done|]. by destruct Hne.
Qed.

Lemma define_Returned_dom defs : forall u u',
  define defs u = Returned u' ->
  NoDup (def_name <$> defs) /\
  (forall def, def ∈ defs -> functions u !! def_name def = None) /\
  (forall name, is_Some (functions u' !! name) <->
                is_Some (functions u !! name) \/ name ∈ def_name <$> defs).
Proof.
  induction defs as [|def defs IH]; intros u u' Hrun.
  - simpl in Hrun. simplify_eq. split; [constructor|]. split.
    + intros def Hdef. by apply elem_of_nil in Hdef.
    + intros name. split; [by left|]. intros [H|H]; [done|].
      by apply elem_of_nil in H.
  - simpl in Hrun. destruct (defineFunction def u) as [u1|e1 u1] eqn:Hdef; [|done].
    apply IH in Hrun as (Hnodup & Hnew & Hdom).
    assert (Hfresh : functions u !! def_name def = None)
      by apply (defineFunction_Returned_dom _ _ _ (def_name def) Hdef).
    assert (Hu1 : forall name, is_Some (functions u1 !! name) <->
                    is_Some (functions u !! name) \/ name = def_name def)
      by (intros name; apply (defineFunction_Returned_dom _ _ _ name Hdef)).
    split; [|split].
    + simpl. constructor; [|done]. intros Hin.
      apply list_elem_of_fmap in Hin as (d & Hd & Hin).
      specialize (Hnew d Hin). rewrite <- Hd in Hnew.
      assert (Hsome : is_Some (functions u1 !! def_name def))
        by (apply Hu1; by right).
      rewrite Hnew in Hsome. by destruct Hsome.
    + intros d Hd. apply elem_of_cons in Hd as [->|Hd]; [done|].
      specialize (Hnew d Hd). apply eq_None_not_Some. intros Hsome.
      assert (Hsome1 : is_Some (functions u1 !! def_name d))
        by (apply Hu1; by left).
      rewrite Hnew in Hsome1. by destruct Hsome1.
    + intros name. rewrite Hdom, Hu1. simpl. rewrite elem_of_cons. tauto.
Qed.

Lemma createNet_undefined name u :
  createNet name u = inl (UndefinedFunction name) <-> functions u !! name = None.
Proof. unfold createNet. by destruct (functions u !! name). Qed.

(** X24.  Where [define] returns, the functions it was given have pairwise
    distinct names, none of which was registered before, and [createNet]
    then raises UndefinedFunction for exactly the names that were not
    registered before and are not among those of the functions given. *)
Theorem define_returns_distinct_names defs u u' :
  define defs u = Returned u' ->
  NoDup (def_name <$> defs) /\
  (forall def, def ∈ defs -> functions u !! def_name def = None) /\
  (forall name,
     createNet name u' = inl (UndefinedFunction name) <->
     createNet name u = inl (UndefinedFunction name) /\
     name ∉ def_name <$> defs).
Proof.
  intros Hrun. apply define_Returned_dom in Hrun as (Hnodup & Hnew & Hdom).
  split; [done|]. split; [done|]. intros name.
  rewrite !createNet_undefined, !eq_None_not_Some, Hdom. tauto.
Qed.

Lemma define_returns_distinct_names_witness :
  NoDup (def_name <$> [def_while; Build_Def "g" [] [] []]).
Proof.
  apply (define_returns_distinct_names [def_while; Build_Def "g" [] [] []]
           unit_empty
           (unit_of (define [def_while; Build_Def "g" [] [] []] unit_empty))).
  vm_compute. reflexivity.
Defined.

(** X25.  Where [define] returns, [createNet] finds for each of the functions
    given the net that [run] builds for that function alone, from a new
    compiler object and an empty net: what a function is compiled to depends
    neither on the functions defined before it nor on those defined after
    it. *)
Theorem define_registers_each defs : forall u u',
  define defs u = Returned u' ->
  forall def, def ∈ defs ->
    exists c,
      run def (DefCompiler_new NetDef_new) = Ok tt c /\
      createNet (def_name def) u' = inr (cur c).
Proof.
  induction defs as [|d defs IH]; intros u u' Hrun def Hdef.
  - by apply elem_of_nil in Hdef.
  - simpl in Hrun. destruct (defineFunction d u) as [u1|e1 u1] eqn:Hd; [|done].
    apply elem_of_cons in Hdef as [->|Hdef]; [|by eapply IH].
    unfold defineFunction in Hd.
    destruct (decide (is_Some (functions u !! def_name d))) as [Hdup|Hnew]; [done|].
    destruct (run d (DefCompiler_new NetDef_new)) as [[] c|e1 c] eqn:Hr; [|done].
    simplify_eq. exists c. split; [done|].
    apply run_Ok_inv in Hr as (e0 & e & _ & Hstack & _ & _).
    pose proof (define_keeps defs
                  (Build_CompilationUnitImpl (<[def_name d:=top_net c]> (functions u)))
                  (def_name d) (top_net c)) as Hkept.
    rewrite Hrun in Hkept. simpl in Hkept.
    unfold createNet. rewrite Hkept by apply lookup_insert_eq.
    by rewrite top_net_no_frames.
Qed.

Lemma define_registers_each_witness :
  exists c,
    run def_while (DefCompiler_new NetDef_new) = Ok tt c /\
    createNet "f" (unit_of (define [Build_Def "g" [] [] []; def_while] unit_empty)) =
    inr (cur c).
Proof.
  apply (define_registers_each [Build_Def "g" [] [] []; def_while] unit_empty
           (unit_of (define [Build_Def "g" [] [] []; def_while] unit_empty))).
  - vm_compute. reflexivity.
  - right. left.
Defined.
